(** * The incremental ordering engine of topic-sort

    A shallow embedding of [OrderSolution], [TSPSolution] (src/tsp/tsp.py)
    and [TopicSortSolution] (src/topic_sort.py), and the properties of the
    engine that the specification states.

    Conventions of the embedding.
    - A numpy array of shape (N, N) with dtype bool is a [grid], a total
      function on index pairs; only cells with both indices below the
      dimension exist in the source, and every access to the array is
      preceded here by the bound test that numpy performs (it raises
      IndexError).  A numpy array of shape (N,) with an integer dtype is a
      [vec].
    - Node indices are natural numbers (the specification's 0 <= a, b < N).
    - An [assert] that fails raises AssertionError; the embedding tags the
      error with the source line of the assertion, as a traceback does.
    - The methods mutate the object in place.  A call therefore yields an
      [outcome]: the state left behind, together with the exception if one
      was raised. *)

From Stdlib Require Import ZArith List Bool Lia Arith.
Import ListNotations.

Local Open Scope Z_scope.

(** ** Arrays *)

Definition grid := nat -> nat -> bool.
Definition vec := nat -> Z.

(** [arr[i] = v] *)
Definition vset (f : vec) (i : nat) (v : Z) : vec :=
  fun k => if Nat.eqb k i then v else f k.

(** [arr[i, j] = v] *)
Definition gset (g : grid) (i j : nat) (v : bool) : grid :=
  fun r c => if Nat.eqb r i && Nat.eqb c j then v else g r c.

(** [arr[node, :] = False] *)
Definition clear_row (g : grid) (node : nat) : grid :=
  fun r c => if Nat.eqb r node then false else g r c.

(** [arr[:, node] = False] *)
Definition clear_col (g : grid) (node : nat) : grid :=
  fun r c => if Nat.eqb c node then false else g r c.

(** [np.sum(v)] for an integer vector of shape (n,) whose entries are
    counts. *)
Definition vsum (n : nat) (f : nat -> Z) : Z :=
  fold_right (fun i acc => f i + acc) 0 (seq 0 n).

(** [np.sum(g, axis=(0, 1))] for a boolean grid of shape (n, n): the number
    of true cells.  The count is at most n * n, the number of cells that
    numpy has allocated, so the 64-bit accumulator is exact. *)
Definition b2z (b : bool) : Z := if b then 1 else 0.

Definition gcount (n : nat) (g : grid) : Z :=
  vsum n (fun i => vsum n (fun j => b2z (g i j))).

(** [g.any()] *)
Definition gany (n : nat) (g : grid) : bool :=
  existsb (fun i => existsb (fun j => g i j) (seq 0 n)) (seq 0 n).

(** [np.sum(v == x)] *)
Definition vcount (n : nat) (f : vec) (x : Z) : Z :=
  vsum n (fun i => b2z (f i =? x)).

(** [all(v == x)] *)
Definition vall (n : nat) (f : vec) (x : Z) : bool :=
  forallb (fun i => f i =? x) (seq 0 n).

(** [np.arange(n)[mask]] *)
Definition where_ (n : nat) (mask : nat -> bool) : list nat :=
  filter mask (seq 0 n).

(** ** 64-bit integers

    [np.int] is the platform's C long, 64 bits wide; an arithmetic result
    that leaves the range wraps around. *)

Definition wrap64 (z : Z) : Z :=
  (z + 2 ^ 63) mod 2 ^ 64 - 2 ^ 63.

Definition in_int64 (z : Z) : Prop := - 2 ^ 63 <= z < 2 ^ 63.

(** ** Problems *)

Record OrderProblem := mkProblem {
  p_dimension : nat;
  (** [costs[i, j]], an int64; -1 where no cost has been stored *)
  p_costs : nat -> nat -> Z
}.

(** ** Engine state: the attributes of an [OrderSolution] object *)

Record OrderSolution := mkSolution {
  problem : OrderProblem;
  dimension : nat;
  edges_added : grid;
  node_degrees : vec;
  connected_component : vec;
  feasible_edges : grid;
  valid_edges : grid;
  complete : bool
}.

Definition with_edges (s : OrderSolution) (e : grid) : OrderSolution :=
  mkSolution (problem s) (dimension s) e (node_degrees s)
    (connected_component s) (feasible_edges s) (valid_edges s) (complete s).

Definition with_degrees (s : OrderSolution) (d : vec) : OrderSolution :=
  mkSolution (problem s) (dimension s) (edges_added s) d
    (connected_component s) (feasible_edges s) (valid_edges s) (complete s).

Definition with_component (s : OrderSolution) (c : vec) : OrderSolution :=
  mkSolution (problem s) (dimension s) (edges_added s) (node_degrees s)
    c (feasible_edges s) (valid_edges s) (complete s).

Definition with_feasible (s : OrderSolution) (f : grid) : OrderSolution :=
  mkSolution (problem s) (dimension s) (edges_added s) (node_degrees s)
    (connected_component s) f (valid_edges s) (complete s).

Definition with_complete (s : OrderSolution) (b : bool) : OrderSolution :=
  mkSolution (problem s) (dimension s) (edges_added s) (node_degrees s)
    (connected_component s) (feasible_edges s) (valid_edges s) b.

(** ** Exceptions and outcomes *)

Inductive exn :=
| AssertionError (line : nat)
| IndexError.

Inductive outcome :=
| Normal (s : OrderSolution)
| Raised (e : exn) (s : OrderSolution).

Definition bind (o : outcome) (k : OrderSolution -> outcome) : outcome :=
  match o with
  | Normal s => k s
  | Raised e s => Raised e s
  end.

Notation "s <- o ;; k" := (bind o (fun s => k))
  (at level 61, o at next level, right associativity).

(** [assert c] at source line [line], followed by [k] *)
Definition assert_ (line : nat) (c : bool) (s : OrderSolution)
    (k : outcome) : outcome :=
  if c then k else Raised (AssertionError line) s.

Definition state_of (o : outcome) : OrderSolution :=
  match o with Normal s => s | Raised _ s => s end.

(** ** OrderSolution *)

(** tsp.py, lines 110-115: the upper triangle. *)
Definition upper (n : nat) : grid :=
  fun i j => Nat.ltb i j && Nat.ltb j n.

(** tsp.py, lines 122-124 *)
Definition validity_holds (s : OrderSolution) : bool :=
  gcount (dimension s) (fun i j => edges_added s i j && valid_edges s i j)
  =? gcount (dimension s) (edges_added s).

Definition ensure_validity (s : OrderSolution) : outcome :=
  assert_ 123 (validity_holds s) s (Normal s).

(** tsp.py, lines 98-120 *)
Definition init (p : OrderProblem) : OrderSolution :=
  mkSolution p (p_dimension p)
    (fun _ _ => false)
    (fun _ => 0)
    (fun _ => -1)
    (upper (p_dimension p))
    (upper (p_dimension p))
    false.

(** tsp.py, lines 141-147: one turn of the loop over [node_a, node_b]. *)
Definition bump (node : nat) (s : OrderSolution) : outcome :=
  assert_ 142 (node_degrees s node <? 2) s
    (let s1 := with_degrees s
                 (vset (node_degrees s) node (node_degrees s node + 1)) in
     if node_degrees s1 node =? 2
     then Normal (with_feasible s1
                    (clear_col (clear_row (feasible_edges s1) node) node))
     else Normal s1).

(** tsp.py, lines 157-188: the connectivity update for the edge (a, b),
    a < b.  The mask [connected_component == swallower] ranges over the
    indices of the array. *)
Definition in_component (s : OrderSolution) (label : Z) : nat -> bool :=
  fun i => Nat.ltb i (dimension s) && (connected_component s i =? label).

Definition join_components (a b : nat) (s : OrderSolution) : outcome :=
  let cc := connected_component s in
  if (cc a =? -1) && (cc b =? -1) then
    Normal (with_component s (vset (vset cc a (Z.of_nat a)) b (Z.of_nat a)))
  else if negb (cc a =? -1) && negb (cc b =? -1) then
    assert_ 162 (negb (cc a =? cc b)) s
      (let swallower := cc a in
       let swallowed := cc b in
       let s1 := with_component s
                   (fun i => if in_component s swallowed i
                             then swallower else cc i) in
       let mask := in_component s1 swallower in
       Normal (with_feasible s1
                 (fun i j => if mask i && mask j then false
                             else feasible_edges s1 i j)))
  else
    let go (addition : nat) (swallower : Z) :=
      assert_ 184 (negb (swallower =? -1)) s
        (let s1 := with_component s (vset cc addition swallower) in
         let mask := in_component s1 swallower in
         let f1 := fun i j => if Nat.eqb i addition && mask j then false
                              else feasible_edges s1 i j in
         let f2 := fun i j => if mask i && Nat.eqb j addition then false
                              else f1 i j in
         Normal (with_feasible s1 f2)) in
    if cc a =? -1 then go a (cc b)
    else assert_ 181 (cc b =? -1) s (go b (cc a)).

(** tsp.py, lines 133-190 *)
Definition order_add_edge (node_a node_b : nat) (s : OrderSolution)
    : outcome :=
  let a := Nat.min node_a node_b in
  let b := Nat.max node_a node_b in
  if negb (Nat.ltb a (dimension s) && Nat.ltb b (dimension s))
  then Raised IndexError s
  else
  assert_ 136 (feasible_edges s a b) s
  (assert_ 137 (negb (edges_added s a b)) s
  (let s := with_feasible s (gset (feasible_edges s) a b false) in
   let s := with_edges s (gset (edges_added s) a b true) in
   s <- bump a s ;;
   s <- bump b s ;;
   if negb (gany (dimension s) (feasible_edges s))
   then Normal (with_complete s true)
   else
     s <- join_components a b s ;;
     ensure_validity s)).

(** tsp.py, lines 126-131.  [connected_component[0]] of an empty array
    raises IndexError. *)
Definition order_ensure_completion (s : OrderSolution) : outcome :=
  s <- ensure_validity s ;;
  assert_ 128 (negb (gany (dimension s) (feasible_edges s))) s
  (if Nat.eqb (dimension s) 0 then Raised IndexError s
   else
     let cc_name := connected_component s 0%nat in
     assert_ 130 (vall (dimension s) (connected_component s) cc_name) s
     (assert_ 131 (complete s) s (Normal s))).

(** ** TSPSolution: the cycle variant *)

(** tsp.py, lines 237-242.  Unpacking [sorted(endpoints)] into two names
    needs exactly two elements, which the assertion has checked;
    [np.arange(n)[mask]] is increasing, so sorting leaves it as it is. *)
Definition reopen (s : OrderSolution) : outcome :=
  if negb (complete s) && negb (gany (dimension s) (feasible_edges s))
  then
    match where_ (dimension s) (fun i => node_degrees s i =? 1) with
    | [endpoint1; endpoint2] =>
        Normal (with_feasible s
                  (gset (feasible_edges s) endpoint1 endpoint2 true))
    | _ => Raised (AssertionError 240) s
    end
  else Normal s.

(** tsp.py, lines 234-244 *)
Definition tsp_add_edge (node_a node_b : nat) (s : OrderSolution)
    : outcome :=
  s <- order_add_edge node_a node_b s ;;
  s <- reopen s ;;
  ensure_validity s.

(** tsp.py, lines 229-232 *)
Definition tsp_ensure_completion (s : OrderSolution) : outcome :=
  s <- order_ensure_completion s ;;
  assert_ 231 (gcount (dimension s) (edges_added s)
               =? Z.of_nat (dimension s)) s
  (assert_ 232 (vall (dimension s) (node_degrees s) 2) s (Normal s)).

(** tsp.py, lines 246-248: the products and their sum are int64. *)
Definition cost_sum (n : nat) (e : grid) (c : nat -> nat -> Z) : Z :=
  vsum n (fun i => vsum n (fun j => b2z (e i j) * c i j)).

Definition tsp_cost (s : OrderSolution) : Z :=
  wrap64 (cost_sum (dimension s) (edges_added s) (p_costs (problem s))).

(** ** TopicSortSolution: the path variant

    [TopicSortSolution] extends [order_problem.OrderingSolution], a module
    that the sources at hand do not contain.  The engine it inherits is
    taken to be [OrderSolution] of tsp.py, the engine the repository shows. *)

(** Modelled from the spec: [finish], a method of the missing
    [order_problem.OrderingSolution].  Section 4.2: reaching a state where the
    feasible set is empty is the trigger to mark the structure complete. *)
Definition finish (s : OrderSolution) : outcome :=
  Normal (with_complete s true).

(** topic_sort.py, lines 77-83 *)
Definition topic_add_edge (node_a node_b : nat) (s : OrderSolution)
    : outcome :=
  s <- order_add_edge node_a node_b s ;;
  if negb (gany (dimension s) (feasible_edges s))
  then finish s
  else ensure_validity s.

(** topic_sort.py, lines 71-75 *)
Definition topic_ensure_completion (s : OrderSolution) : outcome :=
  s <- order_ensure_completion s ;;
  assert_ 73 (gcount (dimension s) (edges_added s)
              =? Z.of_nat (dimension s) - 1) s
  (assert_ 74 (vcount (dimension s) (node_degrees s) 2
               =? Z.of_nat (dimension s) - 2) s
  (assert_ 75 (vcount (dimension s) (node_degrees s) 1 =? 2) s
     (Normal s))).

(** ** The two variants, and the states a run can reach *)

Inductive variant := Cycle | Path.

Definition add_edge (v : variant) : nat -> nat -> OrderSolution -> outcome :=
  match v with
  | Cycle => tsp_add_edge
  | Path => topic_add_edge
  end.

Definition ensure_completion (v : variant) : OrderSolution -> outcome :=
  match v with
  | Cycle => tsp_ensure_completion
  | Path => topic_ensure_completion
  end.

(** Running a list of calls, stopping at the first exception. *)
Fixpoint run (v : variant) (calls : list (nat * nat)) (s : OrderSolution)
    : outcome :=
  match calls with
  | [] => Normal s
  | (a, b) :: rest => s' <- add_edge v a b s ;; run v rest s'
  end.

(** [reachable v p n s]: [s] is the state of a [v]-engine for problem
    [p] after [n] successful calls of [add_edge]. *)
Inductive reachable (v : variant) (p : OrderProblem)
    : nat -> OrderSolution -> Prop :=
| reach_init : reachable v p 0 (init p)
| reach_step n s a b s' :
    reachable v p n s ->
    add_edge v a b s = Normal s' ->
    reachable v p (S n) s'.

(** Two nodes are in the same connected component when a chain of
    committed edges links them. *)
Inductive connected (e : grid) : nat -> nat -> Prop :=
| conn_refl i : connected e i i
| conn_step i j k :
    e i j = true \/ e j i = true ->
    connected e j k ->
    connected e i k.

(** The number of committed edges that touch node [i]: row [i] and column
    [i] of the grid. *)
Definition touching (n : nat) (e : grid) (i : nat) : Z :=
  vsum n (fun j => b2z (e i j) + b2z (e j i)).

(** ** Invariants of the engine *)

(** What the degree and label vectors allow: a pair of the upper triangle
    whose nodes can both take another edge and do not carry the same
    assigned label. *)
Definition feasible_rule (s : OrderSolution) : grid :=
  fun i j =>
    Nat.ltb i j && Nat.ltb j (dimension s)
    && (node_degrees s i <? 2) && (node_degrees s j <? 2)
    && ((connected_component s i =? -1)
        || negb (connected_component s i =? connected_component s j)).

(** The bookkeeping of edges and degrees. *)
Record sound (s : OrderSolution) : Prop := {
  snd_dimension : dimension s = p_dimension (problem s);
  snd_valid : forall i j, valid_edges s i j = upper (dimension s) i j;
  snd_edges : forall i j,
    edges_added s i j = true -> (i < j < dimension s)%nat;
  snd_degree : forall i, (i < dimension s)%nat ->
    node_degrees s i = touching (dimension s) (edges_added s) i;
  snd_range : forall i, 0 <= node_degrees s i <= 2
}.

(** The labels name the connected components of the committed edges. *)
Record labelled (s : OrderSolution) : Prop := {
  lab_free : forall i, (i < dimension s)%nat ->
    (connected_component s i = -1 <-> node_degrees s i = 0);
  lab_root : forall i, (i < dimension s)%nat ->
    connected_component s i <> -1 ->
    exists r, (r < dimension s)%nat
              /\ connected_component s i = Z.of_nat r
              /\ connected_component s r = Z.of_nat r;
  lab_edge : forall i j, edges_added s i j = true ->
    connected_component s i = connected_component s j
    /\ connected_component s i <> -1;
  lab_conn : forall i j, (i < dimension s)%nat -> (j < dimension s)%nat ->
    connected_component s i <> -1 ->
    connected_component s i = connected_component s j ->
    connected (edges_added s) i j
}.

(** Component [label] is a path: two ends of degree 1, the rest of
    degree 2. *)
Definition path_ends (s : OrderSolution) (label : Z) (e1 e2 : nat) : Prop :=
  (e1 < dimension s)%nat /\ (e2 < dimension s)%nat /\ e1 <> e2
  /\ connected_component s e1 = label
  /\ connected_component s e2 = label
  /\ node_degrees s e1 = 1 /\ node_degrees s e2 = 1
  /\ forall k, (k < dimension s)%nat -> connected_component s k = label ->
               k <> e1 -> k <> e2 -> node_degrees s k = 2.

(** The state of a structure that is still a set of disjoint paths. *)
Record open (s : OrderSolution) : Prop := {
  opn_feasible : forall i j, feasible_edges s i j = feasible_rule s i j;
  opn_ends : forall i, (i < dimension s)%nat ->
    connected_component s i <> -1 ->
    exists e1 e2, path_ends s (connected_component s i) e1 e2
}.

(** The nodes that the edge (a, b) brings together, and the label they
    get (tsp.py, lines 157-188). *)
Definition joined (s : OrderSolution) (a b : nat) : nat -> bool :=
  let cc := connected_component s in
  fun k =>
    Nat.ltb k (dimension s)
    && (Nat.eqb k a || Nat.eqb k b
        || (negb (cc a =? -1) && (cc k =? cc a))
        || (negb (cc b =? -1) && (cc k =? cc b))).

Definition new_label (s : OrderSolution) (a b : nat) : Z :=
  let cc := connected_component s in
  if cc a =? -1 then (if cc b =? -1 then Z.of_nat a else cc b) else cc a.

(** One Hamiltonian path: the state of the cycle variant that waits for
    its closing edge (e1, e2). *)
Record closing (s : OrderSolution) (e1 e2 : nat) : Prop := {
  cls_order : (e1 < e2 < dimension s)%nat;
  cls_feasible : forall i j,
    feasible_edges s i j = Nat.eqb i e1 && Nat.eqb j e2;
  cls_ends : path_ends s (connected_component s e1) e1 e2;
  cls_span : forall k, (k < dimension s)%nat ->
    connected_component s k = connected_component s e1;
  cls_label : connected_component s e1 <> -1;
  cls_fresh : edges_added s e1 e2 = false;
  cls_complete : complete s = false
}.

(** A finished cycle. *)
Record closed (s : OrderSolution) : Prop := {
  cld_feasible : forall i j, feasible_edges s i j = false;
  cld_degree : forall k, (k < dimension s)%nat -> node_degrees s k = 2;
  cld_span : forall k, (k < dimension s)%nat ->
    connected_component s k = connected_component s 0%nat;
  cld_complete : complete s = true
}.

(** The only state of a two-node problem after its single edge: the
    early return of line 155 has skipped the labelling. *)
Record pair_done (s : OrderSolution) : Prop := {
  pd_dimension : dimension s = 2%nat;
  pd_edges : forall i j,
    edges_added s i j = Nat.eqb i 0 && Nat.eqb j 1;
  pd_degree : node_degrees s 0%nat = 1 /\ node_degrees s 1%nat = 1;
  pd_label : forall k, (k < 2)%nat -> connected_component s k = -1;
  pd_feasible : forall i j, feasible_edges s i j = false;
  pd_complete : complete s = true
}.

(** The stages of a run.  [stage v s] is the invariant of the states that
    a [v]-engine reaches. *)
Inductive stage (v : variant) (s : OrderSolution) : Prop :=
| stage_open :
    sound s -> labelled s -> open s -> complete s = false ->
    ((2 <= dimension s)%nat ->
     gany (dimension s) (feasible_edges s) = true) ->
    stage v s
| stage_path_done :
    v = Path -> (3 <= dimension s)%nat ->
    sound s -> labelled s -> open s -> complete s = true ->
    gany (dimension s) (feasible_edges s) = false ->
    stage v s
| stage_closing e1 e2 :
    v = Cycle -> (3 <= dimension s)%nat ->
    sound s -> labelled s -> closing s e1 e2 ->
    stage v s
| stage_closed :
    v = Cycle -> (3 <= dimension s)%nat ->
    sound s -> labelled s -> closed s ->
    stage v s
| stage_pair :
    sound s -> pair_done s ->
    stage v s.

(** What one successful call does: [s1] is the state that
    [OrderSolution.add_edge] leaves, [s'] the state that the variant's
    [add_edge] leaves, [(a, b)] the sorted pair. *)
Record step_facts (v : variant) (s : OrderSolution) (a b : nat)
    (s1 s' : OrderSolution) : Prop := {
  sf_stage : stage v s';
  sf_problem : problem s' = problem s;
  sf_dimension : dimension s' = dimension s;
  sf_dimension1 : dimension s1 = dimension s;
  sf_pair : (a < b < dimension s)%nat;
  sf_fresh : edges_added s a b = false;
  sf_edges1 : edges_added s1 = gset (edges_added s) a b true;
  sf_edges : edges_added s' = edges_added s1;
  sf_degrees : node_degrees s' = node_degrees s1;
  sf_labels : connected_component s' = connected_component s1;
  sf_shrinks : forall i j,
    feasible_edges s1 i j = true -> feasible_edges s i j = true;
  sf_reopen :
    feasible_edges s' = feasible_edges s1
    \/ (v = Cycle /\ complete s1 = false
        /\ (forall i j, feasible_edges s1 i j = false)
        /\ gcount (dimension s1) (edges_added s1)
           = Z.of_nat (dimension s1) - 1
        /\ exists e1 e2,
             closing s' e1 e2
             /\ feasible_edges s' = gset (feasible_edges s1) e1 e2 true);
  sf_apart :
    ~ connected (edges_added s) a b
    \/ (v = Cycle /\ closing s a b /\ closed s')
}.

(** ** Committed pairs and their cost *)

(** The pairs (i, j) with i < j < n, row by row. *)
Definition pairs (n : nat) : list (nat * nat) :=
  flat_map (fun i => map (pair i) (seq (S i) (n - S i))) (seq 0 n).

(** The committed pairs (i, j) with i < j. *)
Definition committed (n : nat) (e : grid) : list (nat * nat) :=
  filter (fun p => e (fst p) (snd p)) (pairs n).

(** The sum of [c i j] over a list of pairs. *)
Definition total (c : nat -> nat -> Z) (l : list (nat * nat)) : Z :=
  fold_right (fun p acc => c (fst p) (snd p) + acc) 0 l.

(** ** Sample problems *)

Definition unit_costs : nat -> nat -> Z :=
  fun i j => if Nat.ltb i j then 1 else -1.

(** Two nodes. *)
Definition duo : OrderProblem := mkProblem 2 unit_costs.

(** Three nodes. *)
Definition trio : OrderProblem := mkProblem 3 unit_costs.

(** Three nodes that are 2^62 apart from each other. *)
Definition far_trio : OrderProblem :=
  mkProblem 3 (fun i j => if Nat.ltb i j then 2 ^ 62 else -1).

(** The state that a list of calls leaves on a fresh engine. *)
Definition after (v : variant) (p : OrderProblem)
    (calls : list (nat * nat)) : OrderSolution :=
  state_of (run v calls (init p)).

(** ** The specification's names for the two refusals

    The source raises AssertionError for both; the specification names
    the failure of the feasibility test of line 136 and of the duplicate
    test of line 137. *)
Definition InfeasibleEdgeError : exn := AssertionError 136.
Definition DuplicateEdgeError : exn := AssertionError 137.


(** ** TSPSolution.__init__: reading a tour (tsp.py, lines 194-227)

    After the header, the reader takes the first node of the tour, then
    N - 1 further nodes, and commits the edge from the node read before to
    the node just read; if the next line is -1 it commits the edge from the
    last node back to the first.  [first] and [rest] are the node numbers
    as the reader uses them, counted from 0; [closes] says whether the
    line -1 follows.  The text of the file is not modelled. *)

(** Lines 216-220: the calls of the loop. *)
Fixpoint tour_calls (latest_node : nat) (rest : list nat)
    : list (nat * nat) :=
  match rest with
  | [] => []
  | this_node :: rest' => (latest_node, this_node) :: tour_calls this_node rest'
  end.

Definition load_tour (p : OrderProblem) (first_node : nat)
    (rest : list nat) (closes : bool) : outcome :=
  s <- ensure_validity (init p) ;;
  s <- run Cycle (tour_calls first_node rest) s ;;
  s <- (if closes then tsp_add_edge (last rest first_node) first_node s
        else Normal s) ;;
  ensure_validity s.

(** The cell of the cost matrix that a call on two nodes uses
    (line 134). *)
Definition sorted_pair (c : nat * nat) : nat * nat :=
  (Nat.min (fst c) (snd c), Nat.max (fst c) (snd c)).

(** The legs of a tour. *)
Definition legs (first_node : nat) (rest : list nat) (closes : bool)
    : list (nat * nat) :=
  tour_calls first_node rest
  ++ (if closes then [(last rest first_node, first_node)] else []).

(** The shape that visiting all nodes in a row leaves: one path from
    [e1] to [e2] through every node. *)
Definition spans (s : OrderSolution) (e1 e2 : nat) : Prop :=
  (e1 < dimension s)%nat /\ (e2 < dimension s)%nat /\ e1 <> e2
  /\ node_degrees s e1 = 1 /\ node_degrees s e2 = 1
  /\ (forall x, (x < dimension s)%nat -> x <> e1 -> x <> e2 ->
        node_degrees s x = 2)
  /\ connected (edges_added s) e1 e2.

(** ** TSPProblem.show: the itineraries it plots (tsp.py, lines 68-87)

    [show] walks along the committed edges from every node of degree 1,
    or from node 0 if there is none, and hands each list of nodes it has
    walked to the plotting library.  The model keeps the lists; the
    plotting is not modelled.  The while loop of the source is given a
    bound on its turns. *)

Inductive traced (A : Type) : Type :=
| Traced (a : A)
| TraceRaised (e : exn)
| OutOfFuel.

Arguments Traced {A} a.
Arguments TraceRaised {A} e.
Arguments OutOfFuel {A}.

(** Lines 78-80: [np.arange(n)[edges_added[here, :] | edges_added[:, here]]] *)
Definition neighbors (n : nat) (e : grid) (here : nat) : list nat :=
  where_ n (fun k => e here k || e k here).

(** [n not in itinerary] *)
Definition not_in (itinerary : list nat) (k : nat) : bool :=
  negb (existsb (Nat.eqb k) itinerary).

(** Lines 75-85: the while loop, [fuel] turns at most; [endpoints] is
    [len(endpoints)]. *)
Fixpoint walk_loop (fuel n : nat) (e : grid) (endpoints : nat)
    (unvisited_neighbors itinerary : list nat) : traced (list nat) :=
  match unvisited_neighbors with
  | [] => Traced itinerary
  | here :: _ =>
    match fuel with
    | O => OutOfFuel
    | S fuel =>
      if negb (Nat.ltb here n) then TraceRaised IndexError else
      let itinerary := itinerary ++ [here] in
      let unvisited_neighbors :=
        filter (not_in itinerary) (neighbors n e here) in
      if (length unvisited_neighbors <=? 1)%nat
         || ((endpoints =? 1)%nat && (length itinerary =? 1)%nat)
      then walk_loop fuel n e endpoints unvisited_neighbors itinerary
      else TraceRaised (AssertionError 84)
    end
  end.

(** Lines 73-87: one turn of the for loop. *)
Definition itinerary_from (fuel n : nat) (e : grid) (endpoints : nat)
    (endpoint : nat) : traced (list nat) :=
  match walk_loop fuel n e endpoints [endpoint] [] with
  | Traced itinerary =>
    if (endpoints =? 1)%nat then
      match itinerary with
      | [] => TraceRaised IndexError
      | start :: _ => Traced (itinerary ++ [start])
      end
    else Traced itinerary
  | TraceRaised x => TraceRaised x
  | OutOfFuel => OutOfFuel
  end.

(** Lines 72-92: the for loop. *)
Fixpoint itineraries (fuel n : nat) (e : grid) (count : nat)
    (endpoints : list nat) : traced (list (list nat)) :=
  match endpoints with
  | [] => Traced []
  | endpoint :: rest =>
    match itinerary_from fuel n e count endpoint with
    | Traced itinerary =>
      match itineraries fuel n e count rest with
      | Traced l => Traced (itinerary :: l)
      | TraceRaised x => TraceRaised x
      | OutOfFuel => OutOfFuel
      end
    | TraceRaised x => TraceRaised x
    | OutOfFuel => OutOfFuel
    end
  end.

(** Lines 68-71: where the walks start. *)
Definition start_nodes (tour : OrderSolution) : list nat :=
  let endpoints :=
    where_ (dimension tour) (fun i => node_degrees tour i =? 1) in
  if (length endpoints =? 0)%nat then [0%nat] else endpoints.

Definition show (fuel : nat) (tour : OrderSolution)
    : traced (list (list nat)) :=
  let endpoints :=
    where_ (dimension tour) (fun i => node_degrees tour i =? 1) in
  if negb (Nat.even (length endpoints)) then TraceRaised (AssertionError 69)
  else
    itineraries fuel (dimension tour) (edges_added tour)
      (length (start_nodes tour)) (start_nodes tour).

(** A list of nodes in which each node is joined to the next by a
    committed edge. *)
Fixpoint chain (e : grid) (l : list nat) : Prop :=
  match l with
  | a :: (b :: _) as rest => (e a b = true \/ e b a = true) /\ chain e rest
  | _ => True
  end.

(** A walk that [show] can make: no node twice, along committed edges,
    up to a node whose neighbours have all been visited. *)
Definition route (n : nat) (e : grid) (l : list nat) : Prop :=
  l <> [] /\ NoDup l
  /\ (forall x, In x l -> (x < n)%nat)
  /\ chain e l
  /\ forall d u, In u (neighbors n e (last l d)) -> In u l.

(** What [show] plots for the walk from [endpoint]: the route, closed by
    its first node if it is the only one (lines 86-87). *)
Definition plotted (n : nat) (e : grid) (count : nat)
    (endpoint : nat) (itinerary : list nat) : Prop :=
  exists r, route n e r /\ hd_error r = Some endpoint
            /\ itinerary = if (count =? 1)%nat then r ++ [endpoint] else r.

(** [b] comes right after [a] in the list. *)
Definition follows (l : list nat) (a b : nat) : Prop :=
  exists l1 l2, l = l1 ++ a :: b :: l2.

(** * Properties *)

(** ** Sums, counts and searches over an index range *)

Section Arrays.

Lemma vsum_S n f : vsum (S n) f = vsum n f + f n.
Proof.
  unfold vsum. rewrite seq_S, fold_right_app. simpl.
  generalize (seq 0 n) as l. induction l as [|x l IH]; simpl; lia.
Qed.

Lemma vsum_ext n f g :
  (forall i, (i < n)%nat -> f i = g i) -> vsum n f = vsum n g.
Proof.
  induction n as [|n IH]; intros H; [reflexivity|].
  rewrite !vsum_S, IH, (H n) by auto with arith. reflexivity.
Qed.

Lemma vsum_zero n f :
  (forall i, (i < n)%nat -> f i = 0) -> vsum n f = 0.
Proof.
  induction n as [|n IH]; intros H; [reflexivity|].
  rewrite vsum_S, IH, (H n) by auto with arith. reflexivity.
Qed.

Lemma vsum_plus n f g :
  vsum n (fun i => f i + g i) = vsum n f + vsum n g.
Proof.
  induction n as [|n IH]; [reflexivity|]. rewrite !vsum_S, IH. lia.
Qed.

Lemma vsum_scale n c f :
  vsum n (fun i => c * f i) = c * vsum n f.
Proof.
  induction n as [|n IH]; [unfold vsum; simpl; lia|].
  rewrite !vsum_S, IH. lia.
Qed.

Lemma vsum_const n c : vsum n (fun _ => c) = Z.of_nat n * c.
Proof.
  induction n as [|n IH]; [reflexivity|]. rewrite vsum_S, IH. lia.
Qed.

Lemma vsum_le n f g :
  (forall i, (i < n)%nat -> f i <= g i) -> vsum n f <= vsum n g.
Proof.
  induction n as [|n IH]; intros H; [reflexivity|].
  rewrite !vsum_S. specialize (H n) as Hn.
  assert (vsum n f <= vsum n g) by (apply IH; auto with arith).
  assert (f n <= g n) by auto with arith. lia.
Qed.

Lemma vsum_le_eq n f g :
  (forall i, (i < n)%nat -> f i <= g i) ->
  vsum n f = vsum n g ->
  forall i, (i < n)%nat -> f i = g i.
Proof.
  induction n as [|n IH]; intros H E i Hi; [lia|].
  rewrite !vsum_S in E.
  assert (vsum n f <= vsum n g) by (apply vsum_le; auto with arith).
  assert (f n <= g n) by auto with arith.
  destruct (Nat.eq_dec i n) as [->|]; [lia|].
  apply IH; auto with arith; lia.
Qed.

(** The indicator of one index sums to one. *)
Lemma vsum_point n k :
  (k < n)%nat -> vsum n (fun i => b2z (Nat.eqb i k)) = 1.
Proof.
  induction n as [|n IH]; intros H; [lia|]. rewrite vsum_S.
  destruct (Nat.eq_dec k n) as [->|].
  - rewrite Nat.eqb_refl, vsum_zero; [reflexivity|].
    intros i Hi. destruct (Nat.eqb_spec i n); [lia|reflexivity].
  - rewrite IH by lia. destruct (Nat.eqb_spec n k); [lia|reflexivity].
Qed.

Lemma vsum_swap n m (f : nat -> nat -> Z) :
  vsum n (fun i => vsum m (fun j => f i j))
  = vsum m (fun j => vsum n (fun i => f i j)).
Proof.
  induction n as [|n IH].
  - simpl. symmetry. apply vsum_zero. reflexivity.
  - rewrite vsum_S, IH. rewrite <- vsum_plus.
    apply vsum_ext. intros j _. rewrite vsum_S. reflexivity.
Qed.

(** A vector that is [x] except at [k]. *)
Lemma vsum_vset n f k v :
  (k < n)%nat -> vsum n (vset f k v) = vsum n f + (v - f k).
Proof.
  intros H.
  rewrite (vsum_ext n (vset f k v)
             (fun i => f i + (v - f k) * b2z (Nat.eqb i k))).
  - rewrite vsum_plus, vsum_scale, vsum_point by assumption. lia.
  - intros i _. unfold vset. destruct (Nat.eqb i k) eqn:E; simpl; [|lia].
    apply Nat.eqb_eq in E. subst. lia.
Qed.

Lemma gany_true n g :
  gany n g = true <->
  exists i j, (i < n)%nat /\ (j < n)%nat /\ g i j = true.
Proof.
  unfold gany. rewrite existsb_exists. split.
  - intros (i & Hi & H). apply existsb_exists in H as (j & Hj & H).
    apply in_seq in Hi, Hj. exists i, j. repeat split; auto; lia.
  - intros (i & j & Hi & Hj & H). exists i. split; [apply in_seq; lia|].
    apply existsb_exists. exists j. split; [apply in_seq; lia|assumption].
Qed.

Lemma gany_false n g :
  gany n g = false <->
  forall i j, (i < n)%nat -> (j < n)%nat -> g i j = false.
Proof.
  split.
  - intros H i j Hi Hj. destruct (g i j) eqn:E; [|reflexivity].
    assert (gany n g = true) by (apply gany_true; eauto). congruence.
  - intros H. destruct (gany n g) eqn:E; [|reflexivity].
    apply gany_true in E as (i & j & Hi & Hj & E).
    rewrite H in E by assumption. discriminate.
Qed.

Lemma vall_true n f x :
  vall n f x = true <-> forall i, (i < n)%nat -> f i = x.
Proof.
  unfold vall. rewrite forallb_forall. split.
  - intros H i Hi. apply Z.eqb_eq, H, in_seq. lia.
  - intros H i Hi. apply Z.eqb_eq, H. apply in_seq in Hi. lia.
Qed.

Lemma where_nil a n mask :
  (forall i, (a <= i < a + n)%nat -> mask i = false) ->
  filter mask (seq a n) = [].
Proof.
  revert a. induction n as [|n IH]; intros a H; [reflexivity|].
  simpl. rewrite H by lia. apply IH. intros i Hi. apply H. lia.
Qed.

(** Exactly two indices satisfy the mask. *)
Lemma where_two n mask e1 e2 :
  (e1 < e2 < n)%nat ->
  (forall i, (i < n)%nat -> mask i = true <-> i = e1 \/ i = e2) ->
  where_ n mask = [e1; e2].
Proof.
  intros He H. unfold where_.
  assert (Hoff : forall i, (i < n)%nat -> i <> e1 -> i <> e2 ->
                           mask i = false).
  { intros i Hi H1 H2. destruct (mask i) eqn:E; [|reflexivity].
    apply H in E; [|assumption]. tauto. }
  replace n with (e1 + (1 + ((e2 - e1 - 1) + (1 + (n - e2 - 1)))))%nat
    by lia.
  rewrite !seq_app, !filter_app. simpl.
  replace (e1 + 1 + (e2 - e1 - 1))%nat with e2 by lia.
  rewrite (proj2 (H e1 ltac:(lia))), (proj2 (H e2 ltac:(lia))) by auto.
  rewrite !where_nil; [reflexivity| |  |]; intros i Hi; apply Hoff; lia.
Qed.

Lemma vcount_two n f x e1 e2 :
  (e1 < n)%nat -> (e2 < n)%nat -> e1 <> e2 ->
  (forall i, (i < n)%nat -> f i = x <-> i = e1 \/ i = e2) ->
  vcount n f x = 2.
Proof.
  intros H1 H2 Hne H. unfold vcount.
  rewrite (vsum_ext n _
             (fun i => b2z (Nat.eqb i e1) + b2z (Nat.eqb i e2))).
  - rewrite vsum_plus, !vsum_point by assumption. reflexivity.
  - intros i Hi. specialize (H i Hi).
    destruct (Z.eqb_spec (f i) x) as [E|E];
      destruct (Nat.eqb_spec i e1); destruct (Nat.eqb_spec i e2);
      simpl; try reflexivity; try lia; tauto.
Qed.

Lemma vcount_compl n f x y e1 e2 :
  (e1 < n)%nat -> (e2 < n)%nat -> e1 <> e2 -> x <> y ->
  f e1 = x -> f e2 = x ->
  (forall i, (i < n)%nat -> i <> e1 -> i <> e2 -> f i = y) ->
  vcount n f y = Z.of_nat n - 2.
Proof.
  intros H1 H2 Hne Hxy F1 F2 H. unfold vcount.
  rewrite (vsum_ext n _
             (fun i => 1 + (-1) * (b2z (Nat.eqb i e1) + b2z (Nat.eqb i e2)))).
  - rewrite vsum_plus, vsum_const, vsum_scale, vsum_plus, !vsum_point
      by assumption. lia.
  - intros i Hi.
    destruct (Nat.eqb_spec i e1) as [->|]; [|destruct (Nat.eqb_spec i e2) as [->|]].
    + destruct (Nat.eqb_spec e1 e2); [lia|].
      destruct (Z.eqb_spec (f e1) y); [lia|reflexivity].
    + destruct (Z.eqb_spec (f e2) y); [lia|reflexivity].
    + rewrite H by assumption. rewrite Z.eqb_refl. reflexivity.
Qed.

End Arrays.

(** ** Grids: committing one cell, and the edges that touch a node *)

Section Grids.

Variable n : nat.

Lemma b2z_range b : 0 <= b2z b <= 1.
Proof. destruct b; simpl; lia. Qed.

Lemma gset_true_cell (e : grid) a b i j :
  e a b = false ->
  b2z (gset e a b true i j)
  = b2z (e i j) + b2z (Nat.eqb i a) * b2z (Nat.eqb j b).
Proof.
  intros H. unfold gset.
  destruct (Nat.eqb_spec i a) as [->|]; destruct (Nat.eqb_spec j b) as [->|];
    simpl; try lia. rewrite H. reflexivity.
Qed.

Lemma gcount_gset_true (e : grid) a b :
  (a < n)%nat -> (b < n)%nat -> e a b = false ->
  gcount n (gset e a b true) = gcount n e + 1.
Proof.
  intros Ha Hb H. unfold gcount.
  rewrite (vsum_ext n _
            (fun i => vsum n (fun j => b2z (e i j)) + b2z (Nat.eqb i a))).
  - rewrite vsum_plus, vsum_point by assumption. reflexivity.
  - intros i _.
    rewrite (vsum_ext n _
              (fun j => b2z (e i j) + b2z (Nat.eqb i a) * b2z (Nat.eqb j b)))
      by (intros; apply gset_true_cell; assumption).
    rewrite vsum_plus, vsum_scale, vsum_point by assumption. lia.
Qed.

Lemma touching_gset_true (e : grid) a b i :
  (a < n)%nat -> (b < n)%nat -> e a b = false -> e b a = false -> a <> b ->
  touching n (gset e a b true) i
  = touching n e i + b2z (Nat.eqb i a) + b2z (Nat.eqb i b).
Proof.
  intros Ha Hb H H' Hab. unfold touching.
  rewrite (vsum_ext n _
            (fun j => (b2z (e i j) + b2z (e j i))
                      + (b2z (Nat.eqb i a) * b2z (Nat.eqb j b)
                         + b2z (Nat.eqb i b) * b2z (Nat.eqb j a)))).
  - rewrite !vsum_plus, !vsum_scale, !vsum_point by assumption. lia.
  - intros j _. rewrite !gset_true_cell by assumption. lia.
Qed.

Lemma gcount_nonneg (e : grid) : 0 <= gcount n e.
Proof.
  unfold gcount. rewrite <- (vsum_zero n (fun _ => 0)) by reflexivity.
  apply vsum_le. intros i _.
  rewrite <- (vsum_zero n (fun _ => 0)) by reflexivity.
  apply vsum_le. intros j _. apply b2z_range.
Qed.

(** The handshake: every edge is seen from both of its ends. *)
Lemma touching_total (e : grid) :
  vsum n (touching n e) = 2 * gcount n e.
Proof.
  unfold touching, gcount.
  rewrite (vsum_ext n _
            (fun i => vsum n (fun j => b2z (e i j))
                      + vsum n (fun j => b2z (e j i))))
    by (intros; apply vsum_plus).
  rewrite vsum_plus.
  rewrite (vsum_swap n n (fun i j => b2z (e j i))). lia.
Qed.

(** The test of [ensure_validity]: the committed cells inside [v] are as
    many as the committed cells exactly when every committed cell is in
    [v]. *)
Lemma gcount_subset (e v : grid) :
  gcount n (fun i j => e i j && v i j) = gcount n e <->
  forall i j, (i < n)%nat -> (j < n)%nat -> e i j = true -> v i j = true.
Proof.
  unfold gcount. split.
  - intros H i j Hi Hj E.
    assert (R : vsum n (fun j => b2z (e i j && v i j))
                = vsum n (fun j => b2z (e i j))).
    { apply (vsum_le_eq n (fun i => vsum n (fun j => b2z (e i j && v i j)))
               (fun i => vsum n (fun j => b2z (e i j)))); auto.
      intros i' _. apply vsum_le. intros j' _.
      destruct (e i' j'), (v i' j'); simpl; lia. }
    assert (C : b2z (e i j && v i j) = b2z (e i j)).
    { apply (vsum_le_eq n (fun j => b2z (e i j && v i j))
               (fun j => b2z (e i j))); auto.
      intros j' _. destruct (e i j'), (v i j'); simpl; lia. }
    rewrite E in C. destruct (v i j); [reflexivity|discriminate].
  - intros H. apply vsum_ext. intros i Hi. apply vsum_ext. intros j Hj.
    destruct (e i j) eqn:E; [|reflexivity]. rewrite (H i j) by assumption.
    reflexivity.
Qed.

End Grids.

(** ** Connected components of the committed edges *)

Section Connectivity.

Lemma connected_trans e i j k :
  connected e i j -> connected e j k -> connected e i k.
Proof.
  induction 1 as [|i m j Hedge _ IH]; intros H; [assumption|].
  apply conn_step with m; auto.
Qed.

Lemma connected_edge e i j :
  e i j = true \/ e j i = true -> connected e i j.
Proof. intros H. apply conn_step with j; [assumption|apply conn_refl]. Qed.

Lemma connected_sym e i j : connected e i j -> connected e j i.
Proof.
  induction 1 as [|i m j Hedge _ IH]; [apply conn_refl|].
  apply connected_trans with m; [assumption|].
  apply connected_edge. tauto.
Qed.

Lemma connected_mono (e e' : grid) i j :
  (forall x y, e x y = true -> e' x y = true) ->
  connected e i j -> connected e' i j.
Proof.
  intros H. induction 1 as [|i m j Hedge _ IH]; [apply conn_refl|].
  apply conn_step with m; [|assumption].
  destruct Hedge; [left|right]; auto.
Qed.

(** A labelling that is constant along edges is constant on components. *)
Lemma connected_label e (cc : vec) i j :
  (forall x y, e x y = true -> cc x = cc y /\ cc x <> -1) ->
  connected e i j -> i = j \/ (cc i = cc j /\ cc i <> -1).
Proof.
  intros H. induction 1 as [|i m j Hedge _ IH]; [left; reflexivity|].
  right.
  assert (E : cc i = cc m /\ cc i <> -1).
  { destruct Hedge as [E|E]; apply H in E; destruct E as [E1 E2];
      split; congruence. }
  destruct IH as [->|[E1 E2]]; [assumption|]. split; [|tauto].
  destruct E. congruence.
Qed.

End Connectivity.

(** ** The initial state *)

Ltac break :=
  repeat match goal with
  | |- context [Nat.eqb ?x ?y] => destruct (Nat.eqb_spec x y)
  | |- context [Nat.ltb ?x ?y] => destruct (Nat.ltb_spec x y)
  | |- context [Z.eqb ?x ?y] => destruct (Z.eqb_spec x y)
  | |- context [Z.ltb ?x ?y] => destruct (Z.ltb_spec x y)
  end; simpl.

Section Initial.

Variable p : OrderProblem.

Lemma init_sound : sound (init p).
Proof.
  constructor; simpl; try reflexivity; try discriminate; try lia.
  intros i _. unfold touching. symmetry. apply vsum_zero. reflexivity.
Qed.

Lemma init_labelled : labelled (init p).
Proof.
  constructor; simpl; try discriminate; tauto.
Qed.

Lemma init_open : open (init p).
Proof.
  constructor; simpl.
  - intros i j. unfold feasible_rule, upper. simpl.
    rewrite !andb_true_r. reflexivity.
  - intros i _ H. contradiction.
Qed.

Lemma init_stage v : stage v (init p).
Proof.
  apply stage_open; auto using init_sound, init_labelled, init_open.
  simpl. intros H. apply gany_true. exists 0%nat, 1%nat.
  unfold upper. repeat split; try lia. break; try reflexivity; lia.
Qed.

End Initial.

(** ** Committing an edge: lines 138-147 *)

Lemma bind_normal o (g k : OrderSolution -> outcome) s :
  bind o g = Normal s -> bind o (fun x => bind (g x) k) = k s.
Proof.
  destruct o; simpl; intros H; [rewrite H; reflexivity|discriminate].
Qed.

Lemma bump_ok node t :
  node_degrees t node < 2 ->
  exists t',
    bump node t = Normal t'
    /\ problem t' = problem t
    /\ dimension t' = dimension t
    /\ edges_added t' = edges_added t
    /\ connected_component t' = connected_component t
    /\ valid_edges t' = valid_edges t
    /\ complete t' = complete t
    /\ (forall k, node_degrees t' k
                  = node_degrees t k + b2z (Nat.eqb k node))
    /\ (forall i j,
          feasible_edges t' i j
          = feasible_edges t i j
            && negb ((node_degrees t node =? 1)
                     && (Nat.eqb i node || Nat.eqb j node))).
Proof.
  intros H. unfold bump, assert_.
  destruct (Z.ltb_spec (node_degrees t node) 2) as [_|]; [|lia].
  cbn [node_degrees with_degrees]. unfold vset at 1. rewrite Nat.eqb_refl.
  destruct (Z.eqb_spec (node_degrees t node + 1) 2) as [E|E];
    eexists; (split; [reflexivity|]); simpl;
    repeat (split; [reflexivity|]); split.
  all: try (intros k; unfold vset; break; subst; simpl; lia).
  all: intros i j; unfold clear_col, clear_row;
    destruct (feasible_edges t i j); break; subst;
    try reflexivity; try lia; try congruence.
Qed.

Section Commit.

Variable s : OrderSolution.
Variables a b : nat.
Let d := node_degrees s.

Hypothesis Ha : d a < 2.
Hypothesis Hb : d b < 2.
Hypothesis Hab : a <> b.

Let s0 :=
  with_edges (with_feasible s (gset (feasible_edges s) a b false))
    (gset (edges_added s) a b true).

Lemma bumps_ok :
  exists s2,
    bind (bump a s0) (fun s1 => bump b s1) = Normal s2
    /\ problem s2 = problem s
    /\ dimension s2 = dimension s
    /\ edges_added s2 = gset (edges_added s) a b true
    /\ connected_component s2 = connected_component s
    /\ valid_edges s2 = valid_edges s
    /\ complete s2 = complete s
    /\ (forall k, node_degrees s2 k
                  = d k + b2z (Nat.eqb k a) + b2z (Nat.eqb k b))
    /\ (forall i j,
          feasible_edges s2 i j
          = feasible_edges s i j
            && negb (Nat.eqb i a && Nat.eqb j b)
            && negb ((d a =? 1) && (Nat.eqb i a || Nat.eqb j a))
            && negb ((d b =? 1) && (Nat.eqb i b || Nat.eqb j b))).
Proof.
  destruct (bump_ok a s0 Ha)
    as (s1 & R1 & P1 & N1 & E1 & C1 & V1 & K1 & D1 & F1).
  assert (Hb1 : node_degrees s1 b < 2).
  { rewrite D1. simpl. fold d. destruct (Nat.eqb_spec b a); simpl; [congruence|lia]. }
  destruct (bump_ok b s1 Hb1)
    as (s2 & R2 & P2 & N2 & E2 & C2 & V2 & K2 & D2 & F2).
  exists s2. rewrite R1. simpl. split; [assumption|].
  unfold s0 in *. simpl in *.
  do 6 (split; [congruence|]). split.
  - intros k. rewrite D2, D1. reflexivity.
  - intros i j. rewrite F2, F1, D1. simpl. fold d.
    replace (d b + b2z (Nat.eqb b a)) with (d b)
      by (destruct (Nat.eqb_spec b a); simpl; [congruence|lia]).
    unfold gset. destruct (feasible_edges s i j); break; reflexivity.
Qed.

End Commit.

(** ** The connectivity update: lines 157-188 *)

Section Join.

Variable t : OrderSolution.
Variables a b : nat.
Let cc := connected_component t.

Hypothesis Hab : (a < b < dimension t)%nat.
Hypothesis Hapart : cc a = -1 \/ cc a <> cc b.
Hypothesis Hsep : forall i j,
  feasible_edges t i j = true ->
  (i < j)%nat /\ ~ (i = a /\ j = b) /\ (cc i = -1 \/ cc i <> cc j).

Lemma join_ok :
  exists t3,
    join_components a b t = Normal t3
    /\ problem t3 = problem t
    /\ dimension t3 = dimension t
    /\ edges_added t3 = edges_added t
    /\ node_degrees t3 = node_degrees t
    /\ valid_edges t3 = valid_edges t
    /\ complete t3 = complete t
    /\ (forall k, connected_component t3 k
                  = if joined t a b k then new_label t a b else cc k)
    /\ (forall i j,
          feasible_edges t3 i j
          = feasible_edges t i j
            && negb (joined t a b i && joined t a b j)).
Proof.
  unfold join_components, assert_.
  assert (Hlabel : forall k, joined t a b k = true -> k <> a -> k <> b ->
                             cc k <> -1 /\ (cc k = cc a \/ cc k = cc b)).
  { intros k J Ka Kb. unfold joined in J. fold cc in J.
    revert J. break; intros; try discriminate; lia. }
  assert (Ja : joined t a b a = true).
  { unfold joined. apply andb_true_iff. split; [apply Nat.ltb_lt; lia|].
    rewrite Nat.eqb_refl. reflexivity. }
  assert (Jb : joined t a b b = true).
  { unfold joined. apply andb_true_iff. split; [apply Nat.ltb_lt; lia|].
    rewrite Nat.eqb_refl, orb_true_r. reflexivity. }
  fold cc.
  destruct (Z.eqb_spec (cc a) (-1)) as [Ea|Ea];
    destruct (Z.eqb_spec (cc b) (-1)) as [Eb|Eb]; simpl.
  - (* two isolated nodes *)
    eexists. split; [reflexivity|]. simpl.
    do 6 (split; [reflexivity|]). split.
    + intros k. unfold vset, joined, new_label. fold cc.
      break; subst; try lia; try reflexivity.
    + intros i j. destruct (feasible_edges t i j) eqn:F; [|reflexivity].
      apply Hsep in F.
      destruct (joined t a b i) eqn:Ji; [|reflexivity].
      destruct (joined t a b j) eqn:Jj; [|reflexivity]. exfalso.
      destruct (Nat.eq_dec i a); destruct (Nat.eq_dec i b);
        destruct (Nat.eq_dec j a); destruct (Nat.eq_dec j b);
        try lia;
        first [ destruct (Hlabel i Ji) as [? [?|?]]; [assumption..|lia|lia]
              | destruct (Hlabel j Jj) as [? [?|?]]; [assumption..|lia|lia] ].
  - (* a joins the component of b *)
    destruct (Z.eqb_spec (cc b) (-1)) as [|_]; [contradiction|]. simpl.
    eexists. split; [reflexivity|]. simpl.
    assert (M : forall k,
               in_component (with_component t (vset cc a (cc b))) (cc b) k
               = joined t a b k).
    { intros k. unfold in_component, joined, vset. simpl. fold cc.
      break; subst; try lia; try reflexivity. }
    do 6 (split; [reflexivity|]). split.
    + intros k. unfold vset, joined, new_label. fold cc.
      break; subst; try lia; try reflexivity.
    + intros i j. rewrite !M.
      destruct (joined t a b i) eqn:Ji; destruct (joined t a b j) eqn:Jj;
        destruct (Nat.eqb_spec i a); destruct (Nat.eqb_spec j a);
        simpl; rewrite ?andb_true_r, ?andb_false_r; try reflexivity;
        try (subst; congruence).
      destruct (feasible_edges t i j) eqn:F; [|reflexivity].
      apply Hsep in F. exfalso.
      destruct (Nat.eq_dec i b); destruct (Nat.eq_dec j b); try lia;
        try (subst; destruct (Hlabel j Jj) as [? [?|?]];
             [assumption..|lia|lia]);
        try (subst; destruct (Hlabel i Ji) as [? [?|?]];
             [assumption..|lia|lia]).
      destruct (Hlabel i Ji) as [? [?|?]]; try assumption; try lia.
      destruct (Hlabel j Jj) as [? [?|?]]; try assumption; lia.
  - (* b joins the component of a *)
    destruct (Z.eqb_spec (cc a) (-1)) as [|_]; [contradiction|]. simpl.
    eexists. split; [reflexivity|]. simpl.
    assert (M : forall k,
               in_component (with_component t (vset cc b (cc a))) (cc a) k
               = joined t a b k).
    { intros k. unfold in_component, joined, vset. simpl. fold cc.
      break; subst; try lia; try reflexivity. }
    do 6 (split; [reflexivity|]). split.
    + intros k. unfold vset, joined, new_label. fold cc.
      break; subst; try lia; try reflexivity.
    + intros i j. rewrite !M.
      destruct (joined t a b i) eqn:Ji; destruct (joined t a b j) eqn:Jj;
        destruct (Nat.eqb_spec i b); destruct (Nat.eqb_spec j b);
        simpl; rewrite ?andb_true_r, ?andb_false_r; try reflexivity;
        try (subst; congruence).
      destruct (feasible_edges t i j) eqn:F; [|reflexivity].
      apply Hsep in F. exfalso.
      destruct (Nat.eq_dec i a); destruct (Nat.eq_dec j a); try lia;
        try (subst; destruct (Hlabel j Jj) as [? [?|?]];
             [assumption..|lia|lia]);
        try (subst; destruct (Hlabel i Ji) as [? [?|?]];
             [assumption..|lia|lia]).
      destruct (Hlabel i Ji) as [? [?|?]]; try assumption; try lia.
      destruct (Hlabel j Jj) as [? [?|?]]; try assumption; lia.
  - (* two components merge *)
    destruct (Z.eqb_spec (cc a) (cc b)) as [|_]; [lia|]. simpl.
    eexists. split; [reflexivity|]. simpl.
    assert (M : forall k,
               in_component
                 (with_component t
                    (fun i => if in_component t (cc b) i
                              then cc a else cc i)) (cc a) k
               = joined t a b k).
    { intros k. unfold in_component, joined. simpl. fold cc.
      destruct (Nat.ltb_spec k (dimension t)); simpl; [|reflexivity].
      destruct (Z.eqb_spec (cc k) (cc b)), (Z.eqb_spec (cc k) (cc a)),
        (Nat.eqb_spec k a), (Nat.eqb_spec k b); simpl;
        rewrite ?Z.eqb_refl; subst; try reflexivity; try lia;
        try congruence. }
    do 6 (split; [reflexivity|]). split.
    + intros k. unfold in_component, joined, new_label. fold cc.
      break; subst; try lia; try reflexivity.
    + intros i j. rewrite !M.
      destruct (joined t a b i && joined t a b j);
        rewrite ?andb_true_r, ?andb_false_r; reflexivity.
Qed.

End Join.

(** ** Reading the invariants *)

Lemma feasible_rule_true s i j :
  feasible_rule s i j = true <->
  (i < j < dimension s)%nat
  /\ node_degrees s i < 2 /\ node_degrees s j < 2
  /\ (connected_component s i = -1
      \/ connected_component s i <> connected_component s j).
Proof.
  unfold feasible_rule. rewrite !andb_true_iff, orb_true_iff, negb_true_iff.
  rewrite !Nat.ltb_lt, !Z.ltb_lt, Z.eqb_eq, Z.eqb_neq. tauto.
Qed.

Lemma joined_true s a b k :
  joined s a b k = true <->
  (k < dimension s)%nat
  /\ (k = a \/ k = b
      \/ (connected_component s a <> -1
          /\ connected_component s k = connected_component s a)
      \/ (connected_component s b <> -1
          /\ connected_component s k = connected_component s b)).
Proof.
  unfold joined.
  rewrite !andb_true_iff, !orb_true_iff, !andb_true_iff, !negb_true_iff.
  rewrite Nat.ltb_lt, !Nat.eqb_eq, !Z.eqb_eq, !Z.eqb_neq. tauto.
Qed.

(** The bookkeeping of edges and degrees does not look at the labels, the
    feasible set or the completion flag. *)
Lemma sound_transfer s s' :
  problem s' = problem s -> dimension s' = dimension s ->
  edges_added s' = edges_added s -> node_degrees s' = node_degrees s ->
  valid_edges s' = valid_edges s ->
  sound s -> sound s'.
Proof.
  intros P N E D V [H1 H2 H3 H4 H5].
  constructor; rewrite ?P, ?N, ?E, ?D, ?V; assumption.
Qed.

Lemma labelled_transfer s s' :
  dimension s' = dimension s ->
  edges_added s' = edges_added s -> node_degrees s' = node_degrees s ->
  connected_component s' = connected_component s ->
  labelled s -> labelled s'.
Proof.
  intros N E D C [H1 H2 H3 H4].
  constructor; rewrite ?N, ?E, ?D, ?C; assumption.
Qed.

Lemma sound_validity s : sound s -> validity_holds s = true.
Proof.
  intros H. unfold validity_holds. apply Z.eqb_eq. apply gcount_subset.
  intros i j _ _ E. rewrite (snd_valid s H).
  apply (snd_edges s H) in E. unfold upper.
  apply andb_true_iff. rewrite !Nat.ltb_lt. lia.
Qed.

Lemma sound_handshake s :
  sound s ->
  vsum (dimension s) (node_degrees s)
  = 2 * gcount (dimension s) (edges_added s).
Proof.
  intros H. rewrite <- touching_total. apply vsum_ext.
  apply (snd_degree s H).
Qed.

(** Committed edges link their nodes, so the labels of connected nodes
    agree. *)
Lemma labelled_connected s i j :
  labelled s -> connected (edges_added s) i j ->
  i = j \/ (connected_component s i = connected_component s j
            /\ connected_component s i <> -1).
Proof.
  intros H. apply connected_label. apply (lab_edge s H).
Qed.

(** A node of an open structure that can take an edge is isolated or an
    end of its path; the other end of that path is free too. *)
Lemma free_end s x :
  sound s -> labelled s -> open s ->
  (x < dimension s)%nat -> node_degrees s x < 2 ->
  exists x',
    (x' < dimension s)%nat
    /\ (connected_component s x = -1 -> x' = x /\ node_degrees s x = 0)
    /\ (connected_component s x <> -1 ->
        x' <> x
        /\ connected_component s x' = connected_component s x
        /\ node_degrees s x' = 1 /\ node_degrees s x = 1
        /\ forall m, (m < dimension s)%nat ->
             connected_component s m = connected_component s x ->
             m <> x -> m <> x' -> node_degrees s m = 2).
Proof.
  intros Hs Hl Ho Hx Hd.
  destruct (Z.eq_dec (connected_component s x) (-1)) as [E|E].
  - exists x. split; [assumption|]. split; [|contradiction].
    intros _. split; [reflexivity|]. apply (lab_free s Hl); assumption.
  - destruct (opn_ends s Ho x Hx E)
      as (e1 & e2 & H1 & H2 & Hne & C1 & C2 & D1 & D2 & Hrest).
    assert (D0 : node_degrees s x <> 0)
      by (intros D0; apply E, (lab_free s Hl); assumption).
    pose proof (snd_range s Hs x) as R.
    assert (Dx : node_degrees s x = 1) by lia.
    destruct (Nat.eq_dec x e1) as [->|N1].
    + exists e2. split; [assumption|]. split; [contradiction|]. intros _.
      repeat split; auto.
    + destruct (Nat.eq_dec x e2) as [->|N2].
      * exists e1. split; [assumption|]. split; [contradiction|]. intros _.
        repeat split; auto.
      * specialize (Hrest x Hx eq_refl N1 N2). lia.
Qed.

(** ** The bookkeeping after lines 138-147 *)

Section Bookkeeping.

Variable s : OrderSolution.
Variables a b : nat.
Let n := dimension s.
Let d := node_degrees s.
Let e := edges_added s.

Hypothesis Hs : sound s.
Hypothesis Hab : (a < b < n)%nat.
Hypothesis Ha : d a < 2.
Hypothesis Hb : d b < 2.
Hypothesis Fab : e a b = false.

Variable s2 : OrderSolution.
Hypothesis P2 : problem s2 = problem s.
Hypothesis N2 : dimension s2 = n.
Hypothesis E2 : edges_added s2 = gset e a b true.
Hypothesis V2 : valid_edges s2 = valid_edges s.
Hypothesis D2 : forall k,
  node_degrees s2 k = d k + b2z (Nat.eqb k a) + b2z (Nat.eqb k b).

Lemma commit_sound : sound s2.
Proof.
  assert (Fba : e b a = false).
  { destruct (e b a) eqn:E; [|reflexivity].
    apply (snd_edges s Hs) in E. lia. }
  constructor.
  - rewrite N2, P2. apply (snd_dimension s Hs).
  - intros i j. rewrite V2, N2. apply (snd_valid s Hs).
  - intros i j. rewrite E2, N2. unfold gset.
    destruct (Nat.eqb_spec i a); destruct (Nat.eqb_spec j b);
      simpl; intros H; try (apply (snd_edges s Hs) in H; exact H).
    subst. lia.
  - intros i Hi. rewrite N2 in Hi. rewrite N2, E2, D2.
    rewrite touching_gset_true by (try assumption; lia).
    unfold d. rewrite (snd_degree s Hs i Hi). reflexivity.
  - intros k. rewrite D2. pose proof (snd_range s Hs k) as R. fold d in R.
    destruct (Nat.eqb_spec k a); destruct (Nat.eqb_spec k b);
      simpl; subst; lia.
Qed.

Lemma commit_count :
  gcount (dimension s2) (edges_added s2) = gcount n e + 1.
Proof. rewrite N2, E2. apply gcount_gset_true; try assumption; lia. Qed.

End Bookkeeping.

(** ** One call on an open structure *)

(** Two nodes whose labels differ are different nodes. *)
Ltac apart :=
  first [ intros -> | intros [-> _] | intros [_ ->] | intros _; split ];
  try assumption; try congruence; try (intros ->; congruence).

Section Step.

Variable s : OrderSolution.
Variables a b : nat.
Let n := dimension s.
Let d := node_degrees s.
Let cc := connected_component s.
Let e := edges_added s.

Hypothesis Hs : sound s.
Hypothesis Hl : labelled s.
Hypothesis Ho : open s.
Hypothesis Hfeas : feasible_edges s a b = true.

Lemma step_pair :
  (a < b < n)%nat /\ d a < 2 /\ d b < 2 /\ (cc a = -1 \/ cc a <> cc b).
Proof.
  rewrite (opn_feasible s Ho) in Hfeas.
  apply feasible_rule_true in Hfeas. exact Hfeas.
Qed.

Lemma step_fresh : e a b = false /\ e b a = false.
Proof.
  destruct step_pair as (Hab & _ & _ & Hcc). split.
  - destruct (e a b) eqn:E; [|reflexivity].
    apply (lab_edge s Hl) in E. fold cc in E. lia.
  - destruct (e b a) eqn:E; [|reflexivity].
    apply (snd_edges s Hs) in E. lia.
Qed.

(** The state after lines 138-147. *)
Variable s2 : OrderSolution.
Hypothesis P2 : problem s2 = problem s.
Hypothesis N2 : dimension s2 = n.
Hypothesis E2 : edges_added s2 = gset e a b true.
Hypothesis C2 : connected_component s2 = cc.
Hypothesis V2 : valid_edges s2 = valid_edges s.
Hypothesis D2 : forall k,
  node_degrees s2 k = d k + b2z (Nat.eqb k a) + b2z (Nat.eqb k b).
Hypothesis F2 : forall i j,
  feasible_edges s2 i j
  = feasible_edges s i j
    && negb (Nat.eqb i a && Nat.eqb j b)
    && negb ((d a =? 1) && (Nat.eqb i a || Nat.eqb j a))
    && negb ((d b =? 1) && (Nat.eqb i b || Nat.eqb j b)).

Lemma s2_degree_other k : k <> a -> k <> b -> node_degrees s2 k = d k.
Proof.
  intros Ha Hb. rewrite D2.
  destruct (Nat.eqb_spec k a); [contradiction|].
  destruct (Nat.eqb_spec k b); [contradiction|]. simpl. lia.
Qed.

Lemma s2_degree_a : node_degrees s2 a = d a + 1.
Proof.
  destruct step_pair as (Hab & _). rewrite D2, Nat.eqb_refl.
  destruct (Nat.eqb_spec a b); [lia|]. simpl. lia.
Qed.

Lemma s2_degree_b : node_degrees s2 b = d b + 1.
Proof.
  destruct step_pair as (Hab & _). rewrite D2, Nat.eqb_refl.
  destruct (Nat.eqb_spec b a); [lia|]. simpl. lia.
Qed.

Lemma s2_sound : sound s2.
Proof.
  destruct step_pair as (Hab & Ha & Hb & _).
  destruct step_fresh as (Fab & Fba).
  apply (commit_sound s a b); assumption.
Qed.

Lemma s2_feasible_true i j :
  feasible_edges s2 i j = true <->
  (i < j < n)%nat /\ d i < 2 /\ d j < 2 /\ (cc i = -1 \/ cc i <> cc j)
  /\ ~ (i = a /\ j = b)
  /\ (d a = 1 -> i <> a /\ j <> a)
  /\ (d b = 1 -> i <> b /\ j <> b).
Proof.
  rewrite F2, (opn_feasible s Ho), !andb_true_iff, feasible_rule_true.
  rewrite !negb_true_iff, !andb_false_iff, !orb_false_iff.
  rewrite !Nat.eqb_neq, !Z.eqb_neq. fold n d cc. lia.
Qed.

(** A pair of free nodes from the two sides survives lines 138-147. *)
Lemma s2_survivor x y :
  (x < n)%nat -> (y < n)%nat -> x <> y ->
  d x < 2 -> d y < 2 ->
  cc x = -1 \/ cc y = -1 \/ cc x <> cc y ->
  ~ (x = a /\ y = b) -> ~ (x = b /\ y = a) ->
  (d a = 1 -> x <> a /\ y <> a) ->
  (d b = 1 -> x <> b /\ y <> b) ->
  gany (dimension s2) (feasible_edges s2) = true.
Proof.
  intros Hx Hy Hxy Dx Dy Hcc Hab Hba Ha Hb.
  rewrite N2. apply gany_true.
  destruct (Nat.lt_ge_cases x y) as [L|L].
  - exists x, y. repeat split; try assumption.
    apply s2_feasible_true. repeat split; try assumption; try tauto; lia.
  - exists y, x. repeat split; try assumption.
    apply s2_feasible_true. repeat split; try assumption; try tauto; lia.
Qed.

Lemma s2_any :
  (3 <= n)%nat \/ cc a <> -1 \/ cc b <> -1 ->
  gany (dimension s2) (feasible_edges s2) = true.
Proof.
  intros Hn.
  destruct step_pair as (Hab & Ha & Hb & Hcc).
  destruct (free_end s a Hs Hl Ho ltac:(fold n; lia) Ha)
    as (a' & Ha' & Ia & Ja).
  destruct (free_end s b Hs Hl Ho ltac:(fold n; lia) Hb)
    as (b' & Hb' & Ib & Jb).
  fold n d cc in Ha', Hb', Ia, Ja, Ib, Jb.
  destruct (Z.eq_dec (cc a) (-1)) as [Ca|Ca];
    destruct (Z.eq_dec (cc b) (-1)) as [Cb|Cb].
  - (* both isolated: a third node, or an end of its path *)
    destruct Hn as [Hn|[Hn|Hn]]; try contradiction.
    destruct (Ia Ca) as (_ & Da). destruct (Ib Cb) as (_ & Db).
    assert (Hc : exists c, (c < n)%nat /\ c <> a /\ c <> b).
    { destruct (Nat.eq_dec a 0), (Nat.eq_dec b 0),
        (Nat.eq_dec a 1), (Nat.eq_dec b 1);
        first [exists 0%nat; lia | exists 1%nat; lia | exists 2%nat; lia]. }
    destruct Hc as (c & Hc & Hca & Hcb).
    destruct (Z.eq_dec (cc c) (-1)) as [Cc|Cc].
    + apply (s2_survivor a c); try lia.
      apply (lab_free s Hl) in Cc; [|assumption]. fold d in Cc. lia.
    + destruct (opn_ends s Ho c Hc Cc)
        as (e1 & _ & H1 & _ & _ & C1 & _ & D1 & _).
      fold n d cc in H1, C1, D1.
      apply (s2_survivor a e1); try lia; apart.
  - destruct (Ia Ca) as (-> & Da).
    destruct (Jb Cb) as (Nb & Cb' & Db' & Db & _).
    apply (s2_survivor a b'); try lia; apart.
  - destruct (Ib Cb) as (-> & Db).
    destruct (Ja Ca) as (Na & Ca' & Da' & Da & _).
    apply (s2_survivor a' b); try lia; apart.
  - destruct (Ja Ca) as (Na & Ca' & Da' & Da & _).
    destruct (Jb Cb) as (Nb & Cb' & Db' & Db & _).
    assert (cc a <> cc b) by lia.
    apply (s2_survivor a' b'); try lia; apart.
Qed.


(** The early return of line 155 is taken on an open structure only when
    the problem has two nodes. *)
Lemma s2_none :
  gany (dimension s2) (feasible_edges s2) = false ->
  pair_done (with_complete s2 true).
Proof.
  intros Hnone.
  destruct step_pair as (Hab & Ha & Hb & Hcc).
  destruct step_fresh as (Fab & Fba).
  assert (Hn : ~ ((3 <= n)%nat \/ cc a <> -1 \/ cc b <> -1)).
  { intros H. apply s2_any in H. congruence. }
  assert (Hn2 : n = 2%nat) by lia.
  assert (Ca : cc a = -1) by lia. assert (Cb : cc b = -1) by lia.
  assert (Ea : a = 0%nat) by lia. assert (Eb : b = 1%nat) by lia.
  assert (He : forall i j, e i j = false).
  { intros i j. destruct (e i j) eqn:E; [|reflexivity].
    pose proof (snd_edges s Hs i j E) as B. fold n in B.
    assert (i = 0%nat /\ j = 1%nat) as [-> ->] by lia.
    rewrite Ea, Eb in Fab. congruence. }
  assert (Hd : node_degrees s2 a = 1 /\ node_degrees s2 b = 1).
  { rewrite s2_degree_a, s2_degree_b.
    apply (lab_free s Hl) in Ca, Cb; fold n; try lia. fold d in Ca, Cb. lia. }
  constructor; simpl.
  - rewrite N2. assumption.
  - intros i j. rewrite E2, Ea, Eb. unfold gset. rewrite He.
    destruct (Nat.eqb i 0 && Nat.eqb j 1); reflexivity.
  - rewrite Ea, Eb in Hd. exact Hd.
  - intros k Hk. rewrite C2.
    destruct k as [|[|k]]; [congruence|congruence|lia].
  - intros i j. destruct (feasible_edges s2 i j) eqn:F; [|reflexivity].
    apply s2_feasible_true in F. lia.
  - reflexivity.
Qed.

(** The state after the connectivity update of lines 157-188. *)
Variable s3 : OrderSolution.
Hypothesis P3 : problem s3 = problem s.
Hypothesis N3 : dimension s3 = n.
Hypothesis E3 : edges_added s3 = gset e a b true.
Hypothesis D3 : node_degrees s3 = node_degrees s2.
Hypothesis V3 : valid_edges s3 = valid_edges s.
Hypothesis C3 : forall k,
  connected_component s3 k
  = if joined s a b k then new_label s a b else cc k.
Hypothesis F3 : forall i j,
  feasible_edges s3 i j
  = feasible_edges s2 i j && negb (joined s a b i && joined s a b j).

Let new := new_label s a b.

Lemma s3_sound : sound s3.
Proof.
  apply (sound_transfer s2); try congruence. apply s2_sound.
Qed.

Lemma joined_a : joined s a b a = true.
Proof.
  destruct step_pair as (Hab & _). apply joined_true. fold n. split; [lia|tauto].
Qed.

Lemma joined_b : joined s a b b = true.
Proof.
  destruct step_pair as (Hab & _). apply joined_true. fold n. split; [lia|tauto].
Qed.

Lemma new_assigned : new <> -1.
Proof.
  unfold new, new_label. fold cc.
  destruct (Z.eqb_spec (cc a) (-1)); [|assumption].
  destruct (Z.eqb_spec (cc b) (-1)); [lia|assumption].
Qed.

(** The label of the joined component is carried by no other node. *)
Lemma new_fresh k :
  (k < n)%nat -> joined s a b k = false -> cc k <> new.
Proof.
  intros Hk Hj Hc.
  assert (J : joined s a b k = true); [|congruence].
  apply joined_true. fold n cc. split; [assumption|].
  unfold new, new_label in Hc. fold cc in Hc.
  destruct (Z.eqb_spec (cc a) (-1)) as [Ca|Ca]; [|tauto].
  destruct (Z.eqb_spec (cc b) (-1)) as [Cb|Cb]; [|tauto].
  exfalso.
  assert (Ck : cc k <> -1) by lia.
  destruct (lab_root s Hl k Hk Ck) as (r & Hr & R1 & R2).
  fold cc in R1, R2.
  assert (r = a) by lia. subst r. lia.
Qed.

Lemma joined_other k :
  joined s a b k = true -> k <> a -> k <> b ->
  (k < n)%nat /\ cc k <> -1 /\ (cc k = cc a \/ cc k = cc b).
Proof.
  intros J Ka Kb. apply joined_true in J. fold n cc in J.
  destruct J as (Hk & [?|[?|[[? ?]|[? ?]]]]); try contradiction;
    repeat split; try assumption; try lia.
Qed.

Lemma joined_same i j :
  (i < n)%nat -> (j < n)%nat -> cc i <> -1 -> cc i = cc j ->
  joined s a b i = true -> joined s a b j = true.
Proof.
  intros Hi Hj Ci Cij J. apply joined_true in J. apply joined_true.
  fold n cc in J. fold n cc. split; [assumption|].
  destruct J as (_ & [->|[->|[[? ?]|[? ?]]]]).
  - right. right. left. split; congruence.
  - right. right. right. split; congruence.
  - right. right. left. split; congruence.
  - right. right. right. split; congruence.
Qed.

Lemma joined_connected k :
  joined s a b k = true -> connected (edges_added s3) k a.
Proof.
  intros J. destruct step_pair as (Hab & _).
  assert (Hmono : forall x y, connected e x y ->
                              connected (edges_added s3) x y).
  { intros x y. apply connected_mono. intros u w H. rewrite E3.
    unfold gset. destruct (Nat.eqb u a && Nat.eqb w b); [reflexivity|].
    assumption. }
  assert (Hba : connected (edges_added s3) b a).
  { apply connected_edge. right. rewrite E3. unfold gset.
    rewrite !Nat.eqb_refl. reflexivity. }
  apply joined_true in J. fold n cc in J.
  destruct J as (Hk & [->|[->|[[Ca Ck]|[Cb Ck]]]]).
  - apply conn_refl.
  - assumption.
  - apply Hmono. apply (lab_conn s Hl); fold n cc; try lia; congruence.
  - apply connected_trans with b; [|assumption].
    apply Hmono. apply (lab_conn s Hl); fold n cc; try lia; congruence.
Qed.

Lemma s3_label_joined k :
  joined s a b k = true -> connected_component s3 k = new.
Proof. intros J. rewrite C3, J. reflexivity. Qed.

Lemma s3_label_other k :
  joined s a b k = false -> connected_component s3 k = cc k.
Proof. intros J. rewrite C3, J. reflexivity. Qed.

Lemma s3_degree_other k :
  joined s a b k = false -> node_degrees s3 k = d k.
Proof.
  intros J. rewrite D3. apply s2_degree_other; intros ->.
  - rewrite joined_a in J. discriminate.
  - rewrite joined_b in J. discriminate.
Qed.

Lemma s3_labelled : labelled s3.
Proof.
  destruct step_pair as (Hab & Ha & Hb & Hcc).
  pose proof new_assigned as Hnew.
  constructor; rewrite ?N3.
  - (* unassigned exactly when isolated *)
    intros k Hk. destruct (joined s a b k) eqn:J.
    + rewrite (s3_label_joined k J), D3.
      pose proof (snd_range s Hs k) as R. fold d in R.
      destruct (Nat.eq_dec k a) as [->|Ka]; [rewrite s2_degree_a; lia|].
      destruct (Nat.eq_dec k b) as [->|Kb]; [rewrite s2_degree_b; lia|].
      rewrite s2_degree_other by assumption.
      destruct (joined_other k J Ka Kb) as (_ & Ck & _).
      pose proof (lab_free s Hl k Hk) as L. fold cc d in L. tauto.
    + rewrite (s3_label_other k J), (s3_degree_other k J).
      apply (lab_free s Hl k Hk).
  - (* every label is the index of a node that carries it *)
    intros k Hk Ck. destruct (joined s a b k) eqn:J.
    + rewrite (s3_label_joined k J).
      assert (R : exists r, (r < n)%nat /\ new = Z.of_nat r
                            /\ joined s a b r = true).
      { unfold new, new_label. fold cc.
        destruct (Z.eqb_spec (cc a) (-1)) as [Ca|Ca].
        - destruct (Z.eqb_spec (cc b) (-1)) as [Cb|Cb].
          + exists a. repeat split; try lia; apply joined_a.
          + destruct (lab_root s Hl b ltac:(fold n; lia) Cb)
              as (r & Hr & R1 & R2). fold cc in R1, R2.
            exists r. repeat split; try assumption.
            apply (joined_same b r); try assumption; try lia;
              try congruence; apply joined_b.
        - destruct (lab_root s Hl a ltac:(fold n; lia) Ca)
            as (r & Hr & R1 & R2). fold cc in R1, R2.
          exists r. repeat split; try assumption.
          apply (joined_same a r); try assumption; try lia;
            try congruence; apply joined_a. }
      destruct R as (r & Hr & R1 & R2). exists r.
      rewrite (s3_label_joined r R2). auto.
    + rewrite (s3_label_other k J) in *.
      destruct (lab_root s Hl k Hk Ck) as (r & Hr & R1 & R2).
      fold cc in R1, R2. exists r. repeat split; try assumption.
      rewrite s3_label_other; [assumption|].
      destruct (joined s a b r) eqn:Jr; [|reflexivity].
      rewrite <- J. symmetry.
      apply (joined_same r k); try assumption; congruence.
  - (* an edge keeps its two nodes under one label *)
    intros i j. rewrite E3. unfold gset.
    destruct (Nat.eqb_spec i a) as [Ei|Ei];
      destruct (Nat.eqb_spec j b) as [Ej|Ej]; simpl; intros H.
    1: { subst. rewrite !s3_label_joined by (apply joined_a || apply joined_b).
         auto. }
    all: pose proof (snd_edges s Hs i j H) as B; fold n in B;
      destruct (lab_edge s Hl i j H) as (Cij & Ci); fold cc in Cij, Ci;
      destruct (joined s a b i) eqn:Ji.
    all: try (rewrite (s3_label_joined i Ji), s3_label_joined;
              [auto|apply (joined_same i j); try assumption; lia]).
    all: assert (Jj : joined s a b j = false)
      by (destruct (joined s a b j) eqn:Jj; [|reflexivity];
          rewrite <- Ji; symmetry; apply (joined_same j i); try assumption;
          try lia; congruence);
      rewrite (s3_label_other i Ji), (s3_label_other j Jj); auto.
  - (* nodes under one label are linked *)
    intros i j Hi Hj Ci Cij.
    destruct (joined s a b i) eqn:Ji; destruct (joined s a b j) eqn:Jj.
    + apply connected_trans with a; [apply joined_connected; assumption|].
      apply connected_sym, joined_connected; assumption.
    + rewrite (s3_label_joined i Ji), (s3_label_other j Jj) in Cij.
      exfalso. apply (new_fresh j Hj Jj). congruence.
    + rewrite (s3_label_other i Ji), (s3_label_joined j Jj) in Cij.
      exfalso. apply (new_fresh i Hi Ji). congruence.
    + rewrite (s3_label_other i Ji) in Ci, Cij.
      rewrite (s3_label_other j Jj) in Cij.
      apply connected_mono with e.
      * intros u w H. rewrite E3. unfold gset.
        destruct (Nat.eqb u a && Nat.eqb w b); [reflexivity|assumption].
      * apply (lab_conn s Hl); assumption.
Qed.

(** What the update leaves at one node. *)
Lemma s3_node x :
  (x < n)%nat ->
  (joined s a b x = true
   /\ connected_component s3 x = new
   /\ (x = a \/ x = b
       \/ (x <> a /\ x <> b /\ cc x <> -1 /\ node_degrees s3 x = d x
           /\ ((cc a <> -1 /\ cc x = cc a) \/ (cc b <> -1 /\ cc x = cc b)))))
  \/ (joined s a b x = false
      /\ connected_component s3 x = cc x
      /\ node_degrees s3 x = d x
      /\ cc x <> new /\ x <> a /\ x <> b
      /\ (cc a <> -1 -> cc x <> cc a)
      /\ (cc b <> -1 -> cc x <> cc b)).
Proof.
  intros Hx. destruct (joined s a b x) eqn:J; [left|right].
  - split; [reflexivity|]. split; [apply s3_label_joined; assumption|].
    destruct (Nat.eq_dec x a) as [|Ka]; [tauto|].
    destruct (Nat.eq_dec x b) as [|Kb]; [tauto|].
    right. right. rewrite D3, s2_degree_other by assumption.
    apply joined_true in J. fold n cc in J.
    destruct J as (_ & [?|[?|[[? ?]|[? ?]]]]); try contradiction;
      repeat split; try assumption; try lia; tauto.
  - split; [reflexivity|]. split; [apply s3_label_other; assumption|].
    split; [apply s3_degree_other; assumption|].
    split; [apply new_fresh; assumption|].
    assert (Ka : x <> a) by (intros ->; rewrite joined_a in J; discriminate).
    assert (Kb : x <> b) by (intros ->; rewrite joined_b in J; discriminate).
    do 2 (split; [assumption|]).
    split; intros C E; assert (joined s a b x = true) as J'; try congruence;
      apply joined_true; fold n cc; split; try assumption; tauto.
Qed.

(** A node can take another edge after the call when it could before and
    the call has not brought it to degree 2. *)
Lemma s3_free x :
  node_degrees s3 x < 2 <->
  d x < 2 /\ (d a = 1 -> x <> a) /\ (d b = 1 -> x <> b).
Proof.
  destruct step_pair as (Hab & Ha & Hb & _).
  pose proof (snd_range s Hs x) as Rx. fold d in Rx.
  rewrite D3, D2.
  destruct (Nat.eqb_spec x a) as [Ea|Ea];
    destruct (Nat.eqb_spec x b) as [Eb|Eb]; simpl.
  - lia.
  - rewrite Ea in *. clear - Rx Ha Hab Eb. lia.
  - rewrite Eb in *. clear - Rx Hb Hab Ea. lia.
  - clear - Rx Ea Eb. lia.
Qed.

(** Two nodes that the call has not brought under one label are apart
    after it exactly when they were apart before it. *)
Lemma s3_apart i j :
  (i < n)%nat -> (j < n)%nat ->
  joined s a b i && joined s a b j = false ->
  (connected_component s3 i = -1
   \/ connected_component s3 i <> connected_component s3 j)
  <-> (cc i = -1 \/ cc i <> cc j).
Proof.
  intros Hi Hj J. pose proof new_assigned as Hnew.
  destruct (s3_node i Hi)
    as [(Ji & Ci & Ki)|(Ji & Ci & _ & Fi & Ia & Ib & Ai & Bi)];
    destruct (s3_node j Hj)
      as [(Jj & Cj & Kj)|(Jj & Cj & _ & Fj & Ja & Jb & Aj & Bj)];
    rewrite Ji, Jj in J; try discriminate; rewrite Ci, Cj; clear J.
  - (* i is on the joined path, j is not *)
    split; intros _; [|right; congruence].
    destruct Ki as [->|[->|(_ & _ & Ci' & _ & [[Ca E]|[Cb E]])]].
    + destruct (Z.eq_dec (cc a) (-1)); [left; assumption|].
      right. intros E. apply Aj; congruence.
    + destruct (Z.eq_dec (cc b) (-1)); [left; assumption|].
      right. intros E. apply Bj; congruence.
    + right. intros E'. apply Aj; congruence.
    + right. intros E'. apply Bj; congruence.
  - (* j is on the joined path, i is not *)
    split; intros _; [|right; congruence].
    destruct (Z.eq_dec (cc i) (-1)) as [|Ni]; [left; assumption|]. right.
    destruct Kj as [->|[->|(_ & _ & Cj' & _ & [[Ca E]|[Cb E]])]].
    + destruct (Z.eq_dec (cc a) (-1)); [congruence|]. apply Ai. assumption.
    + destruct (Z.eq_dec (cc b) (-1)); [congruence|]. apply Bi. assumption.
    + rewrite E. apply Ai. assumption.
    + rewrite E. apply Bi. assumption.
  - reflexivity.
Qed.

Lemma s3_together i j :
  (i < n)%nat -> (j < n)%nat ->
  joined s a b i = true -> joined s a b j = true ->
  ~ (connected_component s3 i = -1
     \/ connected_component s3 i <> connected_component s3 j).
Proof.
  intros Hi Hj Ji Jj. pose proof new_assigned as Hnew.
  rewrite !s3_label_joined by assumption. tauto.
Qed.

Lemma s3_open_feasible i j :
  feasible_edges s3 i j = feasible_rule s3 i j.
Proof.
  destruct step_pair as (Hab & _).
  apply eq_iff_eq_true.
  rewrite F3, andb_true_iff, s2_feasible_true, negb_true_iff.
  rewrite feasible_rule_true, N3, !s3_free.
  split.
  - intros [(Hlt & Di & Dj & Hcc & Hne & Ha & Hb) J].
    split; [assumption|].
    split; [tauto|]. split; [tauto|].
    apply s3_apart; try assumption; lia.
  - intros (Hlt & (Di & Ai & Bi) & (Dj & Aj & Bj) & Hcc).
    assert (J : joined s a b i && joined s a b j = false).
    { destruct (joined s a b i) eqn:Ji; [|reflexivity].
      destruct (joined s a b j) eqn:Jj; [|reflexivity].
      exfalso. apply (s3_together i j); try assumption; lia. }
    split; [|assumption].
    split; [assumption|]. do 2 (split; [assumption|]).
    split; [apply (s3_apart i j); try assumption; lia|].
    split; [|tauto].
    intros [-> ->]. rewrite joined_a, joined_b in J. discriminate.
Qed.

Lemma s3_open_ends k :
  (k < n)%nat -> connected_component s3 k <> -1 ->
  exists e1 e2, path_ends s3 (connected_component s3 k) e1 e2.
Proof.
  intros Hk Ck. destruct step_pair as (Hab & Ha & Hb & Hcc).
  destruct (joined s a b k) eqn:J.
  - (* the joined path runs between the far ends of its two sides *)
    rewrite (s3_label_joined k J).
    destruct (free_end s a Hs Hl Ho ltac:(fold n; lia) Ha)
      as (a' & Ha' & Ia & Ja).
    destruct (free_end s b Hs Hl Ho ltac:(fold n; lia) Hb)
      as (b' & Hb' & Ib & Jb).
    fold n d cc in Ha', Hb', Ia, Ja, Ib, Jb.
    pose proof s2_degree_a as Da. pose proof s2_degree_b as Db.
    assert (Ja' : joined s a b a' = true).
    { destruct (Z.eq_dec (cc a) (-1)) as [C|C].
      - destruct (Ia C) as [-> _]. apply joined_a.
      - destruct (Ja C) as (_ & C' & _).
        apply (joined_same a a'); try assumption; try lia;
          try congruence; apply joined_a. }
    assert (Jb' : joined s a b b' = true).
    { destruct (Z.eq_dec (cc b) (-1)) as [C|C].
      - destruct (Ib C) as [-> _]. apply joined_b.
      - destruct (Jb C) as (_ & C' & _).
        apply (joined_same b b'); try assumption; try lia;
          try congruence; apply joined_b. }
    assert (Hne : a' <> b').
    { destruct (Z.eq_dec (cc a) (-1)) as [Xa|Xa];
        destruct (Z.eq_dec (cc b) (-1)) as [Xb|Xb].
      - destruct (Ia Xa) as [-> _]. destruct (Ib Xb) as [-> _]. lia.
      - destruct (Ia Xa) as [-> _]. destruct (Jb Xb) as (_ & C' & _).
        intros <-. congruence.
      - destruct (Ib Xb) as [-> _]. destruct (Ja Xa) as (_ & C' & _).
        intros ->. congruence.
      - destruct (Ja Xa) as (_ & C' & _). destruct (Jb Xb) as (_ & C'' & _).
        intros ->. lia. }
    assert (Da' : node_degrees s3 a' = 1).
    { rewrite D3. destruct (Z.eq_dec (cc a) (-1)) as [C|C].
      - destruct (Ia C) as [-> D0]. lia.
      - destruct (Ja C) as (N & C' & D' & _).
        rewrite s2_degree_other; [assumption|assumption|].
        intros ->. lia. }
    assert (Db' : node_degrees s3 b' = 1).
    { rewrite D3. destruct (Z.eq_dec (cc b) (-1)) as [C|C].
      - destruct (Ib C) as [-> D0]. lia.
      - destruct (Jb C) as (N & C' & D' & _).
        rewrite s2_degree_other; [assumption| |assumption].
        intros ->. lia. }
    exists a', b'. unfold path_ends. rewrite N3.
    rewrite !s3_label_joined by assumption.
    do 7 (split; [first [assumption|reflexivity]|]).
    intros m Hm Cm Ma Mb.
    destruct (s3_node m Hm) as [(Jm & _ & Hcase)|(Jm & Cm' & _ & Fm & _)];
      [|congruence].
    rewrite D3.
    destruct Hcase as [->|[->|(Na & Nb & C & _ & Side)]].
    + destruct (Z.eq_dec (cc a) (-1)) as [C|C].
      * destruct (Ia C) as [E _]. congruence.
      * destruct (Ja C) as (_ & _ & _ & D1 & _). lia.
    + destruct (Z.eq_dec (cc b) (-1)) as [C|C].
      * destruct (Ib C) as [E _]. congruence.
      * destruct (Jb C) as (_ & _ & _ & D1 & _). lia.
    + rewrite s2_degree_other by assumption.
      destruct Side as [[Xa E1]|[Xa E1]].
      * destruct (Ja Xa) as (_ & _ & _ & _ & R). apply R; assumption.
      * destruct (Jb Xa) as (_ & _ & _ & _ & R). apply R; assumption.
  - (* a path apart from the edge is as it was *)
    rewrite (s3_label_other k J) in *.
    destruct (opn_ends s Ho k Hk Ck)
      as (e1 & e2 & H1 & H2 & Hne & Xa & Xb & D1 & D2' & Hrest).
    fold n d cc in H1, H2, Xa, Xb, D1, D2', Hrest.
    assert (J1 : joined s a b e1 = false).
    { destruct (joined s a b e1) eqn:J1; [|reflexivity].
      rewrite <- J. symmetry.
      apply (joined_same e1 k); try assumption; congruence. }
    assert (J2 : joined s a b e2 = false).
    { destruct (joined s a b e2) eqn:J2; [|reflexivity].
      rewrite <- J. symmetry.
      apply (joined_same e2 k); try assumption; congruence. }
    exists e1, e2. unfold path_ends. rewrite N3.
    rewrite !s3_label_other, !s3_degree_other by assumption.
    do 7 (split; [assumption|]).
    intros m Hm Cm M1 M2.
    destruct (s3_node m Hm) as [(Jm & Cm' & _)|(Jm & Cm' & Dm & _)].
    + exfalso. apply (new_fresh k Hk J). congruence.
    + rewrite Dm. apply Hrest; try assumption. congruence.
Qed.

Lemma s3_open : open s3.
Proof.
  constructor.
  - apply s3_open_feasible.
  - rewrite N3. apply s3_open_ends.
Qed.

End Step.

(** ** [OrderSolution.add_edge] as a whole *)

Lemma joined_transfer t s a b :
  dimension t = dimension s ->
  connected_component t = connected_component s ->
  joined t a b = joined s a b.
Proof. intros N C. unfold joined. rewrite N, C. reflexivity. Qed.

Lemma new_label_transfer t s a b :
  connected_component t = connected_component s ->
  new_label t a b = new_label s a b.
Proof. intros C. unfold new_label. rewrite C. reflexivity. Qed.

Lemma order_add_edge_commit x y s s2 :
  let a := Nat.min x y in
  let b := Nat.max x y in
  (a < dimension s)%nat -> (b < dimension s)%nat ->
  feasible_edges s a b = true -> edges_added s a b = false ->
  bind (bump a (with_edges
                  (with_feasible s (gset (feasible_edges s) a b false))
                  (gset (edges_added s) a b true)))
       (fun s1 => bump b s1) = Normal s2 ->
  order_add_edge x y s
  = if negb (gany (dimension s2) (feasible_edges s2))
    then Normal (with_complete s2 true)
    else bind (join_components a b s2) ensure_validity.
Proof.
  intros a b Ha Hb F E H. unfold order_add_edge, assert_. fold a b.
  apply Nat.ltb_lt in Ha, Hb. rewrite Ha, Hb, F, E. simpl.
  apply (bind_normal _ (fun s1 => bump b s1)
           (fun s => if negb (gany (dimension s) (feasible_edges s))
                     then Normal (with_complete s true)
                     else bind (join_components a b s) ensure_validity)).
  exact H.
Qed.

(** A call that the feasibility test of line 136 stops. *)
Lemma order_add_edge_refused x y s :
  feasible_edges s (Nat.min x y) (Nat.max x y) = false ->
  order_add_edge x y s = Raised IndexError s
  \/ order_add_edge x y s = Raised (AssertionError 136) s.
Proof.
  intros F. unfold order_add_edge, assert_. rewrite F.
  destruct (negb _); [left|right]; reflexivity.
Qed.

(** The effect of a call on an open structure. *)
Lemma order_add_edge_open x y s :
  sound s -> labelled s -> open s ->
  feasible_edges s (Nat.min x y) (Nat.max x y) = true ->
  exists s',
    order_add_edge x y s = Normal s'
    /\ problem s' = problem s
    /\ dimension s' = dimension s
    /\ sound s'
    /\ edges_added s'
       = gset (edges_added s) (Nat.min x y) (Nat.max x y) true
    /\ (forall i j, feasible_edges s' i j = true ->
                    feasible_edges s i j = true)
    /\ ((dimension s = 2%nat /\ pair_done s')
        \/ ((3 <= dimension s)%nat /\ labelled s' /\ open s'
            /\ complete s' = complete s)).
Proof.
  set (a := Nat.min x y). set (b := Nat.max x y).
  intros Hs Hl Ho F.
  destruct (step_pair s a b Ho F) as (Hab & Ha & Hb & Hcc).
  destruct (step_fresh s a b Hs Hl Ho F) as (Fab & Fba).
  destruct (bumps_ok s a b Ha Hb ltac:(lia))
    as (s2 & R2 & P2 & N2 & E2 & C2 & V2 & K2 & D2 & F2).
  rewrite (order_add_edge_commit x y s s2); fold a b;
    try assumption; try lia.
  assert (S2 : sound s2) by (apply (commit_sound s a b); assumption).
  assert (Mono2 : forall i j, feasible_edges s2 i j = true ->
                              feasible_edges s i j = true).
  { intros i j. rewrite F2, !andb_true_iff. tauto. }
  destruct (gany (dimension s2) (feasible_edges s2)) eqn:Any; simpl.
  - (* lines 157-190 *)
    assert (Hn : (3 <= dimension s)%nat).
    { apply gany_true in Any. destruct Any as (i & j & _ & _ & Fij).
      apply (s2_feasible_true s a b Ho s2 N2 F2) in Fij. lia. }
    destruct (join_ok s2 a b) as (s3 & R3 & P3 & N3 & E3 & D3 & V3 & K3 & C3 & F3).
    + lia.
    + rewrite C2. assumption.
    + intros i j Fij. rewrite C2.
      apply (s2_feasible_true s a b Ho s2 N2 F2) in Fij. lia.
    + rewrite (joined_transfer s2 s a b N2 C2) in C3, F3.
      rewrite (new_label_transfer s2 s a b C2), C2 in C3.
      rewrite E2 in E3. rewrite V2 in V3. rewrite N2 in N3.
      rewrite P2 in P3.
      assert (S3 : sound s3)
        by (apply (sound_transfer s2); congruence).
      rewrite R3. simpl. unfold ensure_validity, assert_.
      rewrite (sound_validity s3 S3).
      exists s3. split; [reflexivity|].
      do 4 (split; [assumption|]). split.
      * intros i j. rewrite F3, andb_true_iff. intros [H _]. auto.
      * right. split; [assumption|]. split; [|split].
        -- apply (s3_labelled s a b Hs Hl Ho F) with (s2 := s2);
             assumption.
        -- apply (s3_open s a b Hs Hl Ho F) with (s2 := s2); assumption.
        -- congruence.
  - (* the early return of line 155 *)
    assert (Hpair : pair_done (with_complete s2 true))
      by (apply (s2_none s a b Hs Hl Ho F); assumption).
    exists (with_complete s2 true). split; [reflexivity|]. simpl.
    do 2 (split; [assumption|]).
    split; [apply (sound_transfer s2); auto|].
    do 2 (split; [assumption|]).
    left. split; [|assumption].
    rewrite <- N2. apply (pd_dimension _ Hpair).
Qed.

(** ** An open structure with no feasible pair is one path through all
       nodes *)

Lemma path_ends_sym s label e1 e2 :
  path_ends s label e1 e2 -> path_ends s label e2 e1.
Proof.
  unfold path_ends. intros (H1 & H2 & Hne & C1 & C2 & D1 & D2 & Hrest).
  repeat split; auto.
Qed.

Section Exhausted.

Variable s : OrderSolution.
Let n := dimension s.
Let d := node_degrees s.
Let cc := connected_component s.

Hypothesis Hs : sound s.
Hypothesis Hl : labelled s.
Hypothesis Ho : open s.
Hypothesis Hnone : gany n (feasible_edges s) = false.

Lemma exhausted_pair u v :
  (u < n)%nat -> (v < n)%nat -> u <> v -> d u < 2 -> d v < 2 ->
  cc u = cc v /\ cc u <> -1.
Proof.
  intros Hu Hv Huv Du Dv.
  pose proof (proj1 (gany_false n _) Hnone) as Hall.
  destruct (Nat.lt_ge_cases u v) as [L|L].
  - specialize (Hall u v Hu Hv). rewrite (opn_feasible s Ho) in Hall.
    destruct (Z.eq_dec (cc u) (-1)) as [C|C];
      [|destruct (Z.eq_dec (cc u) (cc v)) as [C'|C']; [tauto|]];
      assert (feasible_rule s u v = true) as R
        by (apply feasible_rule_true; fold n d cc; repeat split;
            try assumption; tauto);
      congruence.
  - specialize (Hall v u Hv Hu). rewrite (opn_feasible s Ho) in Hall.
    destruct (Z.eq_dec (cc v) (-1)) as [C|C];
      [|destruct (Z.eq_dec (cc v) (cc u)) as [C'|C']; [split; congruence|]];
      assert (feasible_rule s v u = true) as R
        by (apply feasible_rule_true; fold n d cc; repeat split;
            try assumption; try lia; tauto);
      congruence.
Qed.

Lemma open_exhausted x :
  (x < n)%nat -> cc x <> -1 ->
  exists e1 e2,
    (e1 < e2 < n)%nat
    /\ path_ends s (cc e1) e1 e2
    /\ (forall k, (k < n)%nat -> cc k = cc e1)
    /\ cc e1 <> -1.
Proof.
  intros Hx Cx.
  destruct (opn_ends s Ho x Hx Cx) as (u1 & u2 & Hends).
  pose proof Hends as (H1 & H2 & Hne & C1 & C2 & D1 & D2 & Hrest).
  fold n d cc in H1, H2, C1, C2, D1, D2, Hrest, Hends.
  assert (Hspan : forall k, (k < n)%nat -> cc k = cc u1).
  { intros k Hk. destruct (Nat.eq_dec k u1) as [->|Ku]; [reflexivity|].
    pose proof (snd_range s Hs k) as R. fold d in R.
    destruct (Z.eq_dec (d k) 2) as [E|E].
    - assert (Ck : cc k <> -1).
      { intros C. apply (lab_free s Hl k Hk) in C. fold d in C. lia. }
      destruct (opn_ends s Ho k Hk Ck)
        as (w & _ & Hw & _ & _ & Cw & _ & Dw & _).
      fold n d cc in Hw, Cw, Dw.
      destruct (Nat.eq_dec w u1) as [->|Wu]; [congruence|].
      destruct (exhausted_pair w u1) as [E' _]; try assumption; try lia;
        congruence.
    - destruct (exhausted_pair k u1) as [E' _]; try assumption; lia. }
  destruct (Nat.lt_ge_cases u1 u2) as [L|L].
  - exists u1, u2. split; [lia|].
    split; [rewrite C1; exact Hends|].
    split; [exact Hspan|]. rewrite C1. exact Cx.
  - exists u2, u1. split; [lia|].
    split; [rewrite C2; apply path_ends_sym; exact Hends|].
    split; [|rewrite C2; exact Cx].
    intros k Hk. rewrite (Hspan k Hk). congruence.
Qed.

End Exhausted.

(** ** Counting on a path through all nodes, and on a cycle *)

Section Spanning.

Variable s : OrderSolution.
Variables e1 e2 : nat.
Let n := dimension s.
Let d := node_degrees s.
Let cc := connected_component s.

Hypothesis Hs : sound s.
Hypothesis Hends : path_ends s (cc e1) e1 e2.
Hypothesis Hspan : forall k, (k < n)%nat -> cc k = cc e1.

Lemma span_degree i :
  (i < n)%nat -> (d i = 1 <-> i = e1 \/ i = e2).
Proof.
  destruct Hends as (H1 & H2 & Hne & C1 & C2 & D1 & D2 & Hrest).
  fold n d cc in H1, H2, C1, C2, D1, D2, Hrest.
  intros Hi. split.
  - intros Di. destruct (Nat.eq_dec i e1); [tauto|].
    destruct (Nat.eq_dec i e2); [tauto|].
    rewrite (Hrest i Hi (Hspan i Hi)) in Di by assumption. discriminate.
  - intros [->| ->]; assumption.
Qed.

Lemma span_ones : vcount n d 1 = 2.
Proof.
  destruct Hends as (H1 & H2 & Hne & _).
  apply (vcount_two n d 1 e1 e2); try assumption. apply span_degree.
Qed.

Lemma span_twos : vcount n d 2 = Z.of_nat n - 2.
Proof.
  destruct Hends as (H1 & H2 & Hne & C1 & C2 & D1 & D2 & Hrest).
  apply (vcount_compl n d 1 2 e1 e2); try assumption; try lia.
  intros i Hi N1 N2. apply Hrest; auto.
Qed.

Lemma span_where :
  (e1 < e2)%nat -> where_ n (fun i => d i =? 1) = [e1; e2].
Proof.
  destruct Hends as (H1 & H2 & _). intros L.
  apply where_two; [fold n in H2; lia|].
  intros i Hi. rewrite Z.eqb_eq. apply span_degree. assumption.
Qed.

Lemma span_edges : gcount n (edges_added s) = Z.of_nat n - 1.
Proof.
  destruct Hends as (H1 & H2 & Hne & C1 & C2 & D1 & D2 & Hrest).
  fold n d cc in H1, H2, C1, C2, D1, D2, Hrest.
  pose proof (sound_handshake s Hs) as Hh. fold n d in Hh.
  rewrite (vsum_ext n d
             (fun i => 2 + (-1) * (b2z (Nat.eqb i e1) + b2z (Nat.eqb i e2))))
    in Hh.
  - rewrite vsum_plus, vsum_const, vsum_scale, vsum_plus, !vsum_point in Hh
      by assumption. lia.
  - intros i Hi.
    destruct (Nat.eqb_spec i e1) as [->|N1];
      [|destruct (Nat.eqb_spec i e2) as [->|N2]].
    + destruct (Nat.eqb_spec e1 e2); [contradiction|]. simpl. lia.
    + simpl. lia.
    + simpl. rewrite (Hrest i Hi (Hspan i Hi)) by assumption. reflexivity.
Qed.

Lemma span_labels : vall n cc (cc 0%nat) = true.
Proof.
  destruct Hends as (H1 & _). fold n in H1.
  apply vall_true. intros i Hi.
  rewrite (Hspan i Hi), (Hspan 0%nat) by lia. reflexivity.
Qed.

End Spanning.

Lemma closed_edges s :
  sound s -> closed s ->
  gcount (dimension s) (edges_added s) = Z.of_nat (dimension s).
Proof.
  intros Hs Hc. pose proof (sound_handshake s Hs) as Hh.
  rewrite (vsum_ext _ _ (fun _ => 2)) in Hh by (apply (cld_degree s Hc)).
  rewrite vsum_const in Hh. lia.
Qed.

(** ** The closing edge of the cycle variant *)

Lemma vsum_two_le n (f : nat -> Z) y z :
  (forall i, (i < n)%nat -> 0 <= f i) ->
  (y < n)%nat -> (z < n)%nat -> y <> z ->
  f y + f z <= vsum n f.
Proof.
  intros Hf Hy Hz Hyz.
  assert (E : vsum n (fun i => f y * b2z (Nat.eqb i y)
                               + f z * b2z (Nat.eqb i z)) = f y + f z)
    by (rewrite vsum_plus, !vsum_scale, !vsum_point by assumption; lia).
  rewrite <- E. apply vsum_le. intros i Hi.
  specialize (Hf i Hi).
  destruct (Nat.eqb_spec i y); destruct (Nat.eqb_spec i z); subst;
    simpl; lia.
Qed.

(** A node of degree 1 has one neighbour. *)
Lemma touching_single s x y z :
  sound s -> (x < dimension s)%nat -> node_degrees s x = 1 ->
  edges_added s x y = true \/ edges_added s y x = true ->
  edges_added s x z = true \/ edges_added s z x = true ->
  z = y.
Proof.
  intros Hs Hx Dx Hy Hz.
  destruct (Nat.eq_dec z y) as [|Hne]; [assumption|]. exfalso.
  assert (By : (y < dimension s)%nat)
    by (destruct Hy as [E|E]; apply (snd_edges s Hs) in E; lia).
  assert (Bz : (z < dimension s)%nat)
    by (destruct Hz as [E|E]; apply (snd_edges s Hs) in E; lia).
  rewrite (snd_degree s Hs x Hx) in Dx. unfold touching in Dx.
  pose proof (vsum_two_le (dimension s)
                (fun j => b2z (edges_added s x j) + b2z (edges_added s j x))
                y z) as H.
  simpl in H. rewrite Dx in H.
  assert (1 <= b2z (edges_added s x y) + b2z (edges_added s y x)).
  { destruct (edges_added s x y), (edges_added s y x); simpl; try lia;
      destruct Hy; discriminate. }
  assert (1 <= b2z (edges_added s x z) + b2z (edges_added s z x)).
  { destruct (edges_added s x z), (edges_added s z x); simpl; try lia;
      destruct Hz; discriminate. }
  assert (b2z (edges_added s x y) + b2z (edges_added s y x)
          + (b2z (edges_added s x z) + b2z (edges_added s z x)) <= 1);
    [|lia].
  apply H; auto.
  intros i _. pose proof (b2z_range (edges_added s x i)).
  pose proof (b2z_range (edges_added s i x)). lia.
Qed.

(** The two ends of a path through three nodes or more are not
    adjacent. *)
Lemma ends_not_adjacent s e1 e2 :
  sound s -> labelled s -> (3 <= dimension s)%nat ->
  path_ends s (connected_component s e1) e1 e2 ->
  (forall k, (k < dimension s)%nat ->
             connected_component s k = connected_component s e1) ->
  connected_component s e1 <> -1 ->
  edges_added s e1 e2 = false /\ edges_added s e2 e1 = false.
Proof.
  intros Hs Hl Hn (H1 & H2 & Hne & _ & _ & D1 & D2 & _) Hspan Hlab.
  assert (Hk : exists k, (k < dimension s)%nat /\ k <> e1 /\ k <> e2).
  { destruct (Nat.eq_dec e1 0), (Nat.eq_dec e2 0),
      (Nat.eq_dec e1 1), (Nat.eq_dec e2 1);
      first [exists 0%nat; lia | exists 1%nat; lia | exists 2%nat; lia]. }
  destruct Hk as (k & Hk & K1 & K2).
  assert (Hadj : edges_added s e1 e2 = true \/ edges_added s e2 e1 = true
                 -> False).
  { intros Hedge.
    assert (Hin : forall u v, connected (edges_added s) u v ->
                              u = e1 \/ u = e2 -> v = e1 \/ v = e2).
    { induction 1 as [|u m v Hum _ IH]; [tauto|]. intros Hu. apply IH.
      destruct Hu as [->| ->].
      - right. apply (touching_single s e1 e2 m); assumption.
      - left. apply (touching_single s e2 e1 m); try assumption. tauto. }
    assert (Hc : connected (edges_added s) e1 k).
    { apply (lab_conn s Hl); try assumption.
      symmetry. apply Hspan. assumption. }
    destruct (Hin e1 k Hc (or_introl eq_refl)); contradiction. }
  split.
  - destruct (edges_added s e1 e2) eqn:E; [|reflexivity].
    exfalso. apply Hadj. left. reflexivity.
  - destruct (edges_added s e2 e1) eqn:E; [|reflexivity].
    exfalso. apply Hadj. right. reflexivity.
Qed.

Lemma order_add_edge_closing x y s e1 e2 :
  sound s -> labelled s -> closing s e1 e2 ->
  feasible_edges s (Nat.min x y) (Nat.max x y) = true ->
  exists s',
    order_add_edge x y s = Normal s'
    /\ Nat.min x y = e1 /\ Nat.max x y = e2
    /\ problem s' = problem s
    /\ dimension s' = dimension s
    /\ sound s' /\ labelled s' /\ closed s'
    /\ edges_added s' = gset (edges_added s) e1 e2 true.
Proof.
  intros Hs Hl Hc F.
  destruct Hc as [Hord Hfeas Hends Hspan Hlab Hfresh Hcompl].
  rewrite Hfeas in F. apply andb_true_iff in F. destruct F as [Fa Fb].
  apply Nat.eqb_eq in Fa, Fb.
  pose proof Hends as (H1 & H2 & Hne & _ & _ & D1 & D2 & Hrest).
  destruct (bumps_ok s e1 e2 ltac:(lia) ltac:(lia) Hne)
    as (s2 & R2 & P2 & N2 & E2 & C2 & V2 & K2 & Dg & F2).
  assert (Hnone : forall i j, feasible_edges s2 i j = false).
  { intros i j. rewrite F2, Hfeas.
    destruct (Nat.eqb i e1 && Nat.eqb j e2); reflexivity. }
  rewrite (order_add_edge_commit x y s s2); rewrite ?Fa, ?Fb;
    try assumption; try lia;
    [|rewrite Hfeas, !Nat.eqb_refl; reflexivity].
  replace (gany (dimension s2) (feasible_edges s2)) with false
    by (symmetry; apply gany_false; intros; apply Hnone).
  simpl. exists (with_complete s2 true).
  split; [reflexivity|]. do 2 (split; [reflexivity|]). simpl.
  do 2 (split; [assumption|]).
  assert (S2 : sound s2)
    by (apply (commit_sound s e1 e2); try assumption; lia).
  split; [apply (sound_transfer s2); auto|].
  assert (Hpos : forall k, (k < dimension s)%nat -> 1 <= node_degrees s k).
  { intros k Hk. pose proof (snd_range s Hs k).
    assert (node_degrees s k <> 0); [|lia].
    intros D0. apply (lab_free s Hl k Hk) in D0.
    rewrite (Hspan k Hk) in D0. contradiction. }
  split; [|split; [|assumption]].
  - (* the labels are those of the path *)
    constructor; simpl; rewrite ?N2, ?C2, ?E2.
    + intros k Hk. rewrite Dg. specialize (Hpos k Hk).
      rewrite (Hspan k Hk).
      pose proof (b2z_range (Nat.eqb k e1)).
      pose proof (b2z_range (Nat.eqb k e2)). split; intros; [tauto|lia].
    + apply (lab_root s Hl).
    + intros i j. unfold gset.
      destruct (Nat.eqb_spec i e1) as [Ei|Ei];
        destruct (Nat.eqb_spec j e2) as [Ej|Ej]; simpl;
        try apply (lab_edge s Hl).
      intros _. rewrite Ei, Ej, (Hspan e2 H2). auto.
    + intros i j Hi Hj Ci Cij.
      apply connected_mono with (edges_added s);
        [|apply (lab_conn s Hl); assumption].
      intros u w H. unfold gset.
      destruct (Nat.eqb u e1 && Nat.eqb w e2); [reflexivity|assumption].
  - (* every node has degree 2 *)
    constructor; simpl; rewrite ?N2, ?C2.
    + assumption.
    + intros k Hk. rewrite Dg.
      destruct (Nat.eqb_spec k e1) as [->|N1];
        [|destruct (Nat.eqb_spec k e2) as [->|N2']].
      * destruct (Nat.eqb_spec e1 e2); [contradiction|]. simpl. lia.
      * simpl. lia.
      * simpl. rewrite (Hrest k Hk (Hspan k Hk)) by assumption. reflexivity.
    + intros k Hk. rewrite (Hspan k Hk), (Hspan 0%nat) by lia. reflexivity.
    + reflexivity.
Qed.

(** ** The stages are kept by every call *)

Lemma open_transfer s s' :
  dimension s' = dimension s -> node_degrees s' = node_degrees s ->
  connected_component s' = connected_component s ->
  feasible_edges s' = feasible_edges s ->
  open s -> open s'.
Proof.
  intros N D C F [H1 H2]. constructor.
  - intros i j. rewrite F, H1. unfold feasible_rule.
    rewrite N, D, C. reflexivity.
  - intros i. unfold path_ends. rewrite N, D, C. apply H2.
Qed.

Lemma pair_done_complete s : pair_done s -> pair_done (with_complete s true).
Proof. intros [H1 H2 H3 H4 H5 H6]. constructor; simpl; auto. Qed.

Lemma ensure_validity_sound s : sound s -> ensure_validity s = Normal s.
Proof.
  intros H. unfold ensure_validity, assert_.
  rewrite (sound_validity s H). reflexivity.
Qed.

Lemma open_none s :
  open s -> gany (dimension s) (feasible_edges s) = false ->
  forall i j, feasible_edges s i j = false.
Proof.
  intros Ho Hnone i j. destruct (feasible_edges s i j) eqn:F; [|reflexivity].
  pose proof F as R. rewrite (opn_feasible s Ho) in R.
  apply feasible_rule_true in R.
  rewrite (proj1 (gany_false _ _) Hnone i j) in F by lia. discriminate.
Qed.

(** Feasible pairs of an open structure are in different components. *)
Lemma open_apart s a b :
  labelled s -> open s -> feasible_edges s a b = true ->
  ~ connected (edges_added s) a b.
Proof.
  intros Hl Ho F Hc.
  destruct (step_pair s a b Ho F) as (Hab & _ & _ & Hcc).
  destruct (labelled_connected s a b Hl Hc) as [E|[E1 E2]]; [lia|tauto].
Qed.

Lemma exhausted_labelled s :
  sound s -> labelled s -> open s -> (2 <= dimension s)%nat ->
  gany (dimension s) (feasible_edges s) = false ->
  exists x, (x < dimension s)%nat /\ connected_component s x <> -1.
Proof.
  intros Hs Hl Ho Hn Hnone.
  destruct (Z.eq_dec (connected_component s 0%nat) (-1)) as [C0|C0];
    [|exists 0%nat; split; [lia|assumption]].
  destruct (Z.eq_dec (connected_component s 1%nat) (-1)) as [C1|C1];
    [|exists 1%nat; split; [lia|assumption]].
  exfalso.
  pose proof (open_none s Ho Hnone 0%nat 1%nat) as F.
  rewrite (opn_feasible s Ho) in F.
  assert (R : feasible_rule s 0%nat 1%nat = true); [|congruence].
  apply feasible_rule_true.
  apply (lab_free s Hl) in C0, C1; try lia.
  repeat split; try lia. left. apply (lab_free s Hl); [lia|assumption].
Qed.

(** Lines 238-242: the last pair is opened again. *)
Lemma reopen_closing s :
  sound s -> labelled s -> open s -> complete s = false ->
  (3 <= dimension s)%nat ->
  gany (dimension s) (feasible_edges s) = false ->
  exists e1 e2,
    reopen s
    = Normal (with_feasible s (gset (feasible_edges s) e1 e2 true))
    /\ closing (with_feasible s (gset (feasible_edges s) e1 e2 true)) e1 e2
    /\ gcount (dimension s) (edges_added s) = Z.of_nat (dimension s) - 1.
Proof.
  intros Hs Hl Ho Hc Hn Hnone.
  destruct (exhausted_labelled s Hs Hl Ho ltac:(lia) Hnone) as (x & Hx & Cx).
  destruct (open_exhausted s Hs Hl Ho Hnone x Hx Cx)
    as (e1 & e2 & Hord & Hends & Hspan & Hlab).
  exists e1, e2. split; [|split].
  - unfold reopen. rewrite Hc, Hnone. simpl.
    rewrite (span_where s e1 e2 Hends Hspan) by lia. reflexivity.
  - constructor; simpl; try assumption.
    + intros i j. unfold gset. rewrite (open_none s Ho Hnone).
      destruct (Nat.eqb i e1 && Nat.eqb j e2); reflexivity.
    + apply (ends_not_adjacent s e1 e2); assumption.
  - apply (span_edges s e1 e2 Hs Hends Hspan).
Qed.

Lemma reopen_skip s :
  complete s = true \/ gany (dimension s) (feasible_edges s) = true ->
  reopen s = Normal s.
Proof.
  intros [H|H]; unfold reopen; rewrite H; simpl;
    rewrite ?andb_false_r; reflexivity.
Qed.

(** A structure that takes the pair [(a, b)] is open, or it is the cycle
    variant waiting for exactly that pair. *)
Lemma stage_feasible v s a b :
  stage v s -> feasible_edges s a b = true ->
  (sound s /\ labelled s /\ open s /\ complete s = false)
  \/ (v = Cycle /\ (3 <= dimension s)%nat
      /\ sound s /\ labelled s /\ closing s a b).
Proof.
  intros [Hs Hl Ho Hc _|_ _ _ _ Ho _ Hnone|e1 e2 Hv Hn Hs Hl Hc
          |_ _ _ _ Hc|_ Hp] F.
  - left. auto.
  - rewrite (open_none s Ho Hnone) in F. discriminate.
  - right. pose proof F as F'. rewrite (cls_feasible s e1 e2 Hc) in F'.
    apply andb_true_iff in F'. destruct F' as [Fa Fb].
    apply Nat.eqb_eq in Fa, Fb. subst. auto.
  - rewrite (cld_feasible s Hc) in F. discriminate.
  - rewrite (pd_feasible s Hp) in F. discriminate.
Qed.

Lemma min_max_order x y a b :
  Nat.min x y = a -> Nat.max x y = b -> (a < b)%nat ->
  Nat.min a b = a /\ Nat.max a b = b.
Proof. lia. Qed.

(** One successful call of the cycle variant. *)
Lemma tsp_step x y s :
  stage Cycle s ->
  feasible_edges s (Nat.min x y) (Nat.max x y) = true ->
  exists s1 s',
    order_add_edge x y s = Normal s1
    /\ tsp_add_edge x y s = Normal s'
    /\ step_facts Cycle s (Nat.min x y) (Nat.max x y) s1 s'.
Proof.
  set (a := Nat.min x y). set (b := Nat.max x y). intros Hst F.
  destruct (stage_feasible Cycle s a b Hst F)
    as [(Hs & Hl & Ho & Hc)|(_ & Hn & Hs & Hl & Hcl)].
  - (* an open structure *)
    destruct (order_add_edge_open x y s Hs Hl Ho F)
      as (s1 & R & P1 & N1 & S1 & E1 & M1 & Hcase).
    fold a b in E1.
    destruct (step_pair s a b Ho F) as (Hab & _).
    destruct (step_fresh s a b Hs Hl Ho F) as (Fab & _).
    pose proof (open_apart s a b Hl Ho F) as Hapart.
    unfold tsp_add_edge. rewrite R. simpl.
    destruct Hcase as [(Hn & Hp)|(Hn & L1 & O1 & C1)].
    + (* two nodes: the early return *)
      rewrite (reopen_skip s1) by (left; apply (pd_complete s1 Hp)).
      simpl. rewrite (ensure_validity_sound s1 S1).
      exists s1, s1. do 2 (split; [reflexivity|]).
      constructor; auto. apply stage_pair; assumption.
    + rewrite Hc in C1.
      destruct (gany (dimension s1) (feasible_edges s1)) eqn:Any.
      * rewrite (reopen_skip s1) by (right; assumption).
        simpl. rewrite (ensure_validity_sound s1 S1).
        exists s1, s1. do 2 (split; [reflexivity|]).
        constructor; auto. apply stage_open; auto.
      * destruct (reopen_closing s1 S1 L1 O1 C1 ltac:(lia) Any)
          as (e1 & e2 & Rr & Hcl & Hcount).
        rewrite Rr. simpl.
        set (s' := with_feasible s1 (gset (feasible_edges s1) e1 e2 true)).
        assert (S' : sound s') by (apply (sound_transfer s1); auto).
        rewrite (ensure_validity_sound s' S').
        exists s1, s'. do 2 (split; [reflexivity|]).
        constructor; auto.
        -- apply (stage_closing Cycle s' e1 e2); auto.
           ++ simpl. lia.
           ++ apply (labelled_transfer s1); auto.
        -- right. split; [reflexivity|]. split; [assumption|].
           split; [apply (open_none s1 O1 Any)|]. split; [assumption|].
           exists e1, e2. split; [assumption|reflexivity].
  - (* the closing edge *)
    destruct (order_add_edge_closing x y s a b Hs Hl Hcl F)
      as (s1 & R & _ & _ & P1 & N1 & S1 & L1 & D1 & E1).
    unfold tsp_add_edge. rewrite R. simpl.
    rewrite (reopen_skip s1) by (left; apply (cld_complete s1 D1)).
    simpl. rewrite (ensure_validity_sound s1 S1).
    exists s1, s1. do 2 (split; [reflexivity|]).
    constructor; auto.
    + apply stage_closed; auto. lia.
    + apply (cls_order s a b Hcl).
    + apply (cls_fresh s a b Hcl).
    + intros i j. rewrite (cld_feasible s1 D1). discriminate.
Qed.

(** One successful call of the path variant. *)
Lemma topic_step x y s :
  stage Path s ->
  feasible_edges s (Nat.min x y) (Nat.max x y) = true ->
  exists s1 s',
    order_add_edge x y s = Normal s1
    /\ topic_add_edge x y s = Normal s'
    /\ step_facts Path s (Nat.min x y) (Nat.max x y) s1 s'.
Proof.
  set (a := Nat.min x y). set (b := Nat.max x y). intros Hst F.
  destruct (stage_feasible Path s a b Hst F)
    as [(Hs & Hl & Ho & Hc)|(Hv & _)]; [|discriminate].
  destruct (order_add_edge_open x y s Hs Hl Ho F)
    as (s1 & R & P1 & N1 & S1 & E1 & M1 & Hcase).
  fold a b in E1.
  destruct (step_pair s a b Ho F) as (Hab & _).
  destruct (step_fresh s a b Hs Hl Ho F) as (Fab & _).
  pose proof (open_apart s a b Hl Ho F) as Hapart.
  unfold topic_add_edge. rewrite R. simpl.
  destruct Hcase as [(Hn & Hp)|(Hn & L1 & O1 & C1)].
  - replace (gany (dimension s1) (feasible_edges s1)) with false
      by (symmetry; apply gany_false; intros; apply (pd_feasible s1 Hp)).
    simpl. unfold finish.
    exists s1, (with_complete s1 true). do 2 (split; [reflexivity|]).
    constructor; auto. apply stage_pair.
    + apply (sound_transfer s1); auto.
    + apply pair_done_complete. assumption.
  - destruct (gany (dimension s1) (feasible_edges s1)) eqn:Any; simpl.
    + rewrite (ensure_validity_sound s1 S1).
      exists s1, s1. do 2 (split; [reflexivity|]).
      constructor; auto. apply stage_open; auto. congruence.
    + unfold finish.
      exists s1, (with_complete s1 true). do 2 (split; [reflexivity|]).
      constructor; auto. apply stage_path_done; auto.
      * simpl. lia.
      * apply (sound_transfer s1); auto.
      * apply (labelled_transfer s1); auto.
      * apply (open_transfer s1); auto.
Qed.

Lemma add_edge_step v x y s :
  stage v s ->
  feasible_edges s (Nat.min x y) (Nat.max x y) = true ->
  exists s1 s',
    order_add_edge x y s = Normal s1
    /\ add_edge v x y s = Normal s'
    /\ step_facts v s (Nat.min x y) (Nat.max x y) s1 s'.
Proof. destruct v; [apply tsp_step|apply topic_step]. Qed.

(** A call that does not succeed is stopped before it writes. *)
Lemma add_edge_refused v x y s :
  feasible_edges s (Nat.min x y) (Nat.max x y) = false ->
  add_edge v x y s = Raised IndexError s
  \/ add_edge v x y s = Raised (AssertionError 136) s.
Proof.
  intros F.
  destruct (order_add_edge_refused x y s F) as [R|R];
    destruct v; simpl; unfold tsp_add_edge, topic_add_edge; rewrite R;
    simpl; auto.
Qed.

Lemma reachable_stage v p k s : reachable v p k s -> stage v s.
Proof.
  induction 1 as [|k s a b s' _ IH R]; [apply init_stage|].
  destruct (feasible_edges s (Nat.min a b) (Nat.max a b)) eqn:F.
  - destruct (add_edge_step v a b s IH F) as (s1 & s'' & _ & R' & Hf).
    rewrite R in R'. injection R' as <-. apply (sf_stage _ _ _ _ _ _ Hf).
  - destruct (add_edge_refused v a b s F) as [R'|R'];
      rewrite R in R'; discriminate.
Qed.

(** ** The completion checks *)

Lemma stage_sound v s : stage v s -> sound s.
Proof. intros []; assumption. Qed.

Lemma assert_normal line c s k s' :
  assert_ line c s k = Normal s' -> c = true /\ k = Normal s'.
Proof. unfold assert_. destruct c; [auto|discriminate]. Qed.

(** What a state that passes [OrderSolution.ensure_completion] has. *)
Lemma order_completion_inv s s' :
  order_ensure_completion s = Normal s' ->
  s' = s
  /\ validity_holds s = true
  /\ gany (dimension s) (feasible_edges s) = false
  /\ (0 < dimension s)%nat
  /\ (forall i, (i < dimension s)%nat ->
        connected_component s i = connected_component s 0%nat)
  /\ complete s = true.
Proof.
  unfold order_ensure_completion, ensure_validity. intros H.
  destruct (validity_holds s) eqn:V; [|discriminate]. simpl in H.
  apply assert_normal in H. destruct H as [H1 H].
  destruct (Nat.eqb_spec (dimension s) 0); [discriminate|].
  apply assert_normal in H. destruct H as [H2 H].
  apply assert_normal in H. destruct H as [H3 H].
  injection H as <-. apply negb_true_iff in H1.
  repeat split; try assumption; try lia.
  apply vall_true. assumption.
Qed.

Lemma order_completion s :
  sound s ->
  gany (dimension s) (feasible_edges s) = false ->
  (0 < dimension s)%nat ->
  (forall i, (i < dimension s)%nat ->
     connected_component s i = connected_component s 0%nat) ->
  complete s = true ->
  order_ensure_completion s = Normal s.
Proof.
  intros Hs Hnone Hn Hall Hc.
  unfold order_ensure_completion. rewrite (ensure_validity_sound s Hs).
  simpl. unfold assert_. rewrite Hnone. simpl.
  destruct (Nat.eqb_spec (dimension s) 0); [lia|].
  rewrite (proj2 (vall_true _ _ _) Hall), Hc. reflexivity.
Qed.

Lemma tsp_completion_inv s s' :
  tsp_ensure_completion s = Normal s' ->
  s' = s
  /\ validity_holds s = true
  /\ gany (dimension s) (feasible_edges s) = false
  /\ (forall i, (i < dimension s)%nat ->
        connected_component s i = connected_component s 0%nat)
  /\ complete s = true
  /\ gcount (dimension s) (edges_added s) = Z.of_nat (dimension s)
  /\ (forall i, (i < dimension s)%nat -> node_degrees s i = 2).
Proof.
  unfold tsp_ensure_completion. intros H.
  destruct (order_ensure_completion s) as [s1|] eqn:O; [|discriminate].
  apply order_completion_inv in O.
  destruct O as (-> & V & Hnone & Hn & Hall & Hc). simpl in H.
  apply assert_normal in H. destruct H as [H1 H].
  apply assert_normal in H. destruct H as [H2 H].
  injection H as <-. apply Z.eqb_eq in H1.
  repeat split; try assumption. apply vall_true. assumption.
Qed.

Lemma topic_completion_inv s s' :
  topic_ensure_completion s = Normal s' ->
  s' = s
  /\ validity_holds s = true
  /\ gany (dimension s) (feasible_edges s) = false
  /\ (forall i, (i < dimension s)%nat ->
        connected_component s i = connected_component s 0%nat)
  /\ complete s = true
  /\ gcount (dimension s) (edges_added s) = Z.of_nat (dimension s) - 1
  /\ vcount (dimension s) (node_degrees s) 2 = Z.of_nat (dimension s) - 2
  /\ vcount (dimension s) (node_degrees s) 1 = 2.
Proof.
  unfold topic_ensure_completion. intros H.
  destruct (order_ensure_completion s) as [s1|] eqn:O; [|discriminate].
  apply order_completion_inv in O.
  destruct O as (-> & V & Hnone & Hn & Hall & Hc). simpl in H.
  apply assert_normal in H. destruct H as [H1 H].
  apply assert_normal in H. destruct H as [H2 H].
  apply assert_normal in H. destruct H as [H3 H].
  injection H as <-. apply Z.eqb_eq in H1, H2, H3.
  repeat split; assumption.
Qed.

(** A finished cycle passes [TSPSolution.ensure_completion]. *)
Lemma closed_completion s :
  sound s -> closed s -> (0 < dimension s)%nat ->
  tsp_ensure_completion s = Normal s.
Proof.
  intros Hs Hc Hn. unfold tsp_ensure_completion.
  rewrite (order_completion s Hs); try assumption.
  - simpl. unfold assert_.
    rewrite (closed_edges s Hs Hc), Z.eqb_refl.
    rewrite (proj2 (vall_true _ _ _) (cld_degree s Hc)). reflexivity.
  - apply gany_false. intros. apply (cld_feasible s Hc).
  - apply (cld_span s Hc).
  - apply (cld_complete s Hc).
Qed.

(** A path through all nodes passes
    [TopicSortSolution.ensure_completion]. *)
Lemma path_completion s :
  sound s -> labelled s -> open s -> complete s = true ->
  (2 <= dimension s)%nat ->
  gany (dimension s) (feasible_edges s) = false ->
  topic_ensure_completion s = Normal s.
Proof.
  intros Hs Hl Ho Hc Hn Hnone.
  destruct (exhausted_labelled s Hs Hl Ho Hn Hnone) as (x & Hx & Cx).
  destruct (open_exhausted s Hs Hl Ho Hnone x Hx Cx)
    as (e1 & e2 & Hord & Hends & Hspan & Hlab).
  unfold topic_ensure_completion.
  rewrite (order_completion s Hs); try assumption; try lia.
  - simpl. unfold assert_.
    rewrite (span_edges s e1 e2 Hs Hends Hspan), Z.eqb_refl.
    rewrite (span_twos s e1 e2 Hends Hspan), Z.eqb_refl.
    rewrite (span_ones s e1 e2 Hends Hspan). reflexivity.
  - intros i Hi. rewrite (Hspan i Hi), (Hspan 0%nat) by lia. reflexivity.
Qed.

(** The two-node path passes it too. *)
Lemma pair_completion s :
  sound s -> pair_done s -> topic_ensure_completion s = Normal s.
Proof.
  intros Hs Hp. pose proof (pd_dimension s Hp) as Hn.
  destruct (pd_degree s Hp) as [D0 D1].
  unfold topic_ensure_completion.
  rewrite (order_completion s Hs).
  - simpl. unfold assert_, gcount, vcount, vsum. rewrite Hn. simpl.
    rewrite !(pd_edges s Hp), D0, D1. reflexivity.
  - apply gany_false. intros. apply (pd_feasible s Hp).
  - lia.
  - intros i Hi. rewrite !(pd_label s Hp) by lia. reflexivity.
  - apply (pd_complete s Hp).
Qed.

(** ** Committed pairs as a list *)

Lemma total_app c l1 l2 : total c (l1 ++ l2) = total c l1 + total c l2.
Proof.
  unfold total. induction l1 as [|p l IH]; simpl; [reflexivity|].
  rewrite IH. lia.
Qed.

Lemma total_row c (e : grid) i l :
  total c (filter (fun p => e (fst p) (snd p)) (map (pair i) l))
  = fold_right (fun j acc => b2z (e i j) * c i j + acc) 0 l.
Proof.
  unfold total. induction l as [|j l IH]; [reflexivity|].
  cbn [map filter fold_right fst snd].
  destruct (e i j) eqn:E; cbn [fold_right fst snd b2z]; rewrite IH; lia.
Qed.

Lemma row_split n i (f : nat -> Z) :
  (i < n)%nat ->
  (forall j, (j <= i)%nat -> f j = 0) ->
  vsum n f = fold_right (fun j acc => f j + acc) 0 (seq (S i) (n - S i)).
Proof.
  intros Hi Hz. unfold vsum.
  replace n with (S i + (n - S i))%nat at 1 by lia.
  rewrite seq_app, fold_right_app. simpl plus.
  generalize (fold_right (fun j acc => f j + acc) 0 (seq (S i) (n - S i))).
  intros z. assert (H : forall j, In j (seq 0 (S i)) -> f j = 0)
    by (intros j Hj; apply Hz; apply in_seq in Hj; lia).
  revert H. generalize (seq 0 (S i)). intros l.
  induction l as [|j l IH]; intros H; simpl; [reflexivity|].
  rewrite IH by (intros; apply H; right; assumption).
  rewrite (H j) by (left; reflexivity). lia.
Qed.

(** The sum of [tsp_cost] ranges over the committed pairs. *)
Lemma cost_sum_committed n (e : grid) c :
  (forall i j, (i < n)%nat -> (j < n)%nat -> e i j = true -> (i < j)%nat) ->
  cost_sum n e c = total c (committed n e).
Proof.
  intros Hup. unfold cost_sum, committed, pairs, vsum.
  assert (H : forall i, In i (seq 0 n) -> (i < n)%nat)
    by (intros i Hi; apply in_seq in Hi; lia).
  revert H. generalize (seq 0 n) at 1 3 4. intros l.
  induction l as [|i l IH]; intros H; simpl; [reflexivity|].
  rewrite filter_app, total_app, total_row, <- IH
    by (intros; apply H; right; assumption).
  f_equal.
  assert (Hi : (i < n)%nat) by (apply H; left; reflexivity).
  apply (row_split n i (fun j => b2z (e i j) * c i j)); [assumption|].
  intros j Hj. destruct (e i j) eqn:E; [|reflexivity].
  apply Hup in E; lia.
Qed.

Lemma total_length l : total (fun _ _ => 1) l = Z.of_nat (length l).
Proof.
  unfold total. induction l as [|p l IH]; [reflexivity|].
  cbn [fold_right length]. rewrite IH, Nat2Z.inj_succ. lia.
Qed.

Lemma gcount_committed n (e : grid) :
  (forall i j, (i < n)%nat -> (j < n)%nat -> e i j = true -> (i < j)%nat) ->
  gcount n e = Z.of_nat (length (committed n e)).
Proof.
  intros Hup. rewrite <- total_length, <- cost_sum_committed by assumption.
  unfold gcount, cost_sum. apply vsum_ext. intros i _.
  apply vsum_ext. intros j _. lia.
Qed.

(** The test of [ensure_validity] puts the committed pairs in the upper
    triangle. *)
Lemma validity_upper s :
  validity_holds s = true ->
  (forall i j, valid_edges s i j = upper (dimension s) i j) ->
  forall i j, (i < dimension s)%nat -> (j < dimension s)%nat ->
    edges_added s i j = true -> (i < j)%nat.
Proof.
  intros V Hv i j Hi Hj E. apply Z.eqb_eq in V.
  pose proof (proj1 (gcount_subset _ _ _) V i j Hi Hj E) as U.
  rewrite Hv in U. unfold upper in U. apply andb_true_iff in U.
  destruct U as [U _]. apply Nat.ltb_lt in U. assumption.
Qed.

(** ** Reachable states *)

Lemma add_edge_normal v x y s s' :
  stage v s -> add_edge v x y s = Normal s' ->
  feasible_edges s (Nat.min x y) (Nat.max x y) = true
  /\ exists s1,
       order_add_edge x y s = Normal s1
       /\ step_facts v s (Nat.min x y) (Nat.max x y) s1 s'.
Proof.
  intros Hst R.
  destruct (feasible_edges s (Nat.min x y) (Nat.max x y)) eqn:F.
  - split; [reflexivity|].
    destruct (add_edge_step v x y s Hst F) as (s1 & s'' & R1 & R' & Hf).
    rewrite R in R'. injection R' as <-. exists s1. auto.
  - destruct (add_edge_refused v x y s F) as [R'|R'];
      rewrite R in R'; discriminate.
Qed.

Lemma reachable_problem v p k s :
  reachable v p k s -> problem s = p /\ dimension s = p_dimension p.
Proof.
  induction 1 as [|k s a b s' Hr [IHp IHd] R]; [auto|].
  destruct (add_edge_normal v a b s s' (reachable_stage v p k s Hr) R)
    as (_ & s1 & _ & Hf).
  rewrite (sf_problem _ _ _ _ _ _ Hf), (sf_dimension _ _ _ _ _ _ Hf). auto.
Qed.

(** Every successful call commits one new pair. *)
Lemma reachable_count v p k s :
  reachable v p k s ->
  gcount (dimension s) (edges_added s) = Z.of_nat k.
Proof.
  induction 1 as [|k s a b s' Hr IH R].
  - simpl. unfold gcount. rewrite vsum_zero; [reflexivity|].
    intros i _. apply vsum_zero. reflexivity.
  - destruct (add_edge_normal v a b s s' (reachable_stage v p k s Hr) R)
      as (_ & s1 & _ & Hf).
    rewrite (sf_dimension _ _ _ _ _ _ Hf), (sf_edges _ _ _ _ _ _ Hf),
      (sf_edges1 _ _ _ _ _ _ Hf).
    pose proof (sf_pair _ _ _ _ _ _ Hf) as Hp.
    rewrite gcount_gset_true, IH; try lia.
    apply (sf_fresh _ _ _ _ _ _ Hf).
Qed.

Lemma reachable_run_from v p calls :
  forall k s0 s,
    reachable v p k s0 -> run v calls s0 = Normal s ->
    reachable v p (k + length calls) s.
Proof.
  induction calls as [|[a b] rest IH]; intros k s0 s Hr R; simpl in *.
  - injection R as <-. rewrite Nat.add_0_r. assumption.
  - destruct (add_edge v a b s0) as [s1|] eqn:E; [|discriminate].
    simpl in R. replace (k + S (length rest))%nat
      with (S k + length rest)%nat by lia.
    apply (IH (S k) s1); [|assumption].
    apply (reach_step v p k s0 a b s1); assumption.
Qed.

(** The state after a list of calls that all succeed is reachable. *)
Lemma reachable_after v p calls :
  run v calls (init p) = Normal (after v p calls) ->
  reachable v p (length calls) (after v p calls).
Proof.
  intros R. apply (reachable_run_from v p calls 0 (init p)); [|assumption].
  apply reach_init.
Qed.

Lemma stage_labelled v s :
  stage v s -> (3 <= dimension s)%nat -> labelled s.
Proof.
  intros [| | | |Hs Hp] Hn; try assumption.
  rewrite (pd_dimension s Hp) in Hn. lia.
Qed.

(** A committed pair is never feasible. *)
Lemma stage_committed v s a b :
  stage v s -> edges_added s a b = true -> feasible_edges s a b = false.
Proof.
  intros Hst E. destruct (feasible_edges s a b) eqn:F; [|reflexivity].
  destruct (stage_feasible v s a b Hst F)
    as [(Hs & Hl & Ho & _)|(_ & _ & _ & _ & Hc)].
  - destruct (step_fresh s a b Hs Hl Ho F). congruence.
  - rewrite (cls_fresh s a b Hc) in E. discriminate.
Qed.

Lemma add_edge_infeasible v x y s :
  (x < dimension s)%nat -> (y < dimension s)%nat ->
  feasible_edges s (Nat.min x y) (Nat.max x y) = false ->
  add_edge v x y s = Raised InfeasibleEdgeError s.
Proof.
  intros Hx Hy F.
  assert (R : order_add_edge x y s = Raised InfeasibleEdgeError s).
  { unfold order_add_edge, assert_. rewrite F.
    replace (Nat.ltb (Nat.min x y) (dimension s)) with true
      by (symmetry; apply Nat.ltb_lt; lia).
    replace (Nat.ltb (Nat.max x y) (dimension s)) with true
      by (symmetry; apply Nat.ltb_lt; lia).
    reflexivity. }
  destruct v; simpl; unfold tsp_add_edge, topic_add_edge; rewrite R;
    reflexivity.
Qed.

Lemma wrap64_id z : in_int64 z -> wrap64 z = z.
Proof.
  unfold in_int64, wrap64. intros H.
  rewrite Z.mod_small by lia. lia.
Qed.

Lemma committed_spec n (e : grid) i j :
  In (i, j) (committed n e) <-> (i < j < n)%nat /\ e i j = true.
Proof.
  unfold committed, pairs. rewrite filter_In, in_flat_map. simpl.
  split.
  - intros [(x & Hx & H) E]. apply in_map_iff in H.
    destruct H as (y & Hy & H). injection Hy as -> ->.
    apply in_seq in Hx, H. split; [lia|assumption].
  - intros [H E]. split; [|assumption]. exists i.
    split; [apply in_seq; lia|]. apply in_map, in_seq. lia.
Qed.

(** * The claims of the specification *)

(** ** Sample runs *)

Lemma reach_trio_1 : reachable Cycle trio 1 (after Cycle trio [(0, 1)%nat]).
Proof. apply (reachable_after Cycle trio [(0, 1)%nat]). vm_compute. reflexivity. Qed.

Lemma reach_trio_2 :
  reachable Cycle trio 2 (after Cycle trio [(0, 1); (2, 1)]%nat).
Proof.
  apply (reachable_after Cycle trio [(0, 1); (2, 1)]%nat). vm_compute. reflexivity.
Qed.

Lemma reach_trio_3 :
  reachable Cycle trio 3 (after Cycle trio [(0, 1); (2, 1); (0, 2)]%nat).
Proof.
  apply (reachable_after Cycle trio [(0, 1); (2, 1); (0, 2)]%nat). vm_compute. reflexivity.
Qed.

Lemma reach_far_trio_3 :
  reachable Cycle far_trio 3
    (after Cycle far_trio [(0, 1); (2, 1); (0, 2)]%nat).
Proof.
  apply (reachable_after Cycle far_trio [(0, 1); (2, 1); (0, 2)]%nat). vm_compute. reflexivity.
Qed.

Lemma reach_duo_1 : reachable Cycle duo 1 (after Cycle duo [(0, 1)%nat]).
Proof. apply (reachable_after Cycle duo [(0, 1)%nat]). vm_compute. reflexivity. Qed.

Lemma reach_path_duo_1 : reachable Path duo 1 (after Path duo [(0, 1)%nat]).
Proof. apply (reachable_after Path duo [(0, 1)%nat]). vm_compute. reflexivity. Qed.

Lemma reach_path_trio_2 :
  reachable Path trio 2 (after Path trio [(0, 1); (2, 1)]%nat).
Proof.
  apply (reachable_after Path trio [(0, 1); (2, 1)]%nat). vm_compute. reflexivity.
Qed.

(** ** C1 *)

(** C1.  In every run of either variant, a successful call commits a pair
    that was not committed, and the two nodes of the pair were not linked
    by committed edges before the call; the one exception is the closing
    edge of the cycle variant: then the pair was the only feasible pair,
    its two nodes had degree 1, the call completes the structure (the
    completion check passes), and no further call succeeds. *)
Theorem C1_no_edge_inside_a_component
    (v : variant) (p : OrderProblem) (k : nat) (s : OrderSolution)
    (x y : nat) (s' : OrderSolution) :
  reachable v p k s ->
  add_edge v x y s = Normal s' ->
  edges_added s (Nat.min x y) (Nat.max x y) = false
  /\ edges_added s' (Nat.min x y) (Nat.max x y) = true
  /\ (~ connected (edges_added s) (Nat.min x y) (Nat.max x y)
      \/ (v = Cycle
          /\ (forall i j, feasible_edges s i j = true
                          <-> i = Nat.min x y /\ j = Nat.max x y)
          /\ node_degrees s (Nat.min x y) = 1
          /\ node_degrees s (Nat.max x y) = 1
          /\ complete s' = true
          /\ tsp_ensure_completion s' = Normal s'
          /\ forall x' y' s'', add_edge v x' y' s' <> Normal s'')).
Proof.
  intros Hr R.
  pose proof (reachable_stage v p k s Hr) as Hst.
  destruct (add_edge_normal v x y s s' Hst R) as (F & s1 & R1 & Hf).
  split; [apply (sf_fresh _ _ _ _ _ _ Hf)|]. split.
  - rewrite (sf_edges _ _ _ _ _ _ Hf), (sf_edges1 _ _ _ _ _ _ Hf).
    unfold gset. rewrite !Nat.eqb_refl. reflexivity.
  - destruct (sf_apart _ _ _ _ _ _ Hf) as [H|(Hv & Hcl & Hcd)];
      [left; assumption|right].
    pose proof (sf_stage _ _ _ _ _ _ Hf) as Hst'.
    pose proof (cls_ends _ _ _ Hcl) as (_ & _ & _ & _ & _ & D1 & D2 & _).
    split; [assumption|]. split; [|split; [assumption|split; [assumption|]]].
    + intros i j. rewrite (cls_feasible _ _ _ Hcl), andb_true_iff.
      rewrite !Nat.eqb_eq. tauto.
    + split; [apply (cld_complete _ Hcd)|]. split.
      * apply closed_completion; [apply (stage_sound v); assumption
                                 |assumption|].
        rewrite (sf_dimension _ _ _ _ _ _ Hf).
        pose proof (sf_pair _ _ _ _ _ _ Hf). lia.
      * intros x' y' s'' R'.
        destruct (add_edge_normal v x' y' s' s'' Hst' R') as (F' & _).
        rewrite (cld_feasible _ Hcd) in F'. discriminate.
Qed.

Lemma C1_witness :
  reachable Cycle trio 2 (after Cycle trio [(0, 1); (2, 1)]%nat)
  /\ add_edge Cycle 0%nat 2%nat (after Cycle trio [(0, 1); (2, 1)]%nat)
     = Normal (after Cycle trio [(0, 1); (2, 1); (0, 2)]%nat)
  /\ edges_added (after Cycle trio [(0, 1); (2, 1); (0, 2)]%nat) 0%nat 2%nat = true.
Proof.
  split; [exact reach_trio_2|]. split; [vm_compute; reflexivity|].
  apply (C1_no_edge_inside_a_component Cycle trio 2
           (after Cycle trio [(0, 1); (2, 1)]%nat) 0%nat 2%nat
           (after Cycle trio [(0, 1); (2, 1); (0, 2)]%nat) reach_trio_2).
  vm_compute. reflexivity.
Defined.

(** ** C2 *)

(** C2, as stated, fails: the cycle variant on two nodes has, after its
    only edge, no feasible pair and a structure that does not pass the
    completion check. *)
Lemma C2_counterexample :
  ~ (forall v p k s,
       (2 <= p_dimension p)%nat -> reachable v p k s ->
       gany (dimension s) (feasible_edges s) = true
       \/ ensure_completion v s = Normal s).
Proof.
  intros H.
  destruct (H Cycle duo 1%nat (after Cycle duo [(0, 1)%nat])
              ltac:(simpl; lia) reach_duo_1) as [E|E];
    vm_compute in E; discriminate.
Qed.

(** C2, amended.  For every problem with N >= 3 nodes, and for the path
    variant also with N = 2, after every call of a run either the
    variant's completion check passes or a pair is still feasible. *)
Theorem C2_feasible_until_complete
    (v : variant) (p : OrderProblem) (k : nat) (s : OrderSolution) :
  reachable v p k s ->
  (v = Path /\ (2 <= p_dimension p)%nat) \/ (3 <= p_dimension p)%nat ->
  gany (dimension s) (feasible_edges s) = true
  \/ ensure_completion v s = Normal s.
Proof.
  intros Hr Hn.
  destruct (reachable_problem v p k s Hr) as [_ Hd]. rewrite <- Hd in Hn.
  destruct (reachable_stage v p k s Hr)
    as [Hs Hl Ho Hc Hany|Hv Hn' Hs Hl Ho Hc Hnone|e1 e2 Hv Hn' Hs Hl Hcl
       |Hv Hn' Hs Hl Hcd|Hs Hp].
  - left. apply Hany. lia.
  - right. subst v. apply path_completion; try assumption. lia.
  - left. apply gany_true. exists e1, e2.
    pose proof (cls_order _ _ _ Hcl).
    rewrite (cls_feasible _ _ _ Hcl), !Nat.eqb_refl.
    repeat split; try lia.
  - right. subst v. apply closed_completion; try assumption. lia.
  - right. pose proof (pd_dimension _ Hp) as H2.
    destruct Hn as [[-> _]|Hn]; [|lia].
    apply pair_completion; assumption.
Qed.

Lemma C2_witness :
  reachable Path duo 1 (after Path duo [(0, 1)%nat])
  /\ (gany (dimension (after Path duo [(0, 1)%nat]))
        (feasible_edges (after Path duo [(0, 1)%nat])) = true
      \/ ensure_completion Path (after Path duo [(0, 1)%nat])
         = Normal (after Path duo [(0, 1)%nat])).
Proof.
  split; [exact reach_path_duo_1|].
  apply (C2_feasible_until_complete Path duo 1
           (after Path duo [(0, 1)%nat]) reach_path_duo_1).
  left. split; [reflexivity|]. apply le_n.
Defined.

(** ** C3 *)

(** C3, as stated, fails in its last part: [cost] adds 64-bit integers,
    and three edges of cost 2^62 add up to -2^62. *)
Lemma C3_counterexample :
  ~ (forall p k s s',
       reachable Cycle p k s ->
       tsp_ensure_completion s = Normal s' ->
       tsp_cost s
       = total (p_costs (problem s))
           (committed (dimension s) (edges_added s))).
Proof.
  intros H.
  specialize (H far_trio 3%nat
                (after Cycle far_trio [(0, 1); (2, 1); (0, 2)]%nat)
                (after Cycle far_trio [(0, 1); (2, 1); (0, 2)]%nat)
                reach_far_trio_3 ltac:(vm_compute; reflexivity)).
  vm_compute in H. discriminate.
Qed.

(** C3, amended.  Whenever a cycle-variant engine passes its completion
    check, exactly N pairs (i, j), i < j, are committed, every node has
    degree 2, all nodes carry one component label, and [cost] returns the
    sum of cost[i][j] over the committed pairs wrapped to a signed 64-bit
    integer, which is the sum itself when the sum is in the 64-bit
    range. *)
Theorem C3_cycle_completion
    (p : OrderProblem) (k : nat) (s s' : OrderSolution) :
  reachable Cycle p k s ->
  tsp_ensure_completion s = Normal s' ->
  Z.of_nat (length (committed (dimension s) (edges_added s)))
  = Z.of_nat (dimension s)
  /\ (forall i j, edges_added s i j = true
                  <-> In (i, j) (committed (dimension s) (edges_added s)))
  /\ (forall i, (i < dimension s)%nat -> node_degrees s i = 2)
  /\ (forall i, (i < dimension s)%nat ->
        connected_component s i = connected_component s 0%nat)
  /\ tsp_cost s
     = wrap64 (total (p_costs (problem s))
                 (committed (dimension s) (edges_added s)))
  /\ (in_int64 (total (p_costs (problem s))
                  (committed (dimension s) (edges_added s))) ->
      tsp_cost s
      = total (p_costs (problem s))
          (committed (dimension s) (edges_added s))).
Proof.
  intros Hr Hc.
  pose proof (stage_sound Cycle s (reachable_stage Cycle p k s Hr)) as Hs.
  apply tsp_completion_inv in Hc.
  destruct Hc as (_ & V & _ & Hall & _ & Hcount & Hdeg).
  assert (Hup : forall i j, (i < dimension s)%nat -> (j < dimension s)%nat ->
                  edges_added s i j = true -> (i < j)%nat)
    by (intros i j _ _ E; apply (snd_edges s Hs) in E; lia).
  assert (Hcost : tsp_cost s
                  = wrap64 (total (p_costs (problem s))
                              (committed (dimension s) (edges_added s))))
    by (unfold tsp_cost; rewrite cost_sum_committed by assumption;
        reflexivity).
  split; [rewrite <- gcount_committed by assumption; assumption|].
  split; [|split; [assumption|split; [assumption|split; [assumption|]]]].
  - intros i j. rewrite committed_spec. split; [|tauto].
    intros E. split; [apply (snd_edges s Hs)|]; assumption.
  - intros Hin. rewrite Hcost. apply wrap64_id. assumption.
Qed.

Lemma C3_witness :
  reachable Cycle trio 3 (after Cycle trio [(0, 1); (2, 1); (0, 2)]%nat)
  /\ tsp_ensure_completion (after Cycle trio [(0, 1); (2, 1); (0, 2)]%nat)
     = Normal (after Cycle trio [(0, 1); (2, 1); (0, 2)]%nat)
  /\ tsp_cost (after Cycle trio [(0, 1); (2, 1); (0, 2)]%nat) = 3.
Proof.
  split; [exact reach_trio_3|]. split; [vm_compute; reflexivity|].
  destruct (C3_cycle_completion trio 3
              (after Cycle trio [(0, 1); (2, 1); (0, 2)]%nat)
              (after Cycle trio [(0, 1); (2, 1); (0, 2)]%nat)
              reach_trio_3 ltac:(vm_compute; reflexivity))
    as (_ & _ & _ & _ & H & _).
  rewrite H. vm_compute. reflexivity.
Defined.

(** ** C4 *)

(** C4.  Whenever a path-variant engine passes its completion check,
    exactly N-1 pairs are committed, exactly two nodes have degree 1,
    exactly N-2 nodes have degree 2, all nodes carry one label and any two
    nodes are linked by committed edges; for N = 2 this is the state after
    a single edge, with both nodes at degree 1 and no node at degree 2, and
    the engine does reach it with its first call. *)
Theorem C4_path_completion
    (p : OrderProblem) (k : nat) (s s' : OrderSolution) :
  (reachable Path p k s ->
   topic_ensure_completion s = Normal s' ->
   Z.of_nat (length (committed (dimension s) (edges_added s)))
   = Z.of_nat (dimension s) - 1
   /\ vcount (dimension s) (node_degrees s) 1 = 2
   /\ vcount (dimension s) (node_degrees s) 2 = Z.of_nat (dimension s) - 2
   /\ (forall i, (i < dimension s)%nat ->
         connected_component s i = connected_component s 0%nat)
   /\ (forall i j, (i < dimension s)%nat -> (j < dimension s)%nat ->
         connected (edges_added s) i j)
   /\ (dimension s = 2%nat ->
       k = 1%nat
       /\ node_degrees s 0%nat = 1 /\ node_degrees s 1%nat = 1
       /\ vcount (dimension s) (node_degrees s) 2 = 0))
  /\ (p_dimension p = 2%nat ->
      exists s2,
        add_edge Path 0%nat 1%nat (init p) = Normal s2
        /\ topic_ensure_completion s2 = Normal s2).
Proof.
  split.
  - intros Hr Hc.
    pose proof (reachable_stage Path p k s Hr) as Hst.
    pose proof (stage_sound Path s Hst) as Hs.
    apply topic_completion_inv in Hc.
    destruct Hc as (_ & V & Hnone & Hall & Hcompl & Hcount & H2 & H1).
    assert (Hup : forall i j, (i < dimension s)%nat ->
                    (j < dimension s)%nat ->
                    edges_added s i j = true -> (i < j)%nat)
      by (intros i j _ _ E; apply (snd_edges s Hs) in E; lia).
    split; [rewrite <- gcount_committed by assumption; assumption|].
    do 3 (split; [assumption|]). split.
    + (* any two nodes are linked *)
      destruct Hst as [_ _ _ Hc _|_ Hn _ Hl Ho _ _|? ? Hv|Hv|_ Hp];
        try congruence; try discriminate.
      * destruct (exhausted_labelled s Hs Hl Ho ltac:(lia) Hnone)
          as (x & Hx & Cx).
        intros i j Hi Hj. apply (lab_conn s Hl); try assumption.
        -- rewrite (Hall i Hi), <- (Hall x Hx). assumption.
        -- rewrite (Hall i Hi), (Hall j Hj). reflexivity.
      * intros i j Hi Hj. rewrite (pd_dimension s Hp) in Hi, Hj.
        assert (E : edges_added s 0%nat 1%nat = true)
          by (rewrite (pd_edges s Hp); reflexivity).
        destruct i as [|[|i]]; destruct j as [|[|j]]; try lia;
          try apply conn_refl; apply connected_edge; auto.
    + intros Hn. rewrite Hn in *.
      pose proof (reachable_count Path p k s Hr) as Hk.
      rewrite Hn, Hcount in Hk.
      split; [lia|]. split; [|split; [|assumption]].
      * unfold vcount, vsum in H1. simpl in H1.
        destruct (node_degrees s 0%nat =? 1) eqn:E0;
          destruct (node_degrees s 1%nat =? 1) eqn:E1;
          simpl in H1; try discriminate. apply Z.eqb_eq. assumption.
      * unfold vcount, vsum in H1. simpl in H1.
        destruct (node_degrees s 0%nat =? 1) eqn:E0;
          destruct (node_degrees s 1%nat =? 1) eqn:E1;
          simpl in H1; try discriminate. apply Z.eqb_eq. assumption.
  - intros Hn. destruct p as [n c]. simpl in Hn. subst n.
    eexists. split; vm_compute; reflexivity.
Qed.

Lemma C4_witness :
  reachable Path trio 2%nat (after Path trio [(0, 1); (2, 1)]%nat)
  /\ topic_ensure_completion (after Path trio [(0, 1); (2, 1)]%nat)
     = Normal (after Path trio [(0, 1); (2, 1)]%nat)
  /\ vcount 3%nat (node_degrees (after Path trio [(0, 1); (2, 1)]%nat)) 1 = 2.
Proof.
  split; [exact reach_path_trio_2|]. split; [vm_compute; reflexivity|].
  apply (proj1 (C4_path_completion trio 2%nat
                  (after Path trio [(0, 1); (2, 1)]%nat)
                  (after Path trio [(0, 1); (2, 1)]%nat))
           reach_path_trio_2).
  vm_compute. reflexivity.
Defined.

(** ** C5 *)

(** C5.  In every run, [OrderSolution.add_edge] only removes pairs from
    the feasible set; the rest of the variant's [add_edge] adds a pair only
    in the cycle variant, only when [OrderSolution.add_edge] has left the
    feasible set empty and the structure incomplete with N-1 pairs
    committed, and then the pair it adds is the pair of the two nodes of
    degree 1 and the only feasible pair. *)
Theorem C5_feasibility_never_returns
    (v : variant) (p : OrderProblem) (k : nat) (s : OrderSolution)
    (x y : nat) (s1 s' : OrderSolution) :
  reachable v p k s ->
  order_add_edge x y s = Normal s1 ->
  add_edge v x y s = Normal s' ->
  (forall i j, feasible_edges s1 i j = true -> feasible_edges s i j = true)
  /\ (forall i j,
        feasible_edges s1 i j = false -> feasible_edges s' i j = true ->
        v = Cycle
        /\ complete s1 = false
        /\ (forall i' j', feasible_edges s1 i' j' = false)
        /\ gcount (dimension s1) (edges_added s1)
           = Z.of_nat (dimension s1) - 1
        /\ (i < j)%nat
        /\ node_degrees s1 i = 1 /\ node_degrees s1 j = 1
        /\ (forall m, (m < dimension s1)%nat -> node_degrees s1 m = 1 ->
                      m = i \/ m = j)
        /\ (forall i' j', feasible_edges s' i' j' = true ->
                          i' = i /\ j' = j)).
Proof.
  intros Hr R1 R.
  pose proof (reachable_stage v p k s Hr) as Hst.
  destruct (add_edge_normal v x y s s' Hst R) as (F & s1' & R1' & Hf).
  rewrite R1 in R1'. injection R1' as <-.
  split; [apply (sf_shrinks _ _ _ _ _ _ Hf)|].
  intros i j F1 F'.
  destruct (sf_reopen _ _ _ _ _ _ Hf)
    as [E|(Hv & Hc & Hnone & Hcount & e1 & e2 & Hcl & E)];
    [rewrite E in F'; congruence|].
  assert (Hij : i = e1 /\ j = e2).
  { rewrite (cls_feasible _ _ _ Hcl) in F'.
    apply andb_true_iff in F'. rewrite !Nat.eqb_eq in F'. assumption. }
  destruct Hij as [-> ->].
  pose proof (cls_order _ _ _ Hcl) as Hord.
  pose proof (cls_ends _ _ _ Hcl) as Hends.
  pose proof Hends as (_ & _ & _ & _ & _ & D1 & D2 & _).
  rewrite (sf_degrees _ _ _ _ _ _ Hf) in D1, D2.
  do 4 (split; [assumption|]). split; [lia|].
  do 2 (split; [assumption|]). split.
  - intros m Hm Dm.
    apply (span_degree s' e1 e2 Hends (cls_span _ _ _ Hcl)).
    + rewrite (sf_dimension _ _ _ _ _ _ Hf),
        <- (sf_dimension1 _ _ _ _ _ _ Hf). assumption.
    + rewrite (sf_degrees _ _ _ _ _ _ Hf). assumption.
  - intros i' j' F''. rewrite (cls_feasible _ _ _ Hcl) in F''.
    apply andb_true_iff in F''. rewrite !Nat.eqb_eq in F''. assumption.
Qed.

Lemma C5_witness :
  reachable Cycle trio 1%nat (after Cycle trio [(0, 1)%nat])
  /\ order_add_edge 2%nat 1%nat (after Cycle trio [(0, 1)%nat])
     = Normal (state_of (order_add_edge 2%nat 1%nat (after Cycle trio [(0, 1)%nat])))
  /\ add_edge Cycle 2%nat 1%nat (after Cycle trio [(0, 1)%nat])
     = Normal (after Cycle trio [(0, 1); (2, 1)]%nat)
  /\ feasible_edges (after Cycle trio [(0, 1); (2, 1)]%nat) 0%nat 2%nat = true
  /\ node_degrees (after Cycle trio [(0, 1); (2, 1)]%nat) 0%nat = 1.
Proof.
  split; [exact reach_trio_1|].
  split; [vm_compute; reflexivity|].
  split; [vm_compute; reflexivity|].
  split; [vm_compute; reflexivity|].
  destruct (C5_feasibility_never_returns Cycle trio 1%nat
              (after Cycle trio [(0, 1)%nat]) 2%nat 1%nat
              (state_of (order_add_edge 2%nat 1%nat (after Cycle trio [(0, 1)%nat])))
              (after Cycle trio [(0, 1); (2, 1)]%nat)
              reach_trio_1
              ltac:(vm_compute; reflexivity)
              ltac:(vm_compute; reflexivity)) as [_ H].
  destruct (H 0%nat 2%nat ltac:(vm_compute; reflexivity)
              ltac:(vm_compute; reflexivity))
    as (_ & _ & _ & _ & _ & D & _).
  vm_compute in D. vm_compute. exact D.
Defined.

(** ** C6 *)

(** C6.  After every call of a run, every node's degree is 0, 1 or 2 and
    is the number of committed edges that touch the node; every committed
    pair (i, j) has i < j < N, so no pair is a self-loop or out of range;
    and the number of committed pairs is the number of calls, so no call
    has committed a pair twice. *)
Theorem C6_degrees_and_edges
    (v : variant) (p : OrderProblem) (k : nat) (s : OrderSolution) :
  reachable v p k s ->
  (forall i, (i < dimension s)%nat ->
     0 <= node_degrees s i <= 2
     /\ node_degrees s i = touching (dimension s) (edges_added s) i)
  /\ (forall i j, edges_added s i j = true -> (i < j < dimension s)%nat)
  /\ gcount (dimension s) (edges_added s) = Z.of_nat k
  /\ Z.of_nat (length (committed (dimension s) (edges_added s)))
     = Z.of_nat k.
Proof.
  intros Hr.
  pose proof (stage_sound v s (reachable_stage v p k s Hr)) as Hs.
  split; [|split; [apply (snd_edges s Hs)|]].
  - intros i Hi. split; [apply (snd_range s Hs)|apply (snd_degree s Hs i Hi)].
  - split; [apply (reachable_count v p k s Hr)|].
    rewrite <- gcount_committed; [apply (reachable_count v p k s Hr)|].
    intros i j _ _ E. apply (snd_edges s Hs) in E. lia.
Qed.

Lemma C6_witness :
  reachable Cycle trio 2%nat (after Cycle trio [(0, 1); (2, 1)]%nat)
  /\ gcount 3%nat (edges_added (after Cycle trio [(0, 1); (2, 1)]%nat)) = 2.
Proof.
  split; [exact reach_trio_2|].
  apply (C6_degrees_and_edges Cycle trio 2%nat
           (after Cycle trio [(0, 1); (2, 1)]%nat) reach_trio_2).
Defined.

(** ** C7 *)

(** C7, as stated, fails: on two nodes the only edge is committed through
    the early return of line 155, and both nodes, of degree 1, keep the
    label -1. *)
Lemma C7_counterexample :
  ~ (forall v p k s i,
       reachable v p k s -> (i < dimension s)%nat ->
       1 <= node_degrees s i -> connected_component s i <> -1).
Proof.
  intros H.
  apply (H Cycle duo 1%nat (after Cycle duo [(0, 1)%nat]) 0%nat reach_duo_1).
  - apply le_n_S, le_0_n.
  - vm_compute. discriminate.
  - vm_compute. reflexivity.
Qed.

(** C7, amended.  For every problem with N >= 3 nodes, after every call of
    a run a node is unassigned (label -1) exactly when its degree is 0, a
    node is assigned exactly when a committed edge touches it, and two
    assigned nodes carry the same label exactly when committed edges link
    them. *)
Theorem C7_labels_partition
    (v : variant) (p : OrderProblem) (k : nat) (s : OrderSolution) :
  reachable v p k s -> (3 <= p_dimension p)%nat ->
  (forall i, (i < dimension s)%nat ->
     (connected_component s i = -1 <-> node_degrees s i = 0)
     /\ (connected_component s i <> -1
         <-> 1 <= touching (dimension s) (edges_added s) i))
  /\ (forall i j, (i < dimension s)%nat -> (j < dimension s)%nat ->
        connected_component s i <> -1 ->
        (connected_component s i = connected_component s j
         <-> connected (edges_added s) i j)).
Proof.
  intros Hr Hn.
  destruct (reachable_problem v p k s Hr) as [_ Hd]. rewrite <- Hd in Hn.
  pose proof (reachable_stage v p k s Hr) as Hst.
  pose proof (stage_sound v s Hst) as Hs.
  pose proof (stage_labelled v s Hst Hn) as Hl.
  split.
  - intros i Hi. pose proof (lab_free s Hl i Hi) as Hf.
    split; [assumption|].
    rewrite <- (snd_degree s Hs i Hi).
    pose proof (snd_range s Hs i). split; intros H'.
    + assert (node_degrees s i <> 0) by tauto. lia.
    + intros C. apply Hf in C. lia.
  - intros i j Hi Hj Ci. split.
    + intros E. apply (lab_conn s Hl); assumption.
    + intros Hc. destruct (labelled_connected s i j Hl Hc) as [->|[E _]];
        [reflexivity|assumption].
Qed.

Lemma C7_witness :
  reachable Cycle trio 1%nat (after Cycle trio [(0, 1)%nat])
  /\ (connected_component (after Cycle trio [(0, 1)%nat]) 2%nat = -1
      <-> node_degrees (after Cycle trio [(0, 1)%nat]) 2%nat = 0).
Proof.
  split; [exact reach_trio_1|].
  apply (C7_labels_partition Cycle trio 1%nat
           (after Cycle trio [(0, 1)%nat]) reach_trio_1).
  - apply le_n.
  - vm_compute. apply le_n.
Defined.

(** ** C8 *)

(** C8, as stated, fails in its second part: a call on a committed pair
    is stopped by the feasibility test of line 136, which comes first, and
    not by the duplicate test of line 137. *)
Lemma C8_counterexample :
  ~ (forall v p k s x y,
       reachable v p k s ->
       (x < dimension s)%nat -> (y < dimension s)%nat -> x <> y ->
       edges_added s (Nat.min x y) (Nat.max x y) = true ->
       add_edge v x y s = Raised DuplicateEdgeError s).
Proof.
  intros H.
  specialize (H Cycle trio 1%nat (after Cycle trio [(0, 1)%nat])
                0%nat 1%nat reach_trio_1).
  assert (E : add_edge Cycle 0%nat 1%nat (after Cycle trio [(0, 1)%nat])
              = Raised InfeasibleEdgeError (after Cycle trio [(0, 1)%nat]))
    by (vm_compute; reflexivity).
  rewrite E in H.
  assert (C : Raised InfeasibleEdgeError (after Cycle trio [(0, 1)%nat])
              = Raised DuplicateEdgeError (after Cycle trio [(0, 1)%nat])).
  { apply H.
    - vm_compute. apply le_n_S, le_0_n.
    - vm_compute. apply le_n_S, le_n_S, le_0_n.
    - discriminate.
    - vm_compute. reflexivity. }
  discriminate C.
Qed.

(** C8, amended.  In every run, a call on two distinct nodes whose pair
    is not feasible fails with the error of the feasibility test
    (InfeasibleEdgeError) and writes nothing; a committed pair is never
    feasible, so a call on it fails in this way too, and no call of a run
    fails with the error of the duplicate test (DuplicateEdgeError). *)
Theorem C8_refusals
    (v : variant) (p : OrderProblem) (k : nat) (s : OrderSolution)
    (x y : nat) :
  reachable v p k s ->
  (x < dimension s)%nat -> (y < dimension s)%nat -> x <> y ->
  (feasible_edges s (Nat.min x y) (Nat.max x y) = false ->
   add_edge v x y s = Raised InfeasibleEdgeError s)
  /\ (edges_added s (Nat.min x y) (Nat.max x y) = true ->
      feasible_edges s (Nat.min x y) (Nat.max x y) = false
      /\ add_edge v x y s = Raised InfeasibleEdgeError s)
  /\ (forall s', add_edge v x y s <> Raised DuplicateEdgeError s').
Proof.
  intros Hr Hx Hy Hxy.
  pose proof (reachable_stage v p k s Hr) as Hst.
  split; [apply add_edge_infeasible; assumption|]. split.
  - intros E. pose proof (stage_committed v s _ _ Hst E) as F.
    split; [assumption|]. apply add_edge_infeasible; assumption.
  - intros s' R.
    destruct (feasible_edges s (Nat.min x y) (Nat.max x y)) eqn:F.
    + destruct (add_edge_step v x y s Hst F) as (s1 & s'' & _ & R' & _).
      rewrite R in R'. discriminate.
    + rewrite (add_edge_infeasible v x y s Hx Hy F) in R. discriminate.
Qed.

Lemma C8_witness :
  reachable Cycle trio 1%nat (after Cycle trio [(0, 1)%nat])
  /\ add_edge Cycle 1%nat 0%nat (after Cycle trio [(0, 1)%nat])
     = Raised InfeasibleEdgeError (after Cycle trio [(0, 1)%nat]).
Proof.
  split; [exact reach_trio_1|].
  apply (C8_refusals Cycle trio 1%nat (after Cycle trio [(0, 1)%nat]) 1%nat 0%nat
           reach_trio_1).
  - vm_compute. apply le_n_S, le_n_S, le_0_n.
  - vm_compute. apply le_n_S, le_0_n.
  - discriminate.
  - vm_compute. reflexivity.
Defined.

(** ** C10 *)

(** C10.  In every run, a call that fails leaves the state as it was:
    [edges_added], [node_degrees], [feasible_edges],
    [connected_component] and [complete] are those of before the call. *)
Theorem C10_failed_call_keeps_state
    (v : variant) (p : OrderProblem) (k : nat) (s : OrderSolution)
    (x y : nat) (e : exn) (s' : OrderSolution) :
  reachable v p k s ->
  add_edge v x y s = Raised e s' ->
  s' = s
  /\ edges_added s' = edges_added s
  /\ node_degrees s' = node_degrees s
  /\ feasible_edges s' = feasible_edges s
  /\ connected_component s' = connected_component s
  /\ complete s' = complete s.
Proof.
  intros Hr R.
  pose proof (reachable_stage v p k s Hr) as Hst.
  assert (E : s' = s); [|subst; repeat split].
  destruct (feasible_edges s (Nat.min x y) (Nat.max x y)) eqn:F.
  - destruct (add_edge_step v x y s Hst F) as (s1 & s'' & _ & R' & _).
    rewrite R in R'. discriminate.
  - destruct (add_edge_refused v x y s F) as [R'|R'];
      rewrite R in R'; injection R' as _ <-; reflexivity.
Qed.

Lemma C10_witness :
  reachable Cycle trio 2%nat (after Cycle trio [(0, 1); (2, 1)]%nat)
  /\ add_edge Cycle 1%nat 1%nat (after Cycle trio [(0, 1); (2, 1)]%nat)
     = Raised (AssertionError 136)
         (after Cycle trio [(0, 1); (2, 1)]%nat)
  /\ complete (after Cycle trio [(0, 1); (2, 1)]%nat)
     = complete (after Cycle trio [(0, 1); (2, 1)]%nat).
Proof.
  split; [exact reach_trio_2|]. split; [vm_compute; reflexivity|].
  apply (C10_failed_call_keeps_state Cycle trio 2%nat
           (after Cycle trio [(0, 1); (2, 1)]%nat) 1%nat 1%nat
           (AssertionError 136)
           (after Cycle trio [(0, 1); (2, 1)]%nat) reach_trio_2).
  vm_compute. reflexivity.
Defined.

(** * Further properties of the engine *)

(** ** The validity test *)

(** X1.  [ensure_validity] compares two counts; it passes exactly when
    every committed cell of the grid is a cell of [valid_edges], and it
    fails at line 123 otherwise, leaving the state as it is. *)
Theorem X1_validity_test_exact (s : OrderSolution) :
  (ensure_validity s = Normal s
   <-> forall i j, (i < dimension s)%nat -> (j < dimension s)%nat ->
         edges_added s i j = true -> valid_edges s i j = true)
  /\ (ensure_validity s = Normal s
      \/ ensure_validity s = Raised (AssertionError 123) s).
Proof.
  unfold ensure_validity, assert_, validity_holds. split.
  - rewrite <- gcount_subset.
    destruct (Z.eqb_spec
                (gcount (dimension s)
                   (fun i j => edges_added s i j && valid_edges s i j))
                (gcount (dimension s) (edges_added s))) as [E|E].
    + tauto.
    + split; [discriminate|contradiction].
  - destruct (_ =? _); auto.
Qed.

(** ** Arguments of [add_edge] *)

(** X2.  A call with a node index outside the arrays raises IndexError at
    the first array access, in any state, and writes nothing. *)
Theorem X2_index_out_of_range
    (v : variant) (x y : nat) (s : OrderSolution) :
  (dimension s <= x)%nat \/ (dimension s <= y)%nat ->
  add_edge v x y s = Raised IndexError s.
Proof.
  intros H.
  assert (R : order_add_edge x y s = Raised IndexError s).
  { unfold order_add_edge.
    replace (Nat.ltb (Nat.min x y) (dimension s)
             && Nat.ltb (Nat.max x y) (dimension s)) with false;
      [reflexivity|].
    symmetry. apply andb_false_iff. rewrite !Nat.ltb_ge. lia. }
  destruct v; simpl; unfold tsp_add_edge, topic_add_edge; rewrite R;
    reflexivity.
Qed.

Lemma X2_witness :
  (dimension (init trio) <= 3)%nat
  /\ add_edge Cycle 0 3 (init trio) = Raised IndexError (init trio).
Proof.
  split; [apply le_n|].
  apply (X2_index_out_of_range Cycle 0 3 (init trio)).
  right. apply le_n.
Defined.

(** X3.  The two nodes of a call are sorted first (line 134): a call
    does the same whichever order its arguments have. *)
Theorem X3_argument_order
    (v : variant) (x y : nat) (s : OrderSolution) :
  add_edge v x y s = add_edge v y x s.
Proof.
  assert (R : order_add_edge x y s = order_add_edge y x s)
    by (unfold order_add_edge;
        rewrite (Nat.min_comm x y), (Nat.max_comm x y); reflexivity).
  destruct v; simpl; unfold tsp_add_edge, topic_add_edge; rewrite R;
    reflexivity.
Qed.

(** ** The feasible set *)

Lemma stage_feasible_bounds v s i j :
  stage v s -> feasible_edges s i j = true ->
  (i < j < dimension s)%nat
  /\ node_degrees s i < 2 /\ node_degrees s j < 2
  /\ edges_added s i j = false.
Proof.
  intros Hst F.
  destruct (stage_feasible v s i j Hst F)
    as [(Hs & Hl & Ho & _)|(_ & _ & _ & _ & Hc)].
  - destruct (step_pair s i j Ho F) as (H1 & H2 & H3 & _).
    destruct (step_fresh s i j Hs Hl Ho F) as (H4 & _). auto.
  - pose proof (cls_ends _ _ _ Hc) as (_ & _ & _ & _ & _ & D1 & D2 & _).
    split; [apply (cls_order _ _ _ Hc)|].
    split; [lia|]. split; [lia|]. apply (cls_fresh _ _ _ Hc).
Qed.

(** X4.  In every run, a feasible pair (i, j) has i < j < N, is not
    committed, and joins two nodes of degree below 2; so a node of degree
    2 is in no feasible pair (lines 144-147), and a call on a single node
    is refused by the feasibility test without a write. *)
Theorem X4_feasible_pairs
    (v : variant) (p : OrderProblem) (k : nat) (s : OrderSolution) :
  reachable v p k s ->
  (forall i j, feasible_edges s i j = true ->
     (i < j < dimension s)%nat
     /\ node_degrees s i < 2 /\ node_degrees s j < 2
     /\ edges_added s i j = false)
  /\ (forall i, node_degrees s i = 2 ->
        forall j, feasible_edges s i j = false
                  /\ feasible_edges s j i = false)
  /\ (forall x, (x < dimension s)%nat ->
        add_edge v x x s = Raised InfeasibleEdgeError s).
Proof.
  intros Hr. pose proof (reachable_stage v p k s Hr) as Hst.
  split; [intros i j; apply (stage_feasible_bounds v); assumption|]. split.
  - intros i D j. split.
    + destruct (feasible_edges s i j) eqn:F; [|reflexivity].
      apply (stage_feasible_bounds v) in F; [lia|assumption].
    + destruct (feasible_edges s j i) eqn:F; [|reflexivity].
      apply (stage_feasible_bounds v) in F; [lia|assumption].
  - intros x Hx. apply add_edge_infeasible; try assumption.
    destruct (feasible_edges s (Nat.min x x) (Nat.max x x)) eqn:F;
      [|reflexivity].
    apply (stage_feasible_bounds v) in F; [lia|assumption].
Qed.

Lemma X4_witness :
  reachable Cycle trio 2 (after Cycle trio [(0, 1); (2, 1)]%nat)
  /\ add_edge Cycle 1 1 (after Cycle trio [(0, 1); (2, 1)]%nat)
     = Raised InfeasibleEdgeError (after Cycle trio [(0, 1); (2, 1)]%nat).
Proof.
  split; [exact reach_trio_2|].
  apply (X4_feasible_pairs Cycle trio 2
           (after Cycle trio [(0, 1); (2, 1)]%nat) reach_trio_2).
  vm_compute. apply le_n_S, le_n_S, le_0_n.
Defined.

(** X5.  In the path variant the feasible set is, after every call,
    exactly the set of pairs i < j < N of nodes of degree below 2 that no
    chain of committed edges links: the pairs that keep the structure a
    set of disjoint paths. *)
Theorem X5_path_feasible_exactly
    (p : OrderProblem) (k : nat) (s : OrderSolution) (i j : nat) :
  reachable Path p k s ->
  (feasible_edges s i j = true
   <-> (i < j < dimension s)%nat
       /\ node_degrees s i < 2 /\ node_degrees s j < 2
       /\ ~ connected (edges_added s) i j).
Proof.
  intros Hr. pose proof (reachable_stage Path p k s Hr) as Hst.
  assert (Hopen : sound s -> labelled s -> open s ->
            (feasible_edges s i j = true
             <-> (i < j < dimension s)%nat
                 /\ node_degrees s i < 2 /\ node_degrees s j < 2
                 /\ ~ connected (edges_added s) i j)).
  { intros Hs Hl Ho. split.
    - intros F. destruct (step_pair s i j Ho F) as (H1 & H2 & H3 & _).
      do 3 (split; [assumption|]). apply open_apart; assumption.
    - intros (H1 & H2 & H3 & H4).
      rewrite (opn_feasible s Ho). apply feasible_rule_true.
      do 3 (split; [assumption|]).
      destruct (Z.eq_dec (connected_component s i) (-1)) as [|Ci];
        [left; assumption|right].
      intros E. apply H4. apply (lab_conn s Hl); try assumption; lia. }
  destruct Hst as [Hs Hl Ho _ _|_ _ Hs Hl Ho _ _|? ? Hv|Hv|Hs Hp];
    try discriminate; try (apply Hopen; assumption).
  rewrite (pd_feasible s Hp). split; [discriminate|].
  intros (H1 & _ & _ & H4). exfalso. apply H4.
  rewrite (pd_dimension s Hp) in H1.
  assert (i = 0%nat /\ j = 1%nat) as [-> ->] by lia.
  apply connected_edge. left. rewrite (pd_edges s Hp). reflexivity.
Qed.

Lemma X5_witness :
  reachable Path trio 1 (after Path trio [(0, 1)%nat])
  /\ feasible_edges (after Path trio [(0, 1)%nat]) 1%nat 2%nat = true
  /\ ~ connected (edges_added (after Path trio [(0, 1)%nat])) 1%nat 2%nat.
Proof.
  assert (R : reachable Path trio 1 (after Path trio [(0, 1)%nat]))
    by (apply (reachable_after Path trio [(0, 1)%nat]);
        vm_compute; reflexivity).
  split; [exact R|]. split; [vm_compute; reflexivity|].
  apply (X5_path_feasible_exactly trio 1
           (after Path trio [(0, 1)%nat]) 1%nat 2%nat R).
  vm_compute. reflexivity.
Defined.

(** ** The completion flag *)

Lemma stage_complete v s :
  stage v s -> complete s = true ->
  forall i j, feasible_edges s i j = false.
Proof.
  intros [_ _ _ Hc _|_ _ _ _ Ho _ Hnone|e1 e2 _ _ _ _ Hcl|_ _ _ _ Hcd|_ Hp] C.
  - congruence.
  - apply open_none; assumption.
  - rewrite (cls_complete _ _ _ Hcl) in C. discriminate.
  - apply (cld_feasible _ Hcd).
  - apply (pd_feasible _ Hp).
Qed.

(** X6.  Once [complete] is set the engine is frozen: there is no
    feasible pair, and every later call fails and writes nothing. *)
Theorem X6_complete_is_final
    (v : variant) (p : OrderProblem) (k : nat) (s : OrderSolution) :
  reachable v p k s -> complete s = true ->
  gany (dimension s) (feasible_edges s) = false
  /\ forall x y,
       add_edge v x y s = Raised IndexError s
       \/ add_edge v x y s = Raised InfeasibleEdgeError s.
Proof.
  intros Hr C. pose proof (reachable_stage v p k s Hr) as Hst.
  pose proof (stage_complete v s Hst C) as Hnone. split.
  - apply gany_false. intros. apply Hnone.
  - intros x y. apply add_edge_refused. apply Hnone.
Qed.

Lemma X6_witness :
  reachable Cycle trio 3 (after Cycle trio [(0, 1); (2, 1); (0, 2)]%nat)
  /\ gany 3 (feasible_edges
               (after Cycle trio [(0, 1); (2, 1); (0, 2)]%nat)) = false.
Proof.
  split; [exact reach_trio_3|].
  apply (X6_complete_is_final Cycle trio 3
           (after Cycle trio [(0, 1); (2, 1); (0, 2)]%nat) reach_trio_3).
  vm_compute. reflexivity.
Defined.

(** X7.  In a run, [complete] is set exactly when the variant's
    completion check passes (for the cycle variant on N >= 3 nodes, for
    the path variant on N >= 2 nodes). *)
Theorem X7_flag_agrees_with_check
    (v : variant) (p : OrderProblem) (k : nat) (s : OrderSolution) :
  reachable v p k s ->
  (v = Path /\ (2 <= p_dimension p)%nat) \/ (3 <= p_dimension p)%nat ->
  (complete s = true <-> ensure_completion v s = Normal s).
Proof.
  intros Hr Hn. split.
  - intros C.
    destruct (reachable_problem v p k s Hr) as [_ Hd]. rewrite <- Hd in Hn.
    destruct (reachable_stage v p k s Hr)
      as [Hs Hl Ho Hc Hany|Hv Hn' Hs Hl Ho Hc Hnone|e1 e2 Hv Hn' Hs Hl Hcl
         |Hv Hn' Hs Hl Hcd|Hs Hp].
    + congruence.
    + subst v. apply path_completion; try assumption. lia.
    + rewrite (cls_complete _ _ _ Hcl) in C. discriminate.
    + subst v. apply closed_completion; try assumption. lia.
    + pose proof (pd_dimension _ Hp) as H2.
      destruct Hn as [[-> _]|Hn]; [|lia].
      apply pair_completion; assumption.
  - intros E. destruct v; simpl in E.
    + apply tsp_completion_inv in E. tauto.
    + apply topic_completion_inv in E. tauto.
Qed.

Lemma X7_witness :
  reachable Path duo 1 (after Path duo [(0, 1)%nat])
  /\ (complete (after Path duo [(0, 1)%nat]) = true
      <-> ensure_completion Path (after Path duo [(0, 1)%nat])
          = Normal (after Path duo [(0, 1)%nat])).
Proof.
  split; [exact reach_path_duo_1|].
  apply (X7_flag_agrees_with_check Path duo 1
           (after Path duo [(0, 1)%nat]) reach_path_duo_1).
  left. split; [reflexivity|]. apply le_n.
Defined.

(** ** How many calls a run can have *)

Lemma vsum_minus_two n (i j : nat) :
  (i < n)%nat -> (j < n)%nat ->
  vsum n (fun x => 2 + (-1) * (b2z (Nat.eqb x i) + b2z (Nat.eqb x j)))
  = 2 * Z.of_nat n - 2.
Proof.
  intros Hi Hj.
  rewrite vsum_plus, vsum_const, vsum_scale, vsum_plus, !vsum_point
    by assumption.
  lia.
Qed.

(** Two nodes of degree below 2 leave room for an edge. *)
Lemma room_count s i j :
  sound s -> (i < dimension s)%nat -> (j < dimension s)%nat -> i <> j ->
  node_degrees s i < 2 -> node_degrees s j < 2 ->
  gcount (dimension s) (edges_added s) <= Z.of_nat (dimension s) - 1.
Proof.
  intros Hs Hi Hj Hij Di Dj.
  pose proof (sound_handshake s Hs) as Hh.
  pose proof (vsum_minus_two (dimension s) i j Hi Hj) as Hm.
  assert (Hle : vsum (dimension s) (node_degrees s)
                <= vsum (dimension s)
                     (fun x => 2 + (-1) * (b2z (Nat.eqb x i)
                                           + b2z (Nat.eqb x j)))).
  { apply vsum_le. intros x _. pose proof (snd_range s Hs x).
    destruct (Nat.eqb_spec x i); destruct (Nat.eqb_spec x j); subst;
      simpl; lia. }
  lia.
Qed.

Lemma small_count s :
  sound s -> (dimension s < 2)%nat ->
  gcount (dimension s) (edges_added s) = 0.
Proof.
  intros Hs Hn. unfold gcount. apply vsum_zero. intros i Hi.
  apply vsum_zero. intros j Hj.
  destruct (edges_added s i j) eqn:E; [|reflexivity].
  apply (snd_edges s Hs) in E. lia.
Qed.

Lemma stage_count v s :
  stage v s ->
  (complete s = false ->
   gcount (dimension s) (edges_added s) <= Z.of_nat (dimension s - 1))
  /\ (complete s = true ->
      (2 <= dimension s)%nat
      /\ gcount (dimension s) (edges_added s)
         = match v with
           | Cycle => if Nat.eqb (dimension s) 2 then 1
                      else Z.of_nat (dimension s)
           | Path => Z.of_nat (dimension s) - 1
           end).
Proof.
  intros [Hs Hl Ho Hc Hany|Hv Hn Hs Hl Ho Hc Hnone|e1 e2 Hv Hn Hs Hl Hcl
         |Hv Hn Hs Hl Hcd|Hs Hp].
  - split; [intros _|congruence].
    destruct (Nat.le_gt_cases 2 (dimension s)) as [H2|H2].
    + apply Hany, gany_true in H2. destruct H2 as (i & j & Hi & Hj & F).
      destruct (step_pair s i j Ho F) as (H1 & H3 & H4 & _).
      pose proof (room_count s i j Hs Hi Hj ltac:(lia) H3 H4). lia.
    + rewrite (small_count s Hs H2). lia.
  - split; [congruence|intros _]. split; [lia|]. subst v.
    pose proof (path_completion s Hs Hl Ho Hc ltac:(lia) Hnone) as E.
    apply topic_completion_inv in E. tauto.
  - split; [intros _|rewrite (cls_complete _ _ _ Hcl); discriminate].
    rewrite (span_edges s e1 e2 Hs (cls_ends _ _ _ Hcl) (cls_span _ _ _ Hcl)).
    lia.
  - split; [rewrite (cld_complete _ Hcd); discriminate|intros _].
    split; [lia|]. subst v. rewrite (closed_edges s Hs Hcd).
    destruct (Nat.eqb_spec (dimension s) 2); [lia|reflexivity].
  - split; [rewrite (pd_complete _ Hp); discriminate|intros _].
    pose proof (pd_dimension s Hp) as H2. split; [lia|].
    pose proof (pair_completion s Hs Hp) as E.
    apply topic_completion_inv in E.
    destruct E as (_ & _ & _ & _ & _ & E & _). rewrite E, H2.
    destruct v; reflexivity.
Qed.

(** X8.  A run on N nodes has at most N - 1 successful calls before
    [complete] is set.  [complete] is set after exactly N - 1 calls in
    the path variant and after exactly N calls in the cycle variant (after
    the single call when N = 2); by X6 no call succeeds after that. *)
Theorem X8_number_of_calls
    (v : variant) (p : OrderProblem) (k : nat) (s : OrderSolution) :
  reachable v p k s ->
  (complete s = false -> (k <= p_dimension p - 1)%nat)
  /\ (complete s = true ->
      (2 <= p_dimension p)%nat
      /\ k = match v with
             | Cycle => if Nat.eqb (p_dimension p) 2 then 1%nat
                        else p_dimension p
             | Path => (p_dimension p - 1)%nat
             end).
Proof.
  intros Hr. destruct (reachable_problem v p k s Hr) as [_ Hd].
  pose proof (reachable_count v p k s Hr) as Hk.
  destruct (stage_count v s (reachable_stage v p k s Hr)) as [H0 H1].
  rewrite Hd in *. split.
  - intros C. specialize (H0 C). lia.
  - intros C. destruct (H1 C) as [Hn E]. split; [assumption|].
    destruct v; [destruct (Nat.eqb (p_dimension p) 2)|]; lia.
Qed.

Lemma X8_witness :
  reachable Cycle trio 3 (after Cycle trio [(0, 1); (2, 1); (0, 2)]%nat)
  /\ complete (after Cycle trio [(0, 1); (2, 1); (0, 2)]%nat) = true
  /\ 3%nat = p_dimension trio.
Proof.
  split; [exact reach_trio_3|]. split; [vm_compute; reflexivity|].
  apply (X8_number_of_calls Cycle trio 3
           (after Cycle trio [(0, 1); (2, 1); (0, 2)]%nat) reach_trio_3).
  vm_compute. reflexivity.
Defined.

(** ** The validity test in a run *)

(** X9.  The validity test that ends [__init__] and [add_edge] never
    fails in a run: every state of a run passes [ensure_validity], and a
    fresh engine accepts any two distinct nodes as its first edge. *)
Theorem X9_validity_never_fails
    (v : variant) (p : OrderProblem) (k : nat) (s : OrderSolution) :
  reachable v p k s ->
  ensure_validity s = Normal s
  /\ ensure_validity (init p) = Normal (init p)
  /\ forall x y, (x < p_dimension p)%nat -> (y < p_dimension p)%nat ->
       x <> y ->
       exists s', add_edge v x y (init p) = Normal s'
                  /\ reachable v p 1 s'.
Proof.
  intros Hr. split; [|split].
  - unfold ensure_validity, assert_.
    rewrite (sound_validity s (stage_sound v s (reachable_stage v p k s Hr))).
    reflexivity.
  - unfold ensure_validity, assert_.
    rewrite (sound_validity (init p) (init_sound p)). reflexivity.
  - intros x y Hx Hy Hxy.
    destruct (add_edge_step v x y (init p) (init_stage p v)) as (s1 & s' & _ & R & _).
    + simpl. unfold upper. apply andb_true_iff. rewrite !Nat.ltb_lt. lia.
    + exists s'. split; [assumption|].
      apply (reach_step v p 0 (init p) x y s'); [apply reach_init|assumption].
Qed.

Lemma X9_witness :
  reachable Cycle trio 2 (after Cycle trio [(0, 1); (2, 1)]%nat)
  /\ ensure_validity (after Cycle trio [(0, 1); (2, 1)]%nat)
     = Normal (after Cycle trio [(0, 1); (2, 1)]%nat).
Proof.
  split; [exact reach_trio_2|].
  apply (X9_validity_never_fails Cycle trio 2
           (after Cycle trio [(0, 1); (2, 1)]%nat) reach_trio_2).
Defined.

(** ** The cost of a partial tour *)

Lemma cost_sum_gset n (e : grid) c a b :
  (a < n)%nat -> (b < n)%nat -> e a b = false ->
  cost_sum n (gset e a b true) c = cost_sum n e c + c a b.
Proof.
  intros Ha Hb H. unfold cost_sum.
  rewrite (vsum_ext n _
            (fun i => vsum n (fun j => b2z (e i j) * c i j)
                      + c a b * b2z (Nat.eqb i a))).
  - rewrite vsum_plus, vsum_scale, vsum_point by assumption. lia.
  - intros i _.
    rewrite (vsum_ext n _
              (fun j => b2z (e i j) * c i j
                        + (c a b * b2z (Nat.eqb i a)) * b2z (Nat.eqb j b))).
    + rewrite vsum_plus, vsum_scale, vsum_point by assumption. lia.
    + intros j _. unfold gset.
      destruct (Nat.eqb_spec i a) as [->|]; destruct (Nat.eqb_spec j b) as [->|];
        cbn [andb b2z]; try rewrite H; cbn [b2z]; lia.
Qed.

Lemma wrap64_add x y : wrap64 (wrap64 x + y) = wrap64 (x + y).
Proof.
  unfold wrap64.
  replace ((x + 2 ^ 63) mod 2 ^ 64 - 2 ^ 63 + y + 2 ^ 63)
    with ((x + 2 ^ 63) mod 2 ^ 64 + y) by lia.
  rewrite Zplus_mod_idemp_l.
  replace (x + 2 ^ 63 + y) with (x + y + 2 ^ 63) by lia. reflexivity.
Qed.

Lemma cost_step p k s s' x y :
  reachable Cycle p k s ->
  add_edge Cycle x y s = Normal s' ->
  tsp_cost s'
  = wrap64 (tsp_cost s + p_costs p (Nat.min x y) (Nat.max x y)).
Proof.
  intros Hr R.
  destruct (reachable_problem Cycle p k s Hr) as [Hp _].
  destruct (add_edge_normal Cycle x y s s'
              (reachable_stage Cycle p k s Hr) R) as (_ & s1 & _ & Hf).
  unfold tsp_cost.
  rewrite (sf_problem _ _ _ _ _ _ Hf), (sf_dimension _ _ _ _ _ _ Hf),
    (sf_edges _ _ _ _ _ _ Hf), (sf_edges1 _ _ _ _ _ _ Hf), Hp.
  pose proof (sf_pair _ _ _ _ _ _ Hf).
  rewrite cost_sum_gset by (try lia; apply (sf_fresh _ _ _ _ _ _ Hf)).
  symmetry. apply wrap64_add.
Qed.

Lemma cost_init p : tsp_cost (init p) = 0.
Proof.
  unfold tsp_cost, cost_sum. simpl. rewrite vsum_zero; [reflexivity|].
  intros i _. apply vsum_zero. reflexivity.
Qed.

(** X10.  [cost] of a fresh cycle engine is 0, and every successful call
    adds the cost of its pair, cost[min][max], in 64-bit arithmetic. *)
Theorem X10_cost_grows_by_the_pair
    (p : OrderProblem) (k : nat) (s s' : OrderSolution) (x y : nat) :
  reachable Cycle p k s ->
  tsp_add_edge x y s = Normal s' ->
  tsp_cost (init p) = 0
  /\ tsp_cost s'
     = wrap64 (tsp_cost s + p_costs p (Nat.min x y) (Nat.max x y)).
Proof.
  intros Hr R. split; [apply cost_init|].
  apply (cost_step p k s s' x y Hr R).
Qed.

Lemma X10_witness :
  reachable Cycle far_trio 2 (after Cycle far_trio [(0, 1); (2, 1)]%nat)
  /\ tsp_cost (after Cycle far_trio [(0, 1); (2, 1); (0, 2)]%nat)
     = wrap64 (tsp_cost (after Cycle far_trio [(0, 1); (2, 1)]%nat)
               + 2 ^ 62).
Proof.
  assert (R : reachable Cycle far_trio 2
                (after Cycle far_trio [(0, 1); (2, 1)]%nat))
    by (apply (reachable_after Cycle far_trio [(0, 1); (2, 1)]%nat);
        vm_compute; reflexivity).
  split; [exact R|].
  apply (X10_cost_grows_by_the_pair far_trio 2
           (after Cycle far_trio [(0, 1); (2, 1)]%nat)
           (after Cycle far_trio [(0, 1); (2, 1); (0, 2)]%nat) 0 2 R).
  vm_compute. reflexivity.
Defined.

(** ** Building a path node by node *)

(** A successful call raises the degree of its two nodes by one. *)
Lemma step_degrees v s a b s1 s' :
  stage v s -> step_facts v s a b s1 s' ->
  forall x, (x < dimension s)%nat ->
    node_degrees s' x
    = node_degrees s x + b2z (Nat.eqb x a) + b2z (Nat.eqb x b).
Proof.
  intros Hst Hf x Hx.
  pose proof (stage_sound v s Hst) as Hs.
  pose proof (stage_sound v s' (sf_stage _ _ _ _ _ _ Hf)) as Hs'.
  pose proof (sf_pair _ _ _ _ _ _ Hf) as Hab.
  pose proof (sf_dimension _ _ _ _ _ _ Hf) as Hd.
  rewrite (snd_degree s' Hs') by (rewrite Hd; assumption).
  rewrite Hd, (sf_edges _ _ _ _ _ _ Hf), (sf_edges1 _ _ _ _ _ _ Hf).
  rewrite touching_gset_true; try lia.
  - rewrite <- (snd_degree s Hs) by assumption. reflexivity.
  - apply (sf_fresh _ _ _ _ _ _ Hf).
  - destruct (edges_added s b a) eqn:E; [|reflexivity].
    apply (snd_edges s Hs) in E. lia.
Qed.

Lemma sorted_degrees (x y z : nat) :
  b2z (Nat.eqb z (Nat.min x y)) + b2z (Nat.eqb z (Nat.max x y))
  = b2z (Nat.eqb z x) + b2z (Nat.eqb z y).
Proof.
  destruct (Nat.min_spec x y) as [[H' ->]|[H' ->]];
    destruct (Nat.max_spec x y) as [[H ->]|[H ->]]; lia.
Qed.

(** A node with a free end and an untouched node can always be joined. *)
Lemma walk_step v s latest this :
  stage v s -> (latest < dimension s)%nat -> (this < dimension s)%nat ->
  latest <> this -> node_degrees s latest <= 1 -> node_degrees s this = 0 ->
  feasible_edges s (Nat.min latest this) (Nat.max latest this) = true.
Proof.
  intros Hst Hl Ht Hne Dl Dt.
  assert (Hopen : labelled s -> open s ->
            feasible_edges s (Nat.min latest this) (Nat.max latest this)
            = true).
  { intros Hlab Ho. rewrite (opn_feasible s Ho). apply feasible_rule_true.
    pose proof (proj2 (lab_free s Hlab this Ht) Dt) as Ct.
    destruct (Nat.min_spec latest this) as [[H1 ->]|[H1 ->]];
      destruct (Nat.max_spec latest this) as [[H2 ->]|[H2 ->]];
      try (exfalso; lia).
    - do 3 (split; [lia|]).
      destruct (Z.eq_dec (connected_component s latest) (-1));
        [left; assumption|right; congruence].
    - do 3 (split; [lia|]). left. assumption. }
  destruct Hst as [Hs Hlab Ho _ _|_ _ Hs Hlab Ho _ _|e1 e2 _ _ Hs Hlab Hc
                   |_ _ Hs Hlab Hc|Hs Hp].
  - apply Hopen; assumption.
  - apply Hopen; assumption.
  - exfalso. apply (cls_label s e1 e2 Hc).
    rewrite <- (cls_span s e1 e2 Hc this Ht).
    apply (lab_free s Hlab this Ht). assumption.
  - rewrite (cld_degree s Hc this Ht) in Dt. discriminate.
  - exfalso. rewrite (pd_dimension s Hp) in Ht.
    destruct (pd_degree s Hp) as [D0 D1].
    assert (this = 0%nat \/ this = 1%nat) as [->| ->] by lia; lia.
Qed.

Lemma last_cons (A : Type) (x y : A) l : last (x :: l) y = last l x.
Proof.
  revert x y. induction l as [|z l IH]; intros x y; [reflexivity|].
  change (last (x :: z :: l) y) with (last (z :: l) y).
  rewrite !IH. reflexivity.
Qed.

Lemma walk v p : forall rest k s latest,
  reachable v p k s ->
  (latest < dimension s)%nat -> node_degrees s latest <= 1 ->
  NoDup (latest :: rest) ->
  (forall x, In x rest -> (x < dimension s)%nat /\ node_degrees s x = 0) ->
  exists s',
    run v (tour_calls latest rest) s = Normal s'
    /\ reachable v p (k + length rest) s'
    /\ (forall i j, edges_added s i j = true -> edges_added s' i j = true)
    /\ (forall x, (x < dimension s)%nat -> ~ In x (latest :: rest) ->
          node_degrees s' x = node_degrees s x)
    /\ (rest <> [] ->
        node_degrees s' latest = node_degrees s latest + 1
        /\ node_degrees s' (last rest latest) = 1
        /\ forall x, In x rest -> x <> last rest latest ->
             node_degrees s' x = 2)
    /\ connected (edges_added s') latest (last rest latest).
Proof.
  induction rest as [|this rest IH]; intros k s latest Hr Hl Dl Hnd Hrest.
  - exists s. simpl. rewrite Nat.add_0_r.
    repeat split; auto; try contradiction. apply conn_refl.
  - pose proof (reachable_stage v p k s Hr) as Hst.
    destruct (Hrest this (in_eq _ _)) as [Ht Dt].
    apply NoDup_cons_iff in Hnd. destruct Hnd as [Hnl Hnd].
    pose proof Hnd as Hnd'. apply NoDup_cons_iff in Hnd'.
    destruct Hnd' as [Hnt _].
    assert (Hne : latest <> this) by (intros ->; apply Hnl, in_eq).
    pose proof (walk_step v s latest this Hst Hl Ht Hne Dl Dt) as F.
    destruct (add_edge_step v latest this s Hst F) as (s1 & s2 & _ & R & Hf).
    pose proof (step_degrees v s _ _ s1 s2 Hst Hf) as D.
    pose proof (sf_dimension _ _ _ _ _ _ Hf) as Hd.
    assert (D' : forall x, (x < dimension s)%nat ->
              node_degrees s2 x
              = node_degrees s x + b2z (Nat.eqb x latest)
                + b2z (Nat.eqb x this)).
    { intros x Hx. rewrite (D x Hx).
      pose proof (sorted_degrees latest this x). lia. }
    assert (E2 : forall i j, edges_added s i j = true ->
              edges_added s2 i j = true).
    { intros i j E. rewrite (sf_edges _ _ _ _ _ _ Hf),
        (sf_edges1 _ _ _ _ _ _ Hf). unfold gset.
      destruct (_ && _); [reflexivity|assumption]. }
    assert (Hr2 : reachable v p (S k) s2)
      by (apply (reach_step v p k s latest this s2); assumption).
    assert (Dt2 : node_degrees s2 this = 1).
    { rewrite (D' this Ht), Dt, Nat.eqb_refl.
      destruct (Nat.eqb_spec this latest); [congruence|reflexivity]. }
    destruct (IH (S k) s2 this Hr2) as (s' & Rn & Hr' & E' & Dout & Din & Cn).
    + rewrite Hd. assumption.
    + lia.
    + assumption.
    + intros x Hx. destruct (Hrest x (in_cons _ _ _ Hx)) as [Hx' Dx].
      rewrite Hd. split; [assumption|]. rewrite (D' x Hx'), Dx.
      destruct (Nat.eqb_spec x latest) as [->|];
        [exfalso; apply Hnl, in_cons, Hx|].
      destruct (Nat.eqb_spec x this) as [->|]; [contradiction|reflexivity].
    + rewrite Hd in Dout.
      assert (Dl' : node_degrees s' latest = node_degrees s latest + 1).
      { rewrite (Dout latest Hl Hnl), (D' latest Hl), Nat.eqb_refl.
        destruct (Nat.eqb_spec latest this); [contradiction|]. simpl. lia. }
      exists s'. rewrite last_cons. split; [|split; [|split; [|split; [|split]]]].
      * simpl. rewrite R. exact Rn.
      * replace (k + length (this :: rest))%nat with (S k + length rest)%nat
          by (simpl; lia). assumption.
      * auto.
      * intros x Hx Hnx. rewrite (Dout x Hx), (D' x Hx).
        -- destruct (Nat.eqb_spec x latest) as [->|];
             [exfalso; apply Hnx, in_eq|].
           destruct (Nat.eqb_spec x this) as [->|];
             [exfalso; apply Hnx, in_cons, in_eq|]. simpl. lia.
        -- intros Hin. apply Hnx, in_cons, Hin.
      * intros _. split; [assumption|].
        destruct rest as [|y rest'].
        -- simpl in *. injection Rn as <-. split; [assumption|].
           intros x [<-|[]] Hx. contradiction.
        -- destruct Din as (D1 & D2 & D3); [discriminate|].
           split; [assumption|].
           intros x [<-|Hx] Hxl; [lia|]. apply D3; assumption.
      * apply connected_trans with this; [|assumption].
        apply connected_edge. destruct (Nat.lt_ge_cases latest this).
        -- left. apply E'. rewrite (sf_edges _ _ _ _ _ _ Hf),
             (sf_edges1 _ _ _ _ _ _ Hf).
           rewrite Nat.min_l, Nat.max_r by lia.
           unfold gset. rewrite !Nat.eqb_refl. reflexivity.
        -- right. apply E'. rewrite (sf_edges _ _ _ _ _ _ Hf),
             (sf_edges1 _ _ _ _ _ _ Hf).
           rewrite Nat.min_r, Nat.max_l by lia.
           unfold gset. rewrite !Nat.eqb_refl. reflexivity.
Qed.

(** ** A run of calls and its cost *)

Lemma run_app v l1 l2 s :
  run v (l1 ++ l2) s = (s' <- run v l1 s ;; run v l2 s').
Proof.
  revert s. induction l1 as [|[a b] l1 IH]; intros s; [reflexivity|].
  simpl. destruct (add_edge v a b s) as [s1|]; simpl; [apply IH|reflexivity].
Qed.

Lemma total_cons c x l :
  total c (x :: l) = c (fst x) (snd x) + total c l.
Proof. reflexivity. Qed.

Lemma run_cost p calls : forall k s s',
  reachable Cycle p k s ->
  run Cycle calls s = Normal s' ->
  tsp_cost s'
  = wrap64 (tsp_cost s + total (p_costs p) (map sorted_pair calls)).
Proof.
  induction calls as [|[a b] calls IH]; intros k s s' Hr R.
  - simpl in R. injection R as <-.
    change (total (p_costs p) (map sorted_pair [])) with 0.
    unfold tsp_cost. rewrite wrap64_add, Z.add_0_r. reflexivity.
  - change (run Cycle ((a, b) :: calls) s)
      with (s1 <- add_edge Cycle a b s ;; run Cycle calls s1) in R.
    destruct (add_edge Cycle a b s) as [s1|] eqn:E; [|discriminate].
    cbn [bind] in R.
    rewrite (IH (S k) s1 s' (reach_step Cycle p k s a b s1 Hr E) R).
    rewrite (cost_step p k s s1 a b Hr E), wrap64_add.
    cbn [map]. rewrite total_cons.
    change (fst (sorted_pair (a, b))) with (Nat.min a b).
    change (snd (sorted_pair (a, b))) with (Nat.max a b).
    f_equal. lia.
Qed.

(** ** Visiting every node once *)

Lemma last_in (A : Type) (l : list A) d : l <> [] -> In (last l d) l.
Proof.
  induction l as [|x l IH]; intros H; [contradiction|].
  destruct l as [|y l]; [left; reflexivity|].
  right. apply IH. discriminate.
Qed.

Lemma all_nodes n (l : list nat) :
  NoDup l -> (forall x, In x l -> (x < n)%nat) -> length l = n ->
  forall x, (x < n)%nat -> In x l.
Proof.
  intros Hnd Hb Hlen x Hx.
  apply (NoDup_length_incl Hnd (l' := seq 0 n)).
  - rewrite length_seq. lia.
  - intros y Hy. apply in_seq. specialize (Hb y Hy). lia.
  - apply in_seq. lia.
Qed.

Lemma visit_all v p first_node rest :
  (2 <= p_dimension p)%nat ->
  NoDup (first_node :: rest) ->
  (forall x, In x (first_node :: rest) -> (x < p_dimension p)%nat) ->
  length rest = (p_dimension p - 1)%nat ->
  exists s,
    run v (tour_calls first_node rest) (init p) = Normal s
    /\ reachable v p (p_dimension p - 1) s
    /\ spans s first_node (last rest first_node).
Proof.
  intros Hn Hnd Hb Hlen.
  destruct (walk v p rest 0 (init p) first_node (reach_init v p))
    as (s & R & Hr & _ & Dout & Din & Hc).
  - apply Hb, in_eq.
  - simpl. lia.
  - assumption.
  - intros x Hx. split; [apply Hb, in_cons, Hx|reflexivity].
  - exists s. rewrite Hlen in Hr. simpl in Hr.
    split; [assumption|]. split; [assumption|].
    destruct (reachable_problem v p _ s Hr) as [_ Hd].
    assert (Hne : rest <> []) by (intros ->; simpl in Hlen; lia).
    destruct (Din Hne) as (D1 & D2 & D3). simpl in D1.
    pose proof (last_in nat rest first_node Hne) as Hl.
    apply NoDup_cons_iff in Hnd. destruct Hnd as [Hnf Hnd].
    unfold spans. rewrite Hd.
    split; [apply Hb, in_eq|]. split; [apply Hb, in_cons, Hl|].
    split; [intros E; apply Hnf; rewrite E; assumption|].
    split; [assumption|]. split; [assumption|]. split; [|assumption].
    intros x Hx X1 X2.
    assert (Hin : In x (first_node :: rest)).
    { apply (all_nodes (p_dimension p)); try assumption.
      - constructor; assumption.
      - simpl. lia. }
    destruct Hin as [E|Hin]; [congruence|]. apply D3; assumption.
Qed.

(** ** What a state that spans all nodes can be *)

Lemma spans_no_rule s e1 e2 :
  labelled s -> spans s e1 e2 -> forall i j, feasible_rule s i j = false.
Proof.
  intros Hl (H1 & H2 & Hne & D1 & D2 & Drest & Hc) i j.
  destruct (feasible_rule s i j) eqn:F; [|reflexivity]. exfalso.
  apply feasible_rule_true in F. destruct F as (Hij & Di & Dj & Hcc).
  assert (Hi : i = e1 \/ i = e2).
  { destruct (Nat.eq_dec i e1); [tauto|]. destruct (Nat.eq_dec i e2); [tauto|].
    rewrite (Drest i) in Di by (assumption || lia). lia. }
  assert (Hj : j = e1 \/ j = e2).
  { destruct (Nat.eq_dec j e1); [tauto|]. destruct (Nat.eq_dec j e2); [tauto|].
    rewrite (Drest j) in Dj by (assumption || lia). lia. }
  destruct (labelled_connected s e1 e2 Hl Hc) as [E|[E1 E2]]; [contradiction|].
  destruct Hi as [-> | ->]; destruct Hj as [-> | ->]; lia.
Qed.

Lemma spans_not_open s e1 e2 :
  labelled s -> open s -> spans s e1 e2 ->
  gany (dimension s) (feasible_edges s) = false.
Proof.
  intros Hl Ho Hsp. apply gany_false. intros i j _ _.
  rewrite (opn_feasible s Ho). apply (spans_no_rule s e1 e2); assumption.
Qed.

(** In the path variant such a state is complete. *)
Lemma spans_path s e1 e2 :
  stage Path s -> spans s e1 e2 -> topic_ensure_completion s = Normal s.
Proof.
  intros Hst Hsp. pose proof Hsp as (H1 & H2 & Hne & _).
  assert (Hn : (2 <= dimension s)%nat) by lia.
  destruct Hst as [Hs Hl Ho _ Hany|_ _ Hs Hl Ho Hc Hnone|? ? Hv|Hv|Hs Hp];
    try discriminate.
  - rewrite (spans_not_open s e1 e2 Hl Ho Hsp) in Hany.
    specialize (Hany Hn). discriminate.
  - apply path_completion; assumption.
  - apply pair_completion; assumption.
Qed.

(** In the cycle variant it waits for the edge between the two ends. *)
Lemma spans_cycle s e1 e2 :
  stage Cycle s -> (3 <= dimension s)%nat -> spans s e1 e2 ->
  closing s (Nat.min e1 e2) (Nat.max e1 e2).
Proof.
  intros Hst Hn Hsp. pose proof Hsp as (H1 & H2 & Hne & D1 & D2 & Drest & _).
  destruct Hst as [Hs Hl Ho _ Hany|Hv|a b _ _ Hs Hl Hc|_ _ Hs Hl Hc|Hs Hp];
    try discriminate.
  - rewrite (spans_not_open s e1 e2 Hl Ho Hsp) in Hany.
    specialize (Hany ltac:(lia)). discriminate.
  - pose proof (cls_order s a b Hc) as Hab.
    destruct (cls_ends s a b Hc) as (Ha & Hb & _ & _ & _ & Da & Db & _).
    assert (Ea : a = e1 \/ a = e2).
    { destruct (Nat.eq_dec a e1); [tauto|].
      destruct (Nat.eq_dec a e2); [tauto|].
      rewrite (Drest a) in Da by assumption. discriminate. }
    assert (Eb : b = e1 \/ b = e2).
    { destruct (Nat.eq_dec b e1); [tauto|].
      destruct (Nat.eq_dec b e2); [tauto|].
      rewrite (Drest b) in Db by assumption. discriminate. }
    replace (Nat.min e1 e2) with a by lia.
    replace (Nat.max e1 e2) with b by lia. assumption.
  - rewrite (cld_degree s Hc e1 H1) in D1. discriminate.
  - rewrite (pd_dimension s Hp) in Hn. lia.
Qed.

Lemma connected_sorted e x y :
  connected e x y -> connected e (Nat.min y x) (Nat.max y x).
Proof.
  intros H.
  destruct (Nat.min_spec y x) as [[H1 ->]|[H1 ->]];
    destruct (Nat.max_spec y x) as [[H2 ->]|[H2 ->]]; try lia.
  - apply connected_sym. assumption.
  - assumption.
Qed.

Lemma not_complete_check s :
  complete s = false -> tsp_ensure_completion s <> Normal s.
Proof.
  intros C E. apply tsp_completion_inv in E. destruct E as (_ & _ & _ & _ & E & _).
  congruence.
Qed.

(** ** Reading a tour *)

(** X11.  On N >= 3 nodes, a tour file that lists every node once and
    ends with the line -1 is read without an exception: the engine that
    [TSPSolution.__init__] leaves has made N successful calls, passes the
    completion check, and its [cost] is the sum of the costs of the legs
    of the tour, in 64-bit arithmetic. *)
Theorem X11_closed_tour_loads
    (p : OrderProblem) (first_node : nat) (rest : list nat) :
  (3 <= p_dimension p)%nat ->
  NoDup (first_node :: rest) ->
  (forall x, In x (first_node :: rest) -> (x < p_dimension p)%nat) ->
  length rest = (p_dimension p - 1)%nat ->
  exists s,
    load_tour p first_node rest true = Normal s
    /\ reachable Cycle p (p_dimension p) s
    /\ tsp_ensure_completion s = Normal s
    /\ tsp_cost s
       = wrap64 (total (p_costs p)
                   (map sorted_pair (legs first_node rest true))).
Proof.
  intros Hn Hnd Hb Hlen.
  destruct (visit_all Cycle p first_node rest ltac:(lia) Hnd Hb Hlen)
    as (s & R & Hr & Hsp).
  pose proof (reachable_stage _ _ _ _ Hr) as Hst.
  destruct (reachable_problem _ _ _ _ Hr) as [_ Hd].
  pose proof (spans_cycle s _ _ Hst ltac:(lia) Hsp) as Hc.
  remember (last rest first_node) as l eqn:El.
  assert (F : feasible_edges s (Nat.min l first_node) (Nat.max l first_node)
              = true).
  { rewrite (cls_feasible _ _ _ Hc), (Nat.min_comm l), (Nat.max_comm l),
      !Nat.eqb_refl. reflexivity. }
  destruct (add_edge_step Cycle l first_node s Hst F)
    as (s1 & s2 & _ & R2 & Hf).
  assert (Hr2 : reachable Cycle p (p_dimension p) s2).
  { pose proof (reach_step Cycle p _ s l first_node s2 Hr R2) as H.
    replace (S (p_dimension p - 1)) with (p_dimension p) in H by lia.
    exact H. }
  assert (Hcd : closed s2).
  { destruct (sf_apart _ _ _ _ _ _ Hf) as [Hno|(_ & _ & H)]; [|assumption].
    exfalso. apply Hno. apply connected_sorted.
    destruct Hsp as (_ & _ & _ & _ & _ & _ & H). exact H. }
  pose proof (stage_sound _ _ (reachable_stage _ _ _ _ Hr2)) as Hs2.
  assert (L : run Cycle (legs first_node rest true) (init p) = Normal s2).
  { unfold legs. rewrite run_app, R, <- El. cbn [bind run].
    rewrite R2. reflexivity. }
  exists s2. split; [|split; [assumption|split]].
  - unfold load_tour, ensure_validity at 1, assert_.
    rewrite (sound_validity _ (init_sound p)). cbn [bind]. rewrite R.
    cbn [bind]. rewrite <- El.
    change (tsp_add_edge l first_node s) with (add_edge Cycle l first_node s).
    rewrite R2. cbn [bind].
    unfold ensure_validity, assert_. rewrite (sound_validity _ Hs2).
    reflexivity.
  - apply closed_completion; try assumption.
    destruct (reachable_problem _ _ _ _ Hr2) as [_ Hd2]. lia.
  - rewrite (run_cost p _ 0 (init p) s2 (reach_init Cycle p) L), cost_init.
    reflexivity.
Qed.

Lemma X11_witness :
  exists s,
    load_tour trio 2 [0; 1]%nat true = Normal s
    /\ reachable Cycle trio 3 s
    /\ tsp_ensure_completion s = Normal s
    /\ tsp_cost s = 3.
Proof.
  apply (X11_closed_tour_loads trio 2 [0; 1]%nat).
  - apply le_n.
  - repeat constructor; simpl; intuition discriminate.
  - simpl. intros x [<-|[<-|[<-|[]]]]; repeat constructor.
  - reflexivity.
Defined.

(** X12.  If the line -1 is missing, the tour is read without an
    exception too, but the engine is left one edge short: it is not
    complete and fails the completion check, and the one feasible pair
    is the pair of the last and the first node of the file. *)
Theorem X12_open_tour_loads
    (p : OrderProblem) (first_node : nat) (rest : list nat) :
  (3 <= p_dimension p)%nat ->
  NoDup (first_node :: rest) ->
  (forall x, In x (first_node :: rest) -> (x < p_dimension p)%nat) ->
  length rest = (p_dimension p - 1)%nat ->
  exists s,
    load_tour p first_node rest false = Normal s
    /\ reachable Cycle p (p_dimension p - 1) s
    /\ complete s = false
    /\ tsp_ensure_completion s <> Normal s
    /\ (forall i j, feasible_edges s i j = true
                    <-> (i, j) = sorted_pair (last rest first_node,
                                              first_node))
    /\ tsp_cost s
       = wrap64 (total (p_costs p)
                   (map sorted_pair (legs first_node rest false))).
Proof.
  intros Hn Hnd Hb Hlen.
  destruct (visit_all Cycle p first_node rest ltac:(lia) Hnd Hb Hlen)
    as (s & R & Hr & Hsp).
  pose proof (reachable_stage _ _ _ _ Hr) as Hst.
  destruct (reachable_problem _ _ _ _ Hr) as [_ Hd].
  pose proof (spans_cycle s _ _ Hst ltac:(lia) Hsp) as Hc.
  exists s. split; [|split; [assumption|split; [|split; [|split]]]].
  - unfold load_tour, ensure_validity at 1, assert_.
    rewrite (sound_validity _ (init_sound p)). cbn [bind]. rewrite R.
    cbn [bind]. unfold ensure_validity, assert_.
    rewrite (sound_validity _ (stage_sound _ _ Hst)). reflexivity.
  - apply (cls_complete _ _ _ Hc).
  - apply not_complete_check, (cls_complete _ _ _ Hc).
  - intros i j. rewrite (cls_feasible _ _ _ Hc). unfold sorted_pair.
    cbn [fst snd].
    rewrite (Nat.min_comm (last rest first_node)),
      (Nat.max_comm (last rest first_node)).
    rewrite andb_true_iff, !Nat.eqb_eq. split.
    + intros [-> ->]. reflexivity.
    + intros E. injection E as -> ->. auto.
  - unfold legs. rewrite app_nil_r.
    rewrite (run_cost p _ 0 (init p) s (reach_init Cycle p) R), cost_init.
    reflexivity.
Qed.

Lemma X12_witness :
  exists s,
    load_tour trio 2 [0; 1]%nat false = Normal s
    /\ reachable Cycle trio 2 s
    /\ complete s = false
    /\ tsp_ensure_completion s <> Normal s
    /\ (forall i j, feasible_edges s i j = true <-> (i, j) = (1, 2)%nat)
    /\ tsp_cost s = 2.
Proof.
  apply (X12_open_tour_loads trio 2 [0; 1]%nat).
  - apply le_n.
  - repeat constructor; simpl; intuition discriminate.
  - simpl. intros x [<-|[<-|[<-|[]]]]; repeat constructor.
  - reflexivity.
Defined.

(** ** Building a path in any order *)

(** X13.  In the path variant on N >= 2 nodes, committing the N - 1
    edges between neighbours of any ordering of the nodes succeeds call
    by call and leaves an engine that passes the completion check: every
    ordering of the passages can be built. *)
Theorem X13_every_ordering_is_buildable
    (p : OrderProblem) (first_node : nat) (rest : list nat) :
  (2 <= p_dimension p)%nat ->
  NoDup (first_node :: rest) ->
  (forall x, In x (first_node :: rest) -> (x < p_dimension p)%nat) ->
  length rest = (p_dimension p - 1)%nat ->
  exists s,
    run Path (tour_calls first_node rest) (init p) = Normal s
    /\ reachable Path p (p_dimension p - 1) s
    /\ topic_ensure_completion s = Normal s.
Proof.
  intros Hn Hnd Hb Hlen.
  destruct (visit_all Path p first_node rest Hn Hnd Hb Hlen)
    as (s & R & Hr & Hsp).
  exists s. split; [assumption|]. split; [assumption|].
  apply (spans_path s _ _ (reachable_stage _ _ _ _ Hr) Hsp).
Qed.

Lemma X13_witness :
  exists s,
    run Path [(1, 0); (0, 2)]%nat (init trio) = Normal s
    /\ reachable Path trio 2 s
    /\ topic_ensure_completion s = Normal s.
Proof.
  apply (X13_every_ordering_is_buildable trio 1 [0; 2]%nat).
  - apply le_S, le_n.
  - repeat constructor; simpl; intuition discriminate.
  - simpl. intros x [<-|[<-|[<-|[]]]]; repeat constructor.
  - reflexivity.
Defined.

(** ** The feasible set of the cycle variant *)

Lemma closing_degrees s e1 e2 i :
  closing s e1 e2 -> (i < dimension s)%nat -> node_degrees s i < 2 ->
  i = e1 \/ i = e2.
Proof.
  intros Hc Hi Di.
  destruct (cls_ends s e1 e2 Hc) as (_ & _ & _ & _ & _ & _ & _ & Hrest).
  destruct (Nat.eq_dec i e1); [tauto|]. destruct (Nat.eq_dec i e2); [tauto|].
  rewrite (Hrest i Hi (cls_span s e1 e2 Hc i Hi)) in Di by assumption. lia.
Qed.

(** X14.  In the cycle variant on N >= 3 nodes, a pair i < j < N of
    nodes of degree below 2 is feasible exactly when no chain of
    committed edges links the two nodes, or when no such unlinked pair is
    left: the edge that closes the tour. *)
Theorem X14_cycle_feasible_exactly
    (p : OrderProblem) (k : nat) (s : OrderSolution) (i j : nat) :
  reachable Cycle p k s -> (3 <= p_dimension p)%nat ->
  (feasible_edges s i j = true
   <-> (i < j < dimension s)%nat
       /\ node_degrees s i < 2 /\ node_degrees s j < 2
       /\ (~ connected (edges_added s) i j
           \/ forall x y, (x < y < dimension s)%nat ->
                node_degrees s x < 2 -> node_degrees s y < 2 ->
                connected (edges_added s) x y)).
Proof.
  intros Hr Hn. destruct (reachable_problem _ _ _ _ Hr) as [_ Hd].
  rewrite <- Hd in Hn.
  destruct (reachable_stage _ _ _ _ Hr)
    as [Hs Hl Ho _ Hany|Hv|e1 e2 _ _ Hs Hl Hc|_ _ Hs Hl Hc|Hs Hp];
    try discriminate.
  - split.
    + intros F. destruct (step_pair s i j Ho F) as (H1 & H2 & H3 & _).
      do 3 (split; [assumption|]). left. apply open_apart; assumption.
    + intros (H1 & H2 & H3 & H4).
      assert (Hno : ~ connected (edges_added s) i j).
      { destruct H4 as [H4|H4]; [assumption|]. exfalso.
        specialize (Hany ltac:(lia)). apply gany_true in Hany.
        destruct Hany as (x & y & _ & _ & F).
        destruct (step_pair s x y Ho F) as (X1 & X2 & X3 & _).
        apply (open_apart s x y Hl Ho F). apply H4; assumption. }
      rewrite (opn_feasible s Ho). apply feasible_rule_true.
      do 3 (split; [assumption|]).
      destruct (Z.eq_dec (connected_component s i) (-1)) as [|Ci];
        [left; assumption|right].
      intros E. apply Hno. apply (lab_conn s Hl); try assumption; lia.
  - pose proof (cls_order s e1 e2 Hc) as Ho.
    destruct (cls_ends s e1 e2 Hc) as (_ & _ & _ & _ & _ & D1 & D2 & _).
    rewrite (cls_feasible s e1 e2 Hc), andb_true_iff, !Nat.eqb_eq. split.
    + intros [-> ->]. split; [assumption|]. split; [lia|]. split; [lia|].
      right. intros x y Hxy Dx Dy.
      apply (lab_conn s Hl); try lia.
      * rewrite (cls_span s e1 e2 Hc x) by lia. apply (cls_label s e1 e2 Hc).
      * rewrite (cls_span s e1 e2 Hc x), (cls_span s e1 e2 Hc y) by lia.
        reflexivity.
    + intros (H1 & H2 & H3 & _).
      pose proof (closing_degrees s e1 e2 i Hc ltac:(lia) H2).
      pose proof (closing_degrees s e1 e2 j Hc ltac:(lia) H3). lia.
  - rewrite (cld_feasible s Hc). split; [discriminate|].
    intros (H1 & H2 & _). rewrite (cld_degree s Hc i) in H2 by lia. lia.
  - rewrite (pd_dimension s Hp) in Hn. lia.
Qed.

Lemma X14_witness :
  reachable Cycle trio 2 (after Cycle trio [(0, 1); (2, 1)]%nat)
  /\ (feasible_edges (after Cycle trio [(0, 1); (2, 1)]%nat) 0%nat 2%nat
      = true
      <-> (0 < 2 < dimension (after Cycle trio [(0, 1); (2, 1)]%nat))%nat
          /\ node_degrees (after Cycle trio [(0, 1); (2, 1)]%nat) 0%nat < 2
          /\ node_degrees (after Cycle trio [(0, 1); (2, 1)]%nat) 2%nat < 2
          /\ (~ connected
                  (edges_added (after Cycle trio [(0, 1); (2, 1)]%nat))
                  0%nat 2%nat
              \/ forall x y,
                   (x < y < dimension
                              (after Cycle trio [(0, 1); (2, 1)]%nat))%nat ->
                   node_degrees (after Cycle trio [(0, 1); (2, 1)]%nat) x
                   < 2 ->
                   node_degrees (after Cycle trio [(0, 1); (2, 1)]%nat) y
                   < 2 ->
                   connected
                     (edges_added (after Cycle trio [(0, 1); (2, 1)]%nat))
                     x y)).
Proof.
  split; [exact reach_trio_2|].
  apply (X14_cycle_feasible_exactly trio 2
           (after Cycle trio [(0, 1); (2, 1)]%nat) 0%nat 2%nat
           reach_trio_2 (le_n 3)).
Defined.

(** ** The walks of [show] *)

Lemma length_filter_sum (f : nat -> bool) (l : list nat) :
  Z.of_nat (length (filter f l))
  = fold_right (fun i acc => b2z (f i) + acc) 0 l.
Proof.
  induction l as [|x l IH]; [reflexivity|]. simpl.
  destruct (f x); simpl length; unfold b2z at 1; lia.
Qed.

Lemma length_where n f : Z.of_nat (length (where_ n f)) = vsum n (fun i => b2z (f i)).
Proof. apply length_filter_sum. Qed.

Lemma filter_shorter (f : nat -> bool) l x :
  In x l -> f x = false -> (length (filter f l) < length l)%nat.
Proof.
  induction l as [|y l IH]; intros Hin Hf; [contradiction|].
  destruct Hin as [<-|Hin]; simpl.
  - rewrite Hf. pose proof (filter_length_le f l). lia.
  - destruct (f y); simpl; specialize (IH Hin Hf); lia.
Qed.

Lemma not_in_true l k : not_in l k = true <-> ~ In k l.
Proof.
  unfold not_in. rewrite negb_true_iff. split.
  - intros H Hin. assert (existsb (Nat.eqb k) l = true); [|congruence].
    apply existsb_exists. exists k. split; [assumption|apply Nat.eqb_refl].
  - intros H. destruct (existsb (Nat.eqb k) l) eqn:E; [|reflexivity].
    apply existsb_exists in E. destruct E as (x & Hx & E).
    apply Nat.eqb_eq in E. subst. contradiction.
Qed.

Lemma not_in_false l k : not_in l k = false <-> In k l.
Proof.
  destruct (not_in l k) eqn:E.
  - apply not_in_true in E. split; [discriminate|contradiction].
  - split; [intros _|reflexivity].
    destruct (in_dec Nat.eq_dec k l) as [|H]; [assumption|].
    apply not_in_true in H. congruence.
Qed.

Lemma last_indep (A : Type) (l : list A) d d' : l <> [] -> last l d = last l d'.
Proof.
  induction l as [|x l IH]; intros H; [contradiction|].
  destruct l as [|y l]; [reflexivity|]. apply IH. discriminate.
Qed.

Lemma nodup_bound n (l : list nat) :
  NoDup l -> (forall x, In x l -> (x < n)%nat) -> (length l <= n)%nat.
Proof.
  intros Hnd Hb. rewrite <- (length_seq n 0).
  apply NoDup_incl_length; [assumption|].
  intros x Hx. apply in_seq. specialize (Hb x Hx). lia.
Qed.

Lemma chain_snoc e l x :
  chain e l ->
  (l <> [] -> e (last l x) x = true \/ e x (last l x) = true) ->
  chain e (l ++ [x]).
Proof.
  induction l as [|a l IH]; intros Hc Hl; [exact I|].
  destruct l as [|b l].
  - simpl. split; [|exact I]. apply Hl. discriminate.
  - destruct Hc as [Hab Hc]. split; [assumption|].
    apply IH; [assumption|]. intros _. apply Hl. discriminate.
Qed.

Section Walks.

Variable n : nat.
Variable e : grid.
Variable count : nat.

Hypothesis Hup : forall i j, e i j = true -> (i < j < n)%nat.
Hypothesis Hdeg : forall k, (k < n)%nat -> (length (neighbors n e k) <= 2)%nat.

Lemma neighbors_in k u :
  In u (neighbors n e k) <-> (u < n)%nat /\ (e k u = true \/ e u k = true).
Proof.
  unfold neighbors, where_. rewrite filter_In, in_seq, orb_true_iff.
  split; intros [H1 H2]; (split; [lia|assumption]).
Qed.

Lemma neighbors_sym k u :
  (k < n)%nat -> In u (neighbors n e k) -> In k (neighbors n e u).
Proof. rewrite !neighbors_in. tauto. Qed.

Lemma loop_ok : forall fuel itinerary,
  itinerary <> [] -> NoDup itinerary ->
  (forall x, In x itinerary -> (x < n)%nat) -> chain e itinerary ->
  (n <= fuel + length itinerary)%nat ->
  exists it,
    walk_loop fuel n e count
      (filter (not_in itinerary) (neighbors n e (last itinerary 0%nat)))
      itinerary
    = Traced it
    /\ route n e it
    /\ exists suffix, it = itinerary ++ suffix.
Proof.
  induction fuel as [|fuel IH]; intros itinerary Hne Hnd Hb Hc Hfuel.
  - assert (Hlen : (length itinerary <= n)%nat) by (apply nodup_bound; assumption).
    destruct (filter (not_in itinerary)
                (neighbors n e (last itinerary 0%nat))) as [|here rest] eqn:F.
    + exists itinerary. split; [reflexivity|]. split.
      * repeat split; try assumption. intros d u Hu.
        rewrite (last_indep _ itinerary d 0%nat Hne) in Hu.
        apply not_in_false. destruct (not_in itinerary u) eqn:N; [|reflexivity].
        assert (Hin : In u (filter (not_in itinerary)
                              (neighbors n e (last itinerary 0%nat))))
          by (apply filter_In; auto).
        rewrite F in Hin. contradiction.
      * exists []. symmetry. apply app_nil_r.
    + exfalso.
      assert (Hin : In here (filter (not_in itinerary)
                               (neighbors n e (last itinerary 0%nat))))
        by (rewrite F; left; reflexivity).
      apply filter_In in Hin. destruct Hin as [Hin Hnot].
      apply not_in_true in Hnot. apply neighbors_in in Hin.
      assert ((length (here :: itinerary) <= n)%nat).
      { apply nodup_bound.
        - constructor; assumption.
        - intros x [<-|Hx]; [tauto|auto]. }
      simpl in *. lia.
  - destruct (filter (not_in itinerary)
                (neighbors n e (last itinerary 0%nat))) as [|here rest] eqn:F.
    + exists itinerary. split; [reflexivity|]. split.
      * repeat split; try assumption. intros d u Hu.
        rewrite (last_indep _ itinerary d 0%nat Hne) in Hu.
        apply not_in_false. destruct (not_in itinerary u) eqn:N; [|reflexivity].
        assert (Hin : In u (filter (not_in itinerary)
                              (neighbors n e (last itinerary 0%nat))))
          by (apply filter_In; auto).
        rewrite F in Hin. contradiction.
      * exists []. symmetry. apply app_nil_r.
    + assert (Hin : In here (filter (not_in itinerary)
                               (neighbors n e (last itinerary 0%nat))))
        by (rewrite F; left; reflexivity).
      apply filter_In in Hin. destruct Hin as [Hin Hnot].
      apply not_in_true in Hnot.
      pose proof (proj1 (neighbors_in _ _) Hin) as [Hhere Hadj].
      assert (Hprev : (last itinerary 0 < n)%nat).
      { apply Hb. destruct itinerary as [|a l]; [contradiction|].
        apply (last_in nat (a :: l) 0%nat). discriminate. }
      assert (Hnd1 : NoDup (itinerary ++ [here])).
      { apply NoDup_app; [assumption|repeat constructor; simpl; tauto|].
        intros x Hx [<-|[]]. contradiction. }
      assert (Hb1 : forall x, In x (itinerary ++ [here]) -> (x < n)%nat).
      { intros x Hx. apply in_app_or in Hx.
        destruct Hx as [Hx|[<-|[]]]; auto. }
      assert (Hc1 : chain e (itinerary ++ [here])).
      { apply chain_snoc; [assumption|]. intros _.
        rewrite (last_indep _ itinerary here 0%nat Hne). assumption. }
      assert (Hlast : last (itinerary ++ [here]) 0%nat = here)
        by apply last_last.
      destruct (IH (itinerary ++ [here])) as (it & R & Hroute & suffix & Es);
        try assumption.
      * intros E. apply app_eq_nil in E. destruct E. discriminate.
      * rewrite length_app. simpl. lia.
      * exists it. split; [|split; [assumption|]].
        -- cbn [walk_loop].
           replace (Nat.ltb here n) with true by (symmetry; apply Nat.ltb_lt; assumption).
           cbn [negb]. rewrite Hlast in R.
           replace ((length (filter (not_in (itinerary ++ [here]))
                               (neighbors n e here)) <=? 1)%nat) with true.
           ++ cbn [orb]. exact R.
           ++ symmetry. apply Nat.leb_le.
              assert ((length (filter (not_in (itinerary ++ [here]))
                                 (neighbors n e here))
                       < length (neighbors n e here))%nat).
              { apply filter_shorter with (x := last itinerary 0%nat).
                - apply neighbors_sym in Hin; assumption.
                - apply not_in_false. apply in_or_app. left.
                  destruct itinerary as [|a l]; [contradiction|].
                  apply (last_in nat (a :: l) 0%nat). discriminate. }
              specialize (Hdeg here Hhere). lia.
        -- exists ([here] ++ suffix). rewrite Es, app_assoc. reflexivity.
Qed.

Lemma itinerary_ok fuel endpoint :
  (endpoint < n)%nat -> (n <= fuel)%nat ->
  (length (neighbors n e endpoint) <= 1)%nat \/ count = 1%nat ->
  exists it,
    itinerary_from fuel n e count endpoint = Traced it
    /\ plotted n e count endpoint it.
Proof.
  intros He Hfuel Hfirst.
  destruct fuel as [|fuel]; [lia|].
  destruct (loop_ok fuel [endpoint]) as (r & R & Hroute & suffix & Es).
  - discriminate.
  - repeat constructor. simpl. tauto.
  - intros x [<-|[]]. assumption.
  - exact I.
  - simpl. lia.
  - assert (W : walk_loop (S fuel) n e count [endpoint] [] = Traced r).
    { cbn [walk_loop].
      replace (Nat.ltb endpoint n) with true
        by (symmetry; apply Nat.ltb_lt; assumption).
      cbn [negb app]. simpl last in R.
      replace ((length (filter (not_in [endpoint]) (neighbors n e endpoint))
                <=? 1)%nat || ((count =? 1)%nat && (length [endpoint] =? 1)%nat))
        with true; [exact R|].
      symmetry. apply orb_true_iff. destruct Hfirst as [H| ->].
      - left. apply Nat.leb_le.
        pose proof (filter_length_le (not_in [endpoint])
                      (neighbors n e endpoint)). lia.
      - right. reflexivity. }
    unfold itinerary_from. rewrite W. subst r. cbn [app].
    destruct (Nat.eqb count 1) eqn:C1.
    + eexists. split; [reflexivity|].
      exists (endpoint :: suffix). rewrite C1. auto.
    + eexists. split; [reflexivity|].
      exists (endpoint :: suffix). rewrite C1. auto.
Qed.

Lemma itineraries_ok fuel : forall endpoints,
  (n <= fuel)%nat ->
  (forall x, In x endpoints ->
     (x < n)%nat
     /\ ((length (neighbors n e x) <= 1)%nat \/ count = 1%nat)) ->
  exists l,
    itineraries fuel n e count endpoints = Traced l
    /\ Forall2 (plotted n e count) endpoints l.
Proof.
  induction endpoints as [|x endpoints IH]; intros Hfuel H.
  - exists []. split; [reflexivity|constructor].
  - destruct (H x (in_eq _ _)) as [Hx Hfirst].
    destruct (itinerary_ok fuel x Hx Hfuel Hfirst) as (it & R & Hp).
    destruct IH as (l & Rl & Hl); [assumption|intros; apply H, in_cons; assumption|].
    exists (it :: l). split; [|constructor; assumption].
    cbn [itineraries]. rewrite R, Rl. reflexivity.
Qed.

End Walks.

(** ** [show] on the states of a run *)

Lemma neighbors_length s k :
  sound s -> (k < dimension s)%nat ->
  Z.of_nat (length (neighbors (dimension s) (edges_added s) k))
  = node_degrees s k.
Proof.
  intros Hs Hk. unfold neighbors. rewrite length_where.
  rewrite (snd_degree s Hs k Hk). unfold touching. apply vsum_ext.
  intros j _.
  destruct (edges_added s k j) eqn:E1; destruct (edges_added s j k) eqn:E2;
    try reflexivity.
  apply (snd_edges s Hs) in E1, E2. lia.
Qed.

Lemma degrees_split s :
  sound s ->
  vsum (dimension s) (node_degrees s)
  = vcount (dimension s) (node_degrees s) 1
    + 2 * vcount (dimension s) (node_degrees s) 2.
Proof.
  intros Hs. unfold vcount. rewrite <- vsum_scale, <- vsum_plus.
  apply vsum_ext. intros i _. pose proof (snd_range s Hs i) as R.
  destruct (Z.eqb_spec (node_degrees s i) 1) as [E|E];
    destruct (Z.eqb_spec (node_degrees s i) 2) as [E'|E']; simpl; lia.
Qed.

(** The nodes of degree 1 come in pairs. *)
Lemma endpoints_even s :
  sound s ->
  Nat.even (length (where_ (dimension s)
                      (fun i => node_degrees s i =? 1))) = true.
Proof.
  intros Hs. apply Nat.even_spec.
  pose proof (length_where (dimension s) (fun i => node_degrees s i =? 1)) as L.
  change (vsum (dimension s)
            (fun i => b2z ((fun i0 => node_degrees s i0 =? 1) i)))
    with (vcount (dimension s) (node_degrees s) 1) in L.
  pose proof (degrees_split s Hs) as D.
  pose proof (sound_handshake s Hs) as H.
  exists (Z.to_nat (gcount (dimension s) (edges_added s)
                    - vcount (dimension s) (node_degrees s) 2)).
  lia.
Qed.

Lemma show_plots v p k s fuel :
  reachable v p k s ->
  (1 <= p_dimension p)%nat -> (p_dimension p <= fuel)%nat ->
  exists l,
    show fuel s = Traced l
    /\ Forall2 (plotted (dimension s) (edges_added s)
                  (length (start_nodes s)))
         (start_nodes s) l.
Proof.
  intros Hr Hn Hfuel.
  destruct (reachable_problem v p k s Hr) as [_ Hd]. rewrite <- Hd in *.
  pose proof (stage_sound v s (reachable_stage v p k s Hr)) as Hs.
  unfold show. rewrite (endpoints_even s Hs). cbn [negb].
  apply itineraries_ok; [|assumption|].
  - intros x Hx. pose proof (neighbors_length s x Hs Hx).
    pose proof (snd_range s Hs x). lia.
  - intros x Hx. unfold start_nodes in *.
    destruct (Nat.eqb (length (where_ (dimension s)
                                 (fun i => node_degrees s i =? 1))) 0) eqn:E.
    + destruct Hx as [<-|[]]. split; [lia|]. right. reflexivity.
    + unfold where_ in Hx. apply filter_In in Hx. destruct Hx as [Hx D].
      apply in_seq in Hx. apply Z.eqb_eq in D.
      assert (Hx' : (x < dimension s)%nat) by lia.
      split; [assumption|]. left.
      pose proof (neighbors_length s x Hs Hx'). lia.
Qed.

(** X15.  [show] raises no exception on a state of a run on N >= 1
    nodes, and each of its walks ends within N turns of the loop.  It
    plots one itinerary for every node of degree 1, or a single one from
    node 0 if there is none; each itinerary starts at its node, follows
    committed edges, visits no node twice and ends at a node whose
    neighbours have all been visited; a single itinerary is then closed
    by its first node. *)
Theorem X15_show_plots_routes
    (v : variant) (p : OrderProblem) (k : nat) (s : OrderSolution)
    (fuel : nat) :
  reachable v p k s ->
  (1 <= p_dimension p)%nat -> (p_dimension p <= fuel)%nat ->
  exists l,
    show fuel s = Traced l
    /\ Forall2 (plotted (dimension s) (edges_added s)
                  (length (start_nodes s)))
         (start_nodes s) l.
Proof. apply show_plots. Qed.

Lemma X15_witness :
  exists l,
    show 3 (after Cycle trio [(0, 1); (2, 1)]%nat) = Traced l
    /\ Forall2 (plotted 3
                  (edges_added (after Cycle trio [(0, 1); (2, 1)]%nat)) 2)
         [0; 2]%nat l.
Proof.
  apply (X15_show_plots_routes Cycle trio 2
           (after Cycle trio [(0, 1); (2, 1)]%nat) 3 reach_trio_2).
  - apply le_S, le_S, le_n.
  - apply le_n.
Defined.

(** ** Positions in a list without repetition *)

Lemma chain_tail e a l : chain e (a :: l) -> chain e l.
Proof. destruct l as [|b l]; [intros; exact I|intros [_ H]; exact H]. Qed.

Lemma chain_follows e l a b :
  chain e l -> follows l a b -> e a b = true \/ e b a = true.
Proof.
  intros Hc (l1 & l2 & ->). induction l1 as [|c l1 IH].
  - destruct Hc as [H _]. exact H.
  - apply IH. apply (chain_tail e c). exact Hc.
Qed.

Lemma follows_in l a b : follows l a b -> In a l /\ In b l.
Proof.
  intros (l1 & l2 & ->). split; apply in_or_app; right; simpl; auto.
Qed.

Lemma nodup_split_eq (l1 : list nat) : forall l1' a t t',
  NoDup (l1 ++ a :: t) -> l1 ++ a :: t = l1' ++ a :: t' ->
  l1 = l1' /\ t = t'.
Proof.
  induction l1 as [|c l1 IH]; intros l1' a t t' Hnd E.
  - destruct l1' as [|c' l1'].
    + injection E as ->. auto.
    + exfalso. simpl in *. injection E as <- ->.
      apply NoDup_cons_iff in Hnd. destruct Hnd as [Hnd _].
      apply Hnd, in_or_app. right. left. reflexivity.
  - destruct l1' as [|c' l1'].
    + exfalso. simpl in *. injection E as -> <-.
      apply NoDup_cons_iff in Hnd. destruct Hnd as [Hnd _].
      apply Hnd, in_or_app. right. left. reflexivity.
    + simpl in *. injection E as <- E.
      apply NoDup_cons_iff in Hnd. destruct Hnd as [_ Hnd].
      destruct (IH l1' a t t' Hnd E) as [-> ->]. auto.
Qed.

Lemma follows_next l a b b' :
  NoDup l -> follows l a b -> follows l a b' -> b = b'.
Proof.
  intros Hnd (l1 & l2 & E) (l1' & l2' & E'). subst l.
  destruct (nodup_split_eq l1 l1' a (b :: l2) (b' :: l2') Hnd E') as [_ H].
  congruence.
Qed.

Lemma follows_prev l a a' b :
  NoDup l -> follows l a b -> follows l a' b -> a = a'.
Proof.
  intros Hnd (l1 & l2 & E) (l1' & l2' & E'). subst l.
  replace (l1 ++ a :: b :: l2) with ((l1 ++ [a]) ++ b :: l2) in *
    by (rewrite <- app_assoc; reflexivity).
  replace (l1' ++ a' :: b :: l2') with ((l1' ++ [a']) ++ b :: l2') in *
    by (rewrite <- app_assoc; reflexivity).
  destruct (nodup_split_eq _ _ b l2 l2' Hnd E') as [H _].
  apply app_inj_tail in H. tauto.
Qed.

Lemma in_prev l x :
  In x l -> hd_error l = Some x \/ exists w, follows l w x.
Proof.
  intros H. apply in_split in H. destruct H as (l1 & l2 & ->).
  destruct l1 as [|c l1]; [left; reflexivity|right].
  destruct (exists_last (l := c :: l1)) as (l1' & w & E); [discriminate|].
  rewrite E. exists w, l1', l2. rewrite <- app_assoc. reflexivity.
Qed.

Lemma in_next l x d :
  In x l -> last l d = x \/ exists y, follows l x y.
Proof.
  intros H. apply in_split in H. destruct H as (l1 & l2 & ->).
  destruct l2 as [|y l2].
  - left. apply last_last.
  - right. exists y, l1, l2. reflexivity.
Qed.

Lemma last_app_cons (l1 : list nat) a l2 d :
  last (l1 ++ a :: l2) d = last (a :: l2) d.
Proof.
  induction l1 as [|c l1 IH]; [reflexivity|].
  change ((c :: l1) ++ a :: l2) with (c :: (l1 ++ a :: l2)).
  rewrite last_cons, <- IH. apply last_indep.
  destruct l1; discriminate.
Qed.

Lemma last_no_next l d y : NoDup l -> follows l (last l d) y -> False.
Proof.
  intros Hnd (l1 & l2 & E).
  assert (Hin : In (last l d) (y :: l2)).
  { rewrite E at 1. rewrite last_app_cons.
    change (last (last l d :: y :: l2) d) with (last (y :: l2) d).
    apply last_in. discriminate. }
  rewrite E in Hnd. apply NoDup_remove_2 in Hnd.
  apply Hnd, in_or_app. right. assumption.
Qed.

Lemma hd_no_prev l x w :
  NoDup l -> hd_error l = Some x -> follows l w x -> False.
Proof.
  intros Hnd Hh (l1 & l2 & E). subst l.
  destruct l1 as [|c l1]; simpl in Hh; injection Hh as ->.
  - apply NoDup_cons_iff in Hnd. destruct Hnd as [Hnd _].
    apply Hnd. left. reflexivity.
  - simpl in Hnd. apply NoDup_cons_iff in Hnd. destruct Hnd as [Hnd _].
    apply Hnd, in_or_app. right. right. left. reflexivity.
Qed.

Lemma one_of_one (l : list nat) a u :
  (length l <= 1)%nat -> In a l -> In u l -> u = a.
Proof.
  destruct l as [|x [|y l]]; simpl; intros H Ha Hu; [tauto| |lia].
  destruct Ha as [<-|[]], Hu as [<-|[]]. reflexivity.
Qed.

Lemma one_of_two (l : list nat) a b u :
  NoDup l -> (length l <= 2)%nat -> In a l -> In b l -> a <> b ->
  In u l -> u = a \/ u = b.
Proof.
  intros Hnd Hlen Ha Hb Hab Hu.
  destruct (Nat.eq_dec u a) as [|Hua]; [tauto|].
  destruct (Nat.eq_dec u b) as [|Hub]; [tauto|]. exfalso.
  assert (H : (length [u; a; b] <= length l)%nat).
  { apply NoDup_incl_length.
    - repeat constructor; simpl; intuition congruence.
    - intros x [<-|[<-|[<-|[]]]]; assumption. }
  simpl in H. lia.
Qed.

(** ** A route lists a whole component *)

Section Cover.

Variable n : nat.
Variable e : grid.

Hypothesis Hup : forall i j, e i j = true -> (i < j < n)%nat.
Hypothesis Hdeg : forall k, (k < n)%nat -> (length (neighbors n e k) <= 2)%nat.

Variable r : list nat.
Variable x : nat.
Hypothesis Hroute : route n e r.
Hypothesis Hstart : hd_error r = Some x.

Lemma neighbors_nodup k : NoDup (neighbors n e k).
Proof. apply NoDup_filter, seq_NoDup. Qed.

Lemma neighbors_follow a b :
  follows r a b -> In b (neighbors n e a) /\ In a (neighbors n e b).
Proof.
  destruct Hroute as (_ & Hnd & Hb & Hc & _). intros F.
  destruct (follows_in r a b F) as [Ha Hb'].
  pose proof (chain_follows e r a b Hc F) as Hadj.
  split; apply neighbors_in; (split; [auto|tauto]).
Qed.

Lemma not_own_neighbor k : ~ In k (neighbors n e k).
Proof.
  intros H. apply neighbors_in in H. destruct H as [_ [H|H]];
    apply Hup in H; lia.
Qed.

(** A node between two others in the route has them as its neighbours. *)
Lemma inner_neighbors w a y u :
  follows r w a -> follows r a y -> In u (neighbors n e a) ->
  u = w \/ u = y.
Proof.
  intros Fw Fy Hu. destruct Hroute as (_ & Hnd & Hb & _).
  destruct (follows_in r w a Fw) as [_ Ha].
  apply (one_of_two (neighbors n e a)); try assumption.
  - apply neighbors_nodup.
  - apply Hdeg, Hb, Ha.
  - apply (neighbors_follow w a Fw).
  - apply (neighbors_follow a y Fy).
  - intros ->. apply (not_own_neighbor a).
    (* w = y would put a twice next to y *)
    destruct Fw as (l1 & l2 & E1). destruct Fy as (l1' & l2' & E2).
    rewrite E1 in Hnd, E2.
    replace (l1 ++ y :: a :: l2) with ((l1 ++ [y]) ++ a :: l2) in *
      by (rewrite <- app_assoc; reflexivity).
    destruct (nodup_split_eq _ _ a l2 (y :: l2') Hnd E2) as [_ ->].
    exfalso. rewrite <- app_assoc in Hnd. simpl in Hnd.
    apply NoDup_remove_2 in Hnd. apply Hnd, in_or_app. right. right. left.
    reflexivity.
Qed.

(** The end of the route is joined to its start if it has two
    neighbours and the route has a second node. *)
Lemma end_meets_start y d :
  follows r x y -> length (neighbors n e (last r d)) = 2%nat ->
  In (last r d) (neighbors n e x) /\ y <> last r d.
Proof.
  intros Fy H2. pose proof Hroute as (Hne & Hnd & Hb & Hc & Hdead).
  assert (Hz : In (last r d) r).
  { destruct r as [|c l]; [contradiction|].
    apply (last_in nat (c :: l) d). discriminate. }
  remember (last r d) as z eqn:Ez.
  destruct (in_prev r z Hz) as [Hh|(w & Fw)].
  { exfalso. rewrite Hstart in Hh. injection Hh as Hh.
    apply (last_no_next r d y Hnd). rewrite <- Ez, <- Hh. exact Fy. }
  destruct (neighbors_follow w z Fw) as [_ Hw].
  (* a neighbour of z other than w *)
  assert (Ht : exists t, In t (neighbors n e z) /\ t <> w).
  { destruct (neighbors n e z) as [|t1 [|t2 l]] eqn:E; try discriminate.
    pose proof (neighbors_nodup z) as N. rewrite E in N.
    apply NoDup_cons_iff in N. destruct N as [N _].
    destruct (Nat.eq_dec t1 w) as [->|].
    - exists t2. split; [right; left; reflexivity|].
      intros ->. apply N. left. reflexivity.
    - exists t1. split; [left; reflexivity|assumption]. }
  destruct Ht as (t & Ht & Htw).
  assert (Htr : In t r) by (apply (Hdead d); rewrite <- Ez; exact Ht).
  assert (Htz : t <> z) by (intros ->; apply (not_own_neighbor z); exact Ht).
  destruct (in_next r t d Htr) as [E|(yt & Fyt)];
    [exfalso; apply Htz; rewrite Ez; symmetry; exact E|].
  assert (Hzt : In z (neighbors n e t)).
  { apply neighbors_sym; [|exact Ht]. apply Hb. exact Hz. }
  destruct (in_prev r t Htr) as [Hh|(wt & Fwt)].
  - rewrite Hstart in Hh. injection Hh as Hh. rewrite <- Hh in *.
    split; [assumption|].
    intros E. apply Htw. rewrite E in Fy.
    apply (follows_prev r x w z Hnd Fy Fw).
  - exfalso.
    destruct (inner_neighbors wt t yt z Fwt Fyt Hzt) as [E|E].
    + apply (last_no_next r d t Hnd). rewrite <- Ez, E. exact Fwt.
    + apply Htw. rewrite <- E in Fyt.
      apply (follows_prev r t w z Hnd Fyt Fw).
Qed.

(** Every neighbour of a node of the route is in the route. *)
Lemma route_closed d :
  (length (neighbors n e x) <= 1)%nat
  \/ length (neighbors n e (last r d)) = 2%nat ->
  forall a u, In a r -> In u (neighbors n e a) -> In u r.
Proof.
  intros Hcase a u Ha Hu. pose proof Hroute as (Hne & Hnd & Hb & Hc & Hdead).
  destruct (in_next r a d Ha) as [E|(y & Fy)].
  - apply (Hdead d). rewrite E. exact Hu.
  - destruct (follows_in r a y Fy) as [_ Hy].
    destruct (in_prev r a Ha) as [Hh|(w & Fw)].
    + rewrite Hstart in Hh. injection Hh as <-.
      destruct (neighbors_follow x y Fy) as [Hyx _].
      destruct Hcase as [H1|H2].
      * rewrite (one_of_one (neighbors n e x) y u H1 Hyx Hu). exact Hy.
      * destruct (end_meets_start y d Fy H2) as [Hz Hyz].
        destruct (one_of_two (neighbors n e x) y (last r d) u) as [-> | ->];
          try assumption.
        -- apply neighbors_nodup.
        -- apply Hdeg, Hb, Ha.
        -- destruct r as [|c l]; [contradiction|].
           apply (last_in nat (c :: l) d). discriminate.
    + destruct (follows_in r w a Fw) as [Hw _].
      destruct (inner_neighbors w a y u Fw Fy Hu) as [-> | ->]; assumption.
Qed.

Lemma route_reaches d :
  (length (neighbors n e x) <= 1)%nat
  \/ length (neighbors n e (last r d)) = 2%nat ->
  forall a u, connected e a u -> In a r -> In u r.
Proof.
  intros Hcase a u Hconn. induction Hconn as [|i m j Hedge _ IH]; [auto|].
  intros Hi. apply IH. apply (route_closed d Hcase i m Hi).
  apply neighbors_in. split; [|exact Hedge].
  destruct Hedge as [H|H]; apply Hup in H; lia.
Qed.

End Cover.

(** Every node of a chain is linked to its first node. *)
Lemma chain_connected e : forall l x u,
  chain e (x :: l) -> In u (x :: l) -> connected e x u.
Proof.
  induction l as [|y l IH]; intros x u Hc [<-|Hu]; try apply conn_refl.
  - contradiction.
  - destruct Hc as [Hxy Hc]. apply conn_step with y; [exact Hxy|].
    apply IH; assumption.
Qed.

(** ** What [show] plots *)

Lemma where_empty n f :
  where_ n f = [] -> forall i, (i < n)%nat -> f i = false.
Proof.
  intros E i Hi. destruct (f i) eqn:F; [|reflexivity].
  assert (H : In i (where_ n f)) by (apply filter_In; split; [apply in_seq; lia|assumption]).
  rewrite E in H. contradiction.
Qed.

(** Where the walks start: at a node of degree 1, or at node 0 of a
    structure without edges or of a finished cycle. *)
Lemma start_nodes_degree v s x :
  stage v s -> (1 <= dimension s)%nat -> In x (start_nodes s) ->
  (x < dimension s)%nat
  /\ (node_degrees s x <= 1
      \/ forall i, (i < dimension s)%nat -> node_degrees s i = 2).
Proof.
  intros Hst Hn Hx. unfold start_nodes in Hx.
  destruct (where_ (dimension s) (fun i => node_degrees s i =? 1))
    as [|y l] eqn:E.
  - simpl in Hx. destruct Hx as [<-|[]]. split; [lia|].
    pose proof (where_empty _ _ E) as Hno.
    assert (Hno' : forall i, (i < dimension s)%nat -> node_degrees s i <> 1).
    { intros i Hi. apply Z.eqb_neq. apply Hno. assumption. }
    assert (Hopen : labelled s -> open s -> node_degrees s 0%nat <= 1).
    { intros Hl Ho.
      destruct (Z.eq_dec (connected_component s 0%nat) (-1)) as [C|C].
      - apply (lab_free s Hl 0%nat) in C; lia.
      - exfalso. destruct (opn_ends s Ho 0%nat ltac:(lia) C)
          as (e1 & e2 & H1 & _ & _ & _ & _ & D1 & _).
        apply (Hno' e1 H1 D1). }
    destruct Hst as [Hs Hl Ho _ _|_ _ Hs Hl Ho _ _|e1 e2 _ _ Hs Hl Hc
                     |_ _ Hs Hl Hc|Hs Hp].
    + left. apply Hopen; assumption.
    + left. apply Hopen; assumption.
    + exfalso.
      destruct (cls_ends s e1 e2 Hc) as (H1 & _ & _ & _ & _ & D1 & _).
      apply (Hno' e1 H1 D1).
    + right. apply (cld_degree s Hc).
    + left. destruct (pd_degree s Hp). lia.
  - rewrite <- E in Hx. simpl in Hx.
    rewrite E in Hx at 1. simpl in Hx.
    unfold where_ in Hx. apply filter_In in Hx. destruct Hx as [Hx D].
    apply in_seq in Hx. apply Z.eqb_eq in D. split; [lia|]. left. lia.
Qed.

(** In a finished structure on three or more nodes every node is linked
    to every node that has an edge. *)
Lemma complete_connected v s x u :
  stage v s -> complete s = true -> (3 <= dimension s)%nat ->
  (x < dimension s)%nat -> (u < dimension s)%nat ->
  connected (edges_added s) x u.
Proof.
  intros Hst C Hn Hx Hu.
  assert (H : labelled s
              /\ (forall i, (i < dimension s)%nat ->
                    connected_component s i = connected_component s 0%nat)
              /\ (forall i, (i < dimension s)%nat -> node_degrees s i <> 0)).
  { destruct Hst as [_ _ _ Hc _|Hv _ Hs Hl Ho Hc Hnone|e1 e2 _ _ _ _ Hcl
                     |_ _ Hs Hl Hcd|Hs Hp].
    - congruence.
    - split; [assumption|].
      pose proof (path_completion s Hs Hl Ho Hc ltac:(lia) Hnone) as E.
      apply topic_completion_inv in E.
      destruct E as (_ & _ & _ & Hall & _). split; [assumption|].
      destruct (exhausted_labelled s Hs Hl Ho ltac:(lia) Hnone)
        as (y & Hy & Cy).
      intros i Hi D. apply (lab_free s Hl i Hi) in D.
      rewrite (Hall i Hi) in D. rewrite (Hall y Hy) in Cy. contradiction.
    - rewrite (cls_complete _ _ _ Hcl) in C. discriminate.
    - split; [assumption|]. split; [apply (cld_span s Hcd)|].
      intros i Hi. rewrite (cld_degree s Hcd i Hi). discriminate.
    - rewrite (pd_dimension s Hp) in Hn. lia. }
  destruct H as (Hl & Hall & Hdeg).
  apply (lab_conn s Hl); try assumption.
  - intros E. apply (lab_free s Hl x Hx) in E. apply (Hdeg x Hx E).
  - rewrite (Hall x Hx), (Hall u Hu). reflexivity.
Qed.

Lemma full_length n (r : list nat) :
  NoDup r -> (forall x, In x r -> (x < n)%nat) ->
  (forall u, (u < n)%nat -> In u r) -> length r = n.
Proof.
  intros Hnd Hb Hall. apply Nat.le_antisymm; [apply nodup_bound; assumption|].
  rewrite <- (length_seq n 0) at 1. apply NoDup_incl_length; [apply seq_NoDup|].
  intros u Hu. apply in_seq in Hu. apply Hall. lia.
Qed.

Lemma Forall2_in (A B : Type) (P Q : A -> B -> Prop) xs ys :
  (forall x y, In x xs -> P x y -> Q x y) ->
  Forall2 P xs ys -> Forall2 Q xs ys.
Proof.
  intros H F. induction F as [|x y xs ys H1 H2 IH]; constructor.
  - apply H; [left; reflexivity|assumption].
  - apply IH. intros x' y' Hin. apply H. right. assumption.
Qed.

Lemma Forall2_right (A B : Type) (P : A -> B -> Prop) (Q : B -> Prop) xs ys :
  (forall x y, In x xs -> P x y -> Q y) ->
  Forall2 P xs ys -> Forall Q ys.
Proof.
  intros H F. induction F as [|x y xs ys H1 H2 IH]; constructor.
  - apply (H x); [left; reflexivity|assumption].
  - apply IH. intros x' y' Hin. apply H. right. assumption.
Qed.

(** What a route from a start node of [show] lists. *)
Lemma route_covers v s r x :
  stage v s -> route (dimension s) (edges_added s) r ->
  hd_error r = Some x ->
  node_degrees s x <= 1
  \/ (forall i, (i < dimension s)%nat -> node_degrees s i = 2) ->
  (forall u, In u r <-> connected (edges_added s) x u)
  /\ (complete s = true -> (3 <= dimension s)%nat ->
      length r = dimension s).
Proof.
  intros Hst Hroute Hstart Hcase.
  pose proof (stage_sound v s Hst) as Hs.
  pose proof Hroute as (Hne & Hnd & Hb & Hc & Hdead).
  destruct r as [|x' l]; [contradiction|]. simpl in Hstart.
  injection Hstart as ->.
  assert (Hx : (x < dimension s)%nat) by (apply Hb; left; reflexivity).
  assert (Hcov : forall u, In u (x :: l) <-> connected (edges_added s) x u).
  { intros u. split; [apply chain_connected; assumption|].
    intros Hconn.
    apply (route_reaches (dimension s) (edges_added s)) with (x := x) (d := 0%nat) (a := x);
      try assumption; try reflexivity.
    - apply (snd_edges s Hs).
    - intros i Hi. pose proof (neighbors_length s i Hs Hi).
      pose proof (snd_range s Hs i). lia.
    - destruct Hcase as [D|D].
      + left. pose proof (neighbors_length s x Hs Hx). lia.
      + right.
        assert (Hz : (last (x :: l) 0 < dimension s)%nat)
          by (apply Hb, last_in; discriminate).
        pose proof (neighbors_length s _ Hs Hz) as L.
        rewrite (D _ Hz) in L. lia.
    - left. reflexivity. }
  split; [exact Hcov|].
  intros C Hn. apply full_length; try assumption.
  intros u Hu. apply Hcov. apply (complete_connected v); assumption.
Qed.

(** X16.  Each itinerary that [show] plots lists exactly the nodes that
    committed edges link to its start node: a whole path, walked from one
    end.  For a finished cycle on N >= 3 nodes [show] plots one itinerary
    of N + 1 entries, node 0 first and last and every node in between;
    for a finished path it plots itineraries of N entries. *)
Theorem X16_show_covers_components
    (v : variant) (p : OrderProblem) (k : nat) (s : OrderSolution)
    (fuel : nat) (l : list (list nat)) :
  reachable v p k s ->
  (1 <= p_dimension p)%nat -> (p_dimension p <= fuel)%nat ->
  show fuel s = Traced l ->
  Forall2 (fun x it => forall u, In u it <-> connected (edges_added s) x u)
    (start_nodes s) l
  /\ (complete s = true -> (3 <= p_dimension p)%nat ->
      (v = Cycle -> start_nodes s = [0%nat])
      /\ Forall (fun it =>
                   length it
                   = if Nat.eqb (length (start_nodes s)) 1
                     then S (p_dimension p) else p_dimension p) l).
Proof.
  intros Hr Hn Hfuel R.
  destruct (show_plots v p k s fuel Hr Hn Hfuel) as (l' & R' & Hp).
  rewrite R in R'. injection R' as <-.
  destruct (reachable_problem v p k s Hr) as [_ Hd]. rewrite <- Hd in *.
  pose proof (reachable_stage v p k s Hr) as Hst.
  assert (Hall : forall x it,
            In x (start_nodes s) ->
            plotted (dimension s) (edges_added s) (length (start_nodes s))
              x it ->
            (forall u, In u it <-> connected (edges_added s) x u)
            /\ (complete s = true -> (3 <= dimension s)%nat ->
                length it
                = if Nat.eqb (length (start_nodes s)) 1
                  then S (dimension s) else dimension s)).
  { intros x it Hx (r & Hroute & Hh & ->).
    destruct (start_nodes_degree v s x Hst Hn Hx) as [Hxn Hcase].
    destruct (route_covers v s r x Hst Hroute Hh Hcase) as [Hcov Hlen].
    destruct (Nat.eqb (length (start_nodes s)) 1).
    - split.
      + intros u. rewrite <- Hcov. split.
        * intros H. apply in_app_or in H. destruct H as [H|[<-|[]]]; [exact H|].
          apply Hcov, conn_refl.
        * intros H. apply in_or_app. left. exact H.
      + intros C H3. rewrite length_app, (Hlen C H3). simpl. lia.
    - split; [exact Hcov|exact Hlen]. }
  split; [|intros C H3; split].
  - apply (Forall2_in _ _ _ _ _ _ (fun x it Hx H => proj1 (Hall x it Hx H)) Hp).
  - intros ->.
    destruct Hst as [_ _ _ Hc _|Hv|e1 e2 _ _ _ _ Hcl|_ _ Hs Hl Hcd|Hs Hp'];
      try discriminate.
    + congruence.
    + rewrite (cls_complete _ _ _ Hcl) in C. discriminate.
    + unfold start_nodes, where_.
      rewrite (where_nil 0 (dimension s)); [reflexivity|].
      intros i Hi. rewrite (cld_degree s Hcd i) by lia. reflexivity.
    + rewrite (pd_dimension s Hp') in H3. lia.
  - apply (Forall2_right _ _ _ _ _ _
             (fun x it Hx H => proj2 (Hall x it Hx H) C H3) Hp).
Qed.

Lemma X16_witness :
  Forall2 (fun x it =>
             forall u, In u it
                       <-> connected
                             (edges_added
                                (after Cycle trio [(0, 1); (2, 1); (0, 2)]%nat))
                             x u)
    [0%nat] [[0; 1; 2; 0]%nat].
Proof.
  apply (X16_show_covers_components Cycle trio 3
           (after Cycle trio [(0, 1); (2, 1); (0, 2)]%nat) 3
           [[0; 1; 2; 0]%nat] reach_trio_3).
  - apply le_S, le_S, le_n.
  - apply le_n.
  - vm_compute. reflexivity.
Defined.

(** ** When a call succeeds *)

(** X17.  In every run a call succeeds exactly when the sorted pair of
    its nodes is feasible: none of the assertions inside [add_edge] (the
    duplicate test, the count of end nodes before the closing edge, the
    validity test) stops a call that has passed the feasibility test.  A
    successful call is on two distinct nodes of the problem, commits its
    sorted pair and nothing else, and raises the degree of its two nodes
    by one. *)
Theorem X17_call_succeeds_iff_feasible
    (v : variant) (p : OrderProblem) (k : nat) (s : OrderSolution)
    (x y : nat) :
  reachable v p k s ->
  ((exists s', add_edge v x y s = Normal s')
   <-> feasible_edges s (Nat.min x y) (Nat.max x y) = true)
  /\ forall s', add_edge v x y s = Normal s' ->
       x <> y /\ (x < p_dimension p)%nat /\ (y < p_dimension p)%nat
       /\ edges_added s'
          = gset (edges_added s) (Nat.min x y) (Nat.max x y) true
       /\ forall z, (z < p_dimension p)%nat ->
            node_degrees s' z
            = node_degrees s z + b2z (Nat.eqb z x) + b2z (Nat.eqb z y).
Proof.
  intros Hr. pose proof (reachable_stage v p k s Hr) as Hst.
  destruct (reachable_problem v p k s Hr) as [_ Hd]. split.
  - split.
    + intros (s' & R). apply (add_edge_normal v x y s s' Hst R).
    + intros F. destruct (add_edge_step v x y s Hst F) as (_ & s' & _ & R & _).
      exists s'. exact R.
  - intros s' R.
    destruct (add_edge_normal v x y s s' Hst R) as (_ & s1 & _ & Hf).
    pose proof (sf_pair _ _ _ _ _ _ Hf) as Hp. rewrite Hd in Hp.
    split; [lia|]. split; [lia|]. split; [lia|]. split.
    + rewrite (sf_edges _ _ _ _ _ _ Hf). apply (sf_edges1 _ _ _ _ _ _ Hf).
    + intros z Hz. rewrite <- Hd in Hz.
      rewrite (step_degrees v s _ _ s1 s' Hst Hf z Hz).
      pose proof (sorted_degrees x y z). lia.
Qed.

Lemma X17_witness :
  reachable Cycle trio 1 (after Cycle trio [(0, 1)%nat])
  /\ ((exists s', add_edge Cycle 2 1 (after Cycle trio [(0, 1)%nat])
                  = Normal s')
      <-> feasible_edges (after Cycle trio [(0, 1)%nat]) 1%nat 2%nat = true).
Proof.
  split; [exact reach_trio_1|].
  apply (X17_call_succeeds_iff_feasible Cycle trio 1
           (after Cycle trio [(0, 1)%nat]) 2 1 reach_trio_1).
Defined.
